(** * quatplot: the serial-to-WebSocket quaternion pipeline of [main.go]

    A shallow embedding of the Go backend: the line parser
    [parseQuaternion], the latest-value store [currentQuat], the hub
    ([clients], [broadcastQuaternion], [handleWebSocket]) and the
    reconnecting reader [listenSerialPort].

    Go strings are byte strings, embedded as [string]; a [float64] is an
    IEEE 754 binary64 value, embedded as [spec_float] (precision 53,
    exponent bound 1024); the [clients] map is a [gmap] keyed by the
    connection's identity.

    The packages of the Go standard library that [main.go] calls
    ([strings], [strconv], [unicode/utf8], [fmt], [encoding/json]) are
    not part of the repository. The functions called are embedded after
    their documented behaviour, [strconv.ParseFloat] down to its reading
    loop, so that the parser can be run on concrete lines.

    The serial port, the WebSocket peers and the scheduler are the
    environment. Each goroutine advances by atomic steps, one per
    critical section or per call on a connection, and the outcome of
    the call (the port opened or not, a line or the end of the scan,
    a write taken or refused) labels the step. Every effect is appended
    to a journal, from which the messages sent to a connection are
    read.

    Of the page that [serveHome] serves, the zoom is embedded: the
    variables [baseCameraDistance] and [zoomFactor] and the z coordinate
    of the camera, with the functions of the script that assign them. *)

From Stdlib Require Import ZArith NArith String Ascii List Bool Lia.
From Stdlib Require Import SpecFloat DecimalString.
From stdpp Require Import base option list gmap.
Import ListNotations.

Local Open Scope string_scope.
Local Open Scope Z_scope.

#[local] Arguments String.append !_ _ / : simpl nomatch.
#[local] Set Warnings "-clear-no-such-hyp".

(** ** Bytes and the helpers of the Go runtime libraries *)

Definition byte_of (c : ascii) : Z := Z.of_N (N_of_ascii c).
Definition byte_to (n : Z) : ascii := ascii_of_N (Z.to_N n).

Fixpoint bytes_of_list (l : list Z) : string :=
  match l with
  | [] => EmptyString
  | b :: l' => String (byte_to b) (bytes_of_list l')
  end.

Fixpoint string_rev_onto (s acc : string) : string :=
  match s with
  | EmptyString => acc
  | String c s' => string_rev_onto s' (String c acc)
  end.

Definition string_rev (s : string) : string := string_rev_onto s EmptyString.

(** [strip_prefix p s] is [Some r] when [s = p ++ r]. *)
Fixpoint strip_prefix (p s : string) : option string :=
  match p, s with
  | EmptyString, _ => Some s
  | String a p', String b s' =>
      if Ascii.eqb a b then strip_prefix p' s' else None
  | String _ _, EmptyString => None
  end.

Fixpoint strip_any (ps : list string) (s : string) : option string :=
  match ps with
  | [] => None
  | p :: ps' =>
      match strip_prefix p s with
      | Some r => Some r
      | None => strip_any ps' s
      end
  end.

Module strings.

(** The code points of [unicode.IsSpace] (the Unicode White_Space
    property), each in its UTF-8 encoding. *)
Definition spaces : list string :=
  map bytes_of_list
    [ [0x09]; [0x0A]; [0x0B]; [0x0C]; [0x0D]; [0x20];
      [0xC2; 0x85]; [0xC2; 0xA0];
      [0xE1; 0x9A; 0x80];
      [0xE2; 0x80; 0x80]; [0xE2; 0x80; 0x81]; [0xE2; 0x80; 0x82];
      [0xE2; 0x80; 0x83]; [0xE2; 0x80; 0x84]; [0xE2; 0x80; 0x85];
      [0xE2; 0x80; 0x86]; [0xE2; 0x80; 0x87]; [0xE2; 0x80; 0x88];
      [0xE2; 0x80; 0x89]; [0xE2; 0x80; 0x8A];
      [0xE2; 0x80; 0xA8]; [0xE2; 0x80; 0xA9]; [0xE2; 0x80; 0xAF];
      [0xE2; 0x81; 0x9F];
      [0xE3; 0x80; 0x80] ].

(** Drop leading white space: one encoded space per unit of fuel. *)
Fixpoint trim_left (fuel : nat) (ps : list string) (s : string) : string :=
  match fuel with
  | O => s
  | S fuel' =>
      match strip_any ps s with
      | Some r => trim_left fuel' ps r
      | None => s
      end
  end.

(** [strings.TrimSpace]: all leading and trailing white space removed. *)
Definition TrimSpace (s : string) : string :=
  let n := String.length s in
  let l := trim_left n spaces s in
  string_rev (trim_left n (map string_rev spaces) (string_rev l)).

(** [strings.Split(s, sep)] for a one-byte separator: the substrings
    between the separators, [n + 1] of them when [sep] occurs [n] times. *)
Fixpoint Split (s : string) (sep : ascii) : list string :=
  match s with
  | EmptyString => [EmptyString]
  | String c s' =>
      if Ascii.eqb c sep then EmptyString :: Split s' sep
      else match Split s' sep with
           | [] => [String c EmptyString]
           | p :: ps => String c p :: ps
           end
  end.

End strings.

(** ** [float64] *)

Definition float64 : Type := spec_float.

Definition prec64 : Z := 53.
Definition emax64 : Z := 1024.

Definition float64_zero : float64 := S754_zero false.
Definition float64_NaN : float64 := S754_nan.
Definition float64_Inf (neg : bool) : float64 := S754_infinity neg.

(** [math.IsNaN(f)] and [math.IsInf(f, 0)]. *)
Definition IsNaN (f : float64) : bool :=
  match f with S754_nan => true | _ => false end.
Definition IsInf (f : float64) : bool :=
  match f with S754_infinity _ => true | _ => false end.

(** The binary64 value nearest to [m * 2^e] and to [m * 10^e] ([m > 0]),
    ties to even; an infinity when the rounded value exceeds the largest
    finite number, a zero when it underflows. *)
Definition round_binary (neg : bool) (m : positive) (e : Z) : float64 :=
  binary_round prec64 emax64 neg m e.

Definition round_decimal (neg : bool) (m : positive) (e : Z) : float64 :=
  if 0 <=? e then
    binary_round prec64 emax64 neg (m * Z.to_pos (10 ^ e)) 0
  else
    let '(q, e', loc) :=
      SFdiv_core_binary prec64 emax64 (Zpos m) 0 (10 ^ (- e)) 0 in
    binary_round_aux prec64 emax64 neg q e' loc.

(** A few binary64 constants, by sign, mantissa and exponent. *)
Definition f64_1 : float64 := S754_finite false 4503599627370496 (-52).
Definition f64_0_1 : float64 := S754_finite false 7205759403792794 (-56).
Definition f64_0_2 : float64 := S754_finite false 7205759403792794 (-55).
Definition f64_0_3 : float64 := S754_finite false 5404319552844595 (-54).
Definition f64_0_9 : float64 := S754_finite false 8106479329266893 (-53).

(** ** [strconv]: [ParseFloat] and its errors *)

Module strconv.

Inductive Err := ErrSyntax | ErrRange.

(** [*strconv.NumError]: the failing function, the input, the reason. *)
Record NumError := { Func : string; Num : string; Reason : Err }.

Definition syntaxError (fn str : string) : NumError :=
  {| Func := fn; Num := str; Reason := ErrSyntax |}.
Definition rangeError (fn str : string) : NumError :=
  {| Func := fn; Num := str; Reason := ErrRange |}.

Definition fnParseFloat : string := "ParseFloat".

Definition ch (a : ascii) : Z := byte_of a.
Arguments ch a%_char.

(** [lower(c)]: [c | ('x' - 'X')]. *)
Definition lower (c : Z) : Z := Z.lor c 0x20.

Definition isDigit (c : Z) : bool := (ch "0" <=? c) && (c <=? ch "9").
Definition isHexLetter (c : Z) : bool :=
  (ch "a" <=? lower c) && (lower c <=? ch "f").

Fixpoint commonPrefixLenIgnoreCase (s prefix : string) : nat :=
  match s, prefix with
  | String a s', String p prefix' =>
      let c := byte_of a in
      let c := if (ch "A" <=? c) && (c <=? ch "Z") then c + (ch "a" - ch "A") else c in
      if c =? byte_of p then S (commonPrefixLenIgnoreCase s' prefix') else O
  | _, _ => O
  end.

(** [special]: the tokens [NaN], [Inf] and [Infinity], the last two
    with an optional sign, in any letter case. Returns the value and
    the number of bytes consumed. *)
Definition special (s : string) : option (float64 * nat) :=
  let infinity (neg : bool) (nsign : nat) (t : string) :=
    let n := commonPrefixLenIgnoreCase t "infinity" in
    let n := if (3 <? n)%nat && (n <? 8)%nat then 3%nat else n in
    if (n =? 3)%nat || (n =? 8)%nat
    then Some (float64_Inf neg, (nsign + n)%nat) else None in
  match s with
  | EmptyString => None
  | String a t =>
      let c := byte_of a in
      if c =? ch "+" then infinity false 1%nat t
      else if c =? ch "-" then infinity true 1%nat t
      else if (c =? ch "i") || (c =? ch "I") then infinity false 0%nat s
      else if (c =? ch "n") || (c =? ch "N") then
        if (commonPrefixLenIgnoreCase s "nan" =? 3)%nat
        then Some (float64_NaN, 3%nat) else None
      else None
  end.

(** [underscoreOK]: underscores only between digits, or between a base
    prefix and a digit. [saw] is the class of the last byte seen. *)
Inductive Saw := SawStart | SawDigit | SawUnderscore | SawOther.

Fixpoint underscoreOK_loop (hex : bool) (saw : Saw) (s : string) : bool :=
  match s with
  | EmptyString => match saw with SawUnderscore => false | _ => true end
  | String a s' =>
      let c := byte_of a in
      if isDigit c || (hex && isHexLetter c) then underscoreOK_loop hex SawDigit s'
      else if c =? ch "_" then
        match saw with
        | SawDigit => underscoreOK_loop hex SawUnderscore s'
        | _ => false
        end
      else
        match saw with
        | SawUnderscore => false
        | _ => underscoreOK_loop hex SawOther s'
        end
  end.

Definition underscoreOK (s : string) : bool :=
  let s :=
    match s with
    | String a s' =>
        if (byte_of a =? ch "-") || (byte_of a =? ch "+") then s' else s
    | EmptyString => s
    end in
  match s with
  | String a (String b s') =>
      let lb := lower (byte_of b) in
      if (byte_of a =? ch "0") && ((lb =? ch "b") || (lb =? ch "o") || (lb =? ch "x"))
      then underscoreOK_loop (lb =? ch "x") SawDigit s'
      else underscoreOK_loop false SawStart s
  | _ => underscoreOK_loop false SawStart s
  end.

(** The digit loop of [readFloat]. The mantissa is kept in full, with
    its digit count [nd] (Go keeps the first 19 digits and a flag that
    more followed, and consults the full decimal when those do not
    settle the rounding). [dp] is the position of the point. *)
Record Digits := {
  sawdot : bool; sawdigits : bool; nd : Z; dp : Z;
  mantissa : Z; underscores : bool; rest : string }.

Fixpoint readDigits (base : Z) (sawdot sawdigits : bool) (nd dp mantissa : Z)
    (underscores : bool) (s : string) : Digits :=
  let stop := {| sawdot := sawdot; sawdigits := sawdigits; nd := nd; dp := dp;
                 mantissa := mantissa; underscores := underscores; rest := s |} in
  match s with
  | EmptyString => stop
  | String a s' =>
      let c := byte_of a in
      if c =? ch "_" then
        readDigits base sawdot sawdigits nd dp mantissa true s'
      else if c =? ch "." then
        if sawdot then stop
        else readDigits base true sawdigits nd nd mantissa underscores s'
      else if isDigit c then
        if (c =? ch "0") && (nd =? 0) then
          readDigits base sawdot true nd (dp - 1) mantissa underscores s'
        else
          readDigits base sawdot true (nd + 1) dp
            (mantissa * base + (c - ch "0")) underscores s'
      else if (base =? 16) && isHexLetter c then
        readDigits base sawdot true (nd + 1) dp
          (mantissa * 16 + (lower c - ch "a" + 10)) underscores s'
      else stop
  end.

(** The digits of the exponent; beyond 10000 further digits are read
    but no longer counted. *)
Fixpoint readExponent (e : Z) (underscores : bool) (s : string) : Z * bool * string :=
  match s with
  | EmptyString => (e, underscores, s)
  | String a s' =>
      let c := byte_of a in
      if isDigit c then
        readExponent (if e <? 10000 then e * 10 + (c - ch "0") else e) underscores s'
      else if c =? ch "_" then readExponent e true s'
      else (e, underscores, s)
  end.

(** What [readFloat] returns on success: the value read is
    [mant * 10^exp], or [mant * 2^exp] when [hex]; [digits] is the
    number of digits of [mant] and [unread] the remainder of the input. *)
Record Read := { neg : bool; hex : bool; mant : Z; digits : Z; exp : Z; unread : string }.

Definition consumed (s unread : string) : string :=
  String.substring 0 (String.length s - String.length unread) s.

(** The optional sign: whether it is a minus, and what follows it. *)
Definition readSign (s : string) : bool * string :=
  match s with
  | String a t =>
      if byte_of a =? ch "+" then (false, t)
      else if byte_of a =? ch "-" then (true, t)
      else (false, s)
  | EmptyString => (false, s)
  end.

(** The base prefix [0x]: it counts only when a byte follows it. *)
Definition readBase (s : string) : bool * string :=
  match s with
  | String z (String x (String d t)) =>
      if (byte_of z =? ch "0") && (lower (byte_of x) =? ch "x")
      then (true, String d t) else (false, s)
  | _ => (false, s)
  end.

(** The optional exponent: absent, malformed, or its signed value with
    the underscore flag and the unread remainder. *)
Inductive Exponent :=
| NoExponent
| BadExponent
| Exponent_ (e : Z) (underscores : bool) (unread : string).

Definition readExp (expChar : Z) (underscores : bool) (s : string) : Exponent :=
  match s with
  | String e t1 =>
      if lower (byte_of e) =? expChar then
        match t1 with
        | EmptyString => BadExponent
        | String sg t2 =>
            let '(esign, t3) :=
              if byte_of sg =? ch "+" then (1, t2)
              else if byte_of sg =? ch "-" then (-1, t2)
              else (1, t1) in
            match t3 with
            | String d _ =>
                if isDigit (byte_of d) then
                  let '(e, us, unread) := readExponent 0 underscores t3 in
                  Exponent_ (e * esign) us unread
                else BadExponent
            | EmptyString => BadExponent
            end
        end
      else NoExponent
  | EmptyString => NoExponent
  end.

Definition readFloat (s : string) : option Read :=
  match s with
  | EmptyString => None
  | String _ _ =>
      let '(neg, t) := readSign s in
      let '(hex, t) := readBase t in
      let base := if hex then 16 else 10 in
      let expChar := if hex then ch "p" else ch "e" in
      let ds := readDigits base false false 0 0 0 false t in
      if negb (sawdigits ds) then None
      else
        let dp := if sawdot ds then dp ds else nd ds in
        let '(dp, ndigits) := if hex then (dp * 4, nd ds * 4) else (dp, nd ds) in
        let finish (dp : Z) (underscores : bool) (unread : string) :=
          let exp := if mantissa ds =? 0 then 0 else dp - ndigits in
          if underscores && negb (underscoreOK (consumed s unread)) then None
          else Some {| neg := neg; hex := hex; mant := mantissa ds; digits := nd ds;
                       exp := exp; unread := unread |} in
        match readExp expChar (underscores ds) (rest ds) with
        | Exponent_ e us unread => finish (dp + e) us unread
        | BadExponent => None
        | NoExponent => if hex then None else finish dp (underscores ds) (rest ds)
        end
  end.

(** The nearest binary64 value of what was read, and whether it
    overflowed the finite range. A decimal at or above [10^310] is an
    overflow and one below [10^-330] is a zero without further
    computation, as in [decimal.floatBits]. *)
Definition floatOf (r : Read) : float64 * bool :=
  match mant r with
  | Zpos m =>
      if hex r then
        let f := round_binary (neg r) m (exp r) in (f, IsInf f)
      else if exp r + digits r >? 310 then (float64_Inf (neg r), true)
      else if exp r + digits r <? -330 then (S754_zero (neg r), false)
      else
        let f := round_decimal (neg r) m (exp r) in (f, IsInf f)
  | _ => (S754_zero (neg r), false)
  end.

(** [atof64]: value, bytes consumed, error. *)
Definition atof64 (s : string) : float64 * nat * option NumError :=
  match special s with
  | Some (val, n) => (val, n, None)
  | None =>
      match readFloat s with
      | None => (float64_zero, O, Some (syntaxError fnParseFloat s))
      | Some r =>
          let n := (String.length s - String.length (unread r))%nat in
          let '(f, ovf) := floatOf r in
          (f, n, if ovf then Some (rangeError fnParseFloat s) else None)
      end
  end.

(** [strconv.ParseFloat(s, 64)]. *)
Definition ParseFloat (s : string) : float64 * option NumError :=
  let '(f, n, err) := atof64 s in
  let notSyntax :=
    match err with
    | None => true
    | Some e => match Reason e with ErrSyntax => false | ErrRange => true end
    end in
  if negb (n =? String.length s)%nat && notSyntax
  then (float64_zero, Some (syntaxError fnParseFloat s))
  else (f, err).

End strconv.

(** ** [unicode/utf8], [strconv.Quote] and [fmt] *)

Module utf8.

Definition RuneError : Z := 0xFFFD.

Definition continuation (b : Z) : bool := (0x80 <=? b) && (b <=? 0xBF).

(** Size of the encoding announced by a first byte at or above 0x80 and
    the range accepted for its second byte; size 1 marks an invalid
    first byte. *)
Definition first (s0 : Z) : nat * Z * Z :=
  if (0xC2 <=? s0) && (s0 <=? 0xDF) then (2%nat, 0x80, 0xBF)
  else if s0 =? 0xE0 then (3%nat, 0xA0, 0xBF)
  else if (0xE1 <=? s0) && (s0 <=? 0xEC) then (3%nat, 0x80, 0xBF)
  else if s0 =? 0xED then (3%nat, 0x80, 0x9F)
  else if (0xEE <=? s0) && (s0 <=? 0xEF) then (3%nat, 0x80, 0xBF)
  else if s0 =? 0xF0 then (4%nat, 0x90, 0xBF)
  else if (0xF1 <=? s0) && (s0 <=? 0xF3) then (4%nat, 0x80, 0xBF)
  else if s0 =? 0xF4 then (4%nat, 0x80, 0x8F)
  else (1%nat, 0, 0).

(** [utf8.DecodeRuneInString]: the first code point and its width;
    [(RuneError, 1)] on an invalid or truncated encoding. *)
Definition DecodeRuneInString (s : string) : Z * nat :=
  match s with
  | EmptyString => (RuneError, 0%nat)
  | String a0 t0 =>
      let s0 := byte_of a0 in
      if s0 <? 0x80 then (s0, 1%nat)
      else
        let '(sz, lo, hi) := first s0 in
        match sz, t0 with
        | S O, _ => (RuneError, 1%nat)
        | _, String a1 t1 =>
            let s1 := byte_of a1 in
            if (s1 <? lo) || (hi <? s1) then (RuneError, 1%nat)
            else if (sz <=? 2)%nat then
              (Z.lor (Z.shiftl (Z.land s0 0x1F) 6) (Z.land s1 0x3F), 2%nat)
            else
              match t1 with
              | String a2 t2 =>
                  let s2 := byte_of a2 in
                  if negb (continuation s2) then (RuneError, 1%nat)
                  else if (sz <=? 3)%nat then
                    (Z.lor (Z.shiftl (Z.land s0 0x0F) 12)
                       (Z.lor (Z.shiftl (Z.land s1 0x3F) 6) (Z.land s2 0x3F)), 3%nat)
                  else
                    match t2 with
                    | String a3 _ =>
                        let s3 := byte_of a3 in
                        if negb (continuation s3) then (RuneError, 1%nat)
                        else
                          (Z.lor (Z.shiftl (Z.land s0 0x07) 18)
                             (Z.lor (Z.shiftl (Z.land s1 0x3F) 12)
                                (Z.lor (Z.shiftl (Z.land s2 0x3F) 6) (Z.land s3 0x3F))),
                           4%nat)
                    | EmptyString => (RuneError, 1%nat)
                    end
              | EmptyString => (RuneError, 1%nat)
              end
        | _, EmptyString => (RuneError, 1%nat)
        end
  end.

End utf8.

Definition quote_byte : ascii := byte_to 0x22.
Definition backslash : ascii := byte_to 0x5C.

(** [strconv.Itoa] on a length. *)
Definition Itoa (n : nat) : string := NilEmpty.string_of_uint (Nat.to_uint n).

Section Messages.

(** The tables of [strconv.IsPrint] for the code points above U+00FF
    are not part of this repository; they are a parameter. *)
Variable isPrintTable : Z -> bool.

Definition IsPrint (r : Z) : bool :=
  if r <=? 0xFF then
    if (0x20 <=? r) && (r <=? 0x7E) then true
    else if (0xA1 <=? r) && (r <=? 0xFF) then negb (r =? 0xAD)
    else false
  else isPrintTable r.

Definition hexdigit (n : Z) : ascii :=
  if n <? 10 then byte_to (0x30 + n) else byte_to (0x61 + (n - 10)).

(** [n] lower-case hexadecimal digits of [r], most significant first. *)
Fixpoint hexdigits (n : nat) (r : Z) : string :=
  match n with
  | O => EmptyString
  | S n' =>
      String (hexdigit (Z.land (Z.shiftr r (4 * Z.of_nat n')) 0xF)) (hexdigits n' r)
  end.

(** [appendEscapedRune] for the double quote, neither ASCII-only nor
    graphic-only; [raw] is the encoding the code point was read from. *)
Definition escapedRune (r : Z) (raw : string) : string :=
  if (r =? 0x22) || (r =? 0x5C) then String backslash (String (byte_to r) EmptyString)
  else if IsPrint r then raw
  else if r =? 0x07 then String backslash "a"
  else if r =? 0x08 then String backslash "b"
  else if r =? 0x0C then String backslash "f"
  else if r =? 0x0A then String backslash "n"
  else if r =? 0x0D then String backslash "r"
  else if r =? 0x09 then String backslash "t"
  else if r =? 0x0B then String backslash "v"
  else if (r <? 0x20) || (r =? 0x7F) then String backslash (String "x" (hexdigits 2 r))
  else if r <? 0x10000 then String backslash (String "u" (hexdigits 4 r))
  else String backslash (String "U" (hexdigits 8 r)).

(** The loop of [appendQuotedWith]; [skip] counts the bytes left of a
    code point already written. *)
Fixpoint quoted (skip : nat) (s : string) : string :=
  match s with
  | EmptyString => String quote_byte EmptyString
  | String a s' =>
      match skip with
      | S k => quoted k s'
      | O =>
          let '(r, width) := utf8.DecodeRuneInString s in
          if (width =? 1)%nat && (r =? utf8.RuneError) then
            String backslash (String "x" (hexdigits 2 (byte_of a))) ++ quoted O s'
          else
            escapedRune r (String.substring 0 width s) ++ quoted (width - 1) s'
      end
  end.

(** [strconv.Quote]. *)
Definition Quote (s : string) : string := String quote_byte (quoted O s).

(** The [Error] method of [NumError]. *)
Definition NumError_Error (e : strconv.NumError) : string :=
  "strconv." ++ strconv.Func e ++ ": " ++ "parsing " ++ Quote (strconv.Num e) ++ ": "
  ++ match strconv.Reason e with
     | strconv.ErrSyntax => "invalid syntax"
     | strconv.ErrRange => "value out of range"
     end.

(** The operand of a formatting verb. *)
Inductive Arg :=
| ArgInt (n : nat)
| ArgError (e : strconv.NumError).

Definition formatArg (a : Arg) : string :=
  match a with
  | ArgInt n => Itoa n
  | ArgError e => NumError_Error e
  end.

(** [fmt.Sprintf] for a format with one verb, [%d] on an int or [%v]
    on an error: the verb is replaced by its operand. *)
Fixpoint Sprintf (format : string) (a : Arg) : string :=
  match format with
  | EmptyString => EmptyString
  | String c rest =>
      match rest with
      | String v rest' =>
          if Ascii.eqb c "%" then formatArg a ++ rest'
          else String c (Sprintf rest a)
      | EmptyString => String c EmptyString
      end
  end.

End Messages.

(** An [error] made by [fmt.Errorf(format, a)]. *)
Inductive error :=
| Errorf (format : string) (a : Arg).

(** [err.Error()]. *)
Definition Error (isPrintTable : Z -> bool) (err : error) : string :=
  match err with
  | Errorf format a => Sprintf isPrintTable format a
  end.

(** ** The record and its parser *)

(** [Quaternion]: the fields [I], [J], [K], [Real] of the Go struct. *)
Record Quaternion := { QI : float64; QJ : float64; QK : float64; QReal : float64 }.

(** [Quaternion{}], the zero value. *)
Definition Quaternion_zero : Quaternion :=
  {| QI := float64_zero; QJ := float64_zero; QK := float64_zero; QReal := float64_zero |}.

(** The rotation-free quaternion (0, 0, 0, 1). *)
Definition Quaternion_identity : Quaternion :=
  {| QI := float64_zero; QJ := float64_zero; QK := float64_zero; QReal := f64_1 |}.

Definition index (parts : list string) (n : nat) : string := nth n parts EmptyString.

(** [parseQuaternion] parses a line in format [i,j,k,real]. *)
Definition parseQuaternion (line : string) : Quaternion * option error :=
  let parts := strings.Split (strings.TrimSpace line) "," in
  if negb (length parts =? 4)%nat then
    (Quaternion_zero, Some (Errorf "expected 4 values, got %d" (ArgInt (length parts))))
  else
    let '(i, err) := strconv.ParseFloat (index parts 0) in
    match err with
    | Some e => (Quaternion_zero, Some (Errorf "invalid i value: %v" (ArgError e)))
    | None =>
    let '(j, err) := strconv.ParseFloat (index parts 1) in
    match err with
    | Some e => (Quaternion_zero, Some (Errorf "invalid j value: %v" (ArgError e)))
    | None =>
    let '(k, err) := strconv.ParseFloat (index parts 2) in
    match err with
    | Some e => (Quaternion_zero, Some (Errorf "invalid k value: %v" (ArgError e)))
    | None =>
    let '(real, err) := strconv.ParseFloat (index parts 3) in
    match err with
    | Some e => (Quaternion_zero, Some (Errorf "invalid real value: %v" (ArgError e)))
    | None => ({| QI := i; QJ := j; QK := k; QReal := real |}, None)
    end end end end.

(** ** [encoding/json] *)

(** The JSON documents that [json.Marshal] produces for a struct of
    floats. The decimal rendering of a number is not modelled: a number
    is the [float64] it denotes. *)
#[warnings="-register-all"]
Inductive JSON :=
| JNumber (f : float64)
| JObject (members : list (string * JSON)).

(** A [[]byte] holding an encoded document, or the nil slice. *)
Inductive Bytes :=
| Nil
| Encoded (doc : JSON).

Module json.

(** [*json.UnsupportedValueError], raised on NaN and the infinities. *)
Inductive MarshalError := UnsupportedValueError (f : float64).

Definition floatEncoder (f : float64) : JSON + MarshalError :=
  if IsInf f || IsNaN f then inr (UnsupportedValueError f) else inl (JNumber f).

Fixpoint structEncoder (fields : list (string * float64))
    : list (string * JSON) + MarshalError :=
  match fields with
  | [] => inl []
  | (name, f) :: fields' =>
      match floatEncoder f with
      | inr e => inr e
      | inl v =>
          match structEncoder fields' with
          | inr e => inr e
          | inl members => inl ((name, v) :: members)
          end
      end
  end.

(** [json.Marshal(quat)], with the field tags of [Quaternion]. *)
Definition Marshal (quat : Quaternion) : Bytes * option MarshalError :=
  match structEncoder [("i", QI quat); ("j", QJ quat); ("k", QK quat); ("real", QReal quat)] with
  | inl members => (Encoded (JObject members), None)
  | inr e => (Nil, Some e)
  end.

End json.

(** ** The shared state and the effects of the program *)

(** A [*websocket.Conn], by identity. *)
Definition Conn : Type := positive.

Inductive LogLine :=
| LogOpenError
| LogOpened
| LogParseError (err : error) (line : string)
| LogScanError
| LogPortClosed
| LogMarshalError (err : json.MarshalError)
| LogWriteError (client : Conn)
| LogUpgradeError
| LogClientConnected
| LogClientDisconnected.

(** What the program does to the outside, in order of occurrence. The
    two [WriteMessage] call sites are kept apart: [Published] is the one
    in [broadcastQuaternion], [Greeted] the one in [handleWebSocket];
    [ok] tells whether the write returned no error. *)
Inductive Effect :=
| Logged (l : LogLine)
| Stored (quat : Quaternion)
| Published (client : Conn) (data : Bytes) (ok : bool)
| Greeted (conn : Conn) (data : Bytes) (ok : bool)
| ConnClosed (conn : Conn)
| PortOpened
| PortClosed.

(** The package-level variables [currentQuat] and [clients], the
    connections already closed by the program, and the effects so far
    (oldest first). *)
Record World := {
  currentQuat : Quaternion;
  clients : gmap Conn bool;
  closed : gset Conn;
  journal : list Effect }.

Definition emit (es : list Effect) (w : World) : World :=
  {| currentQuat := currentQuat w; clients := clients w; closed := closed w;
     journal := journal w ++ es |}.

(** [currentQuat = quat], under [quatMutex]. *)
Definition setCurrentQuat (quat : Quaternion) (w : World) : World :=
  {| currentQuat := quat; clients := clients w; closed := closed w;
     journal := journal w ++ [Stored quat] |}.

(** Whether a [WriteMessage] on [conn] succeeds: the peer must take the
    frame ([net conn]) and the program must not have closed [conn]. *)
Definition writable (net : Conn -> bool) (conn : Conn) (w : World) : bool :=
  net conn && negb (bool_decide (conn ∈ closed w)).

(** [client.Close(); delete(clients, client)]. *)
Definition evict (client : Conn) (w : World) : World :=
  {| currentQuat := currentQuat w; clients := delete client (clients w);
     closed := {[client]} ∪ closed w;
     journal := journal w ++ [Logged (LogWriteError client); ConnClosed client] |}.

(** One iteration of the [range clients] loop of [broadcastQuaternion]. *)
Definition broadcast_to (net : Conn -> bool) (data : Bytes) (w : World) (client : Conn) : World :=
  let ok := writable net client w in
  let w := emit [Published client data ok] w in
  if ok then w else evict client w.

(** The keys of [clients] in the order the loop visits them. *)
Definition range (m : gmap Conn bool) : list Conn := (map_to_list m).*1.

(** [broadcastQuaternion] sends quaternion data to all connected
    WebSocket clients; it runs under [clientsMutex]. *)
Definition broadcastQuaternion (net : Conn -> bool) (quat : Quaternion) (w : World) : World :=
  match json.Marshal quat with
  | (_, Some err) => emit [Logged (LogMarshalError err)] w
  | (data, None) => foldl (broadcast_to net data) w (range (clients w))
  end.

(** [handleWebSocket], first part: [clients[conn] = true] under
    [clientsMutex], then the log line. *)
Definition register (conn : Conn) (w : World) : World :=
  {| currentQuat := currentQuat w; clients := <[conn := true]> (clients w);
     closed := closed w; journal := journal w ++ [Logged LogClientConnected] |}.

(** [handleWebSocket], third part: [data, _ := json.Marshal(quat)] and
    [conn.WriteMessage(websocket.TextMessage, data)], both errors dropped. *)
Definition sendCurrent (net : Conn -> bool) (conn : Conn) (quat : Quaternion) (w : World) : World :=
  let '(data, _) := json.Marshal quat in
  emit [Greeted conn data (writable net conn w)] w.

(** [handleWebSocket], the deferred function. *)
Definition disconnect (conn : Conn) (w : World) : World :=
  {| currentQuat := currentQuat w; clients := delete conn (clients w);
     closed := {[conn]} ∪ closed w;
     journal := journal w ++ [ConnClosed conn; Logged LogClientDisconnected] |}.

(** ** The goroutines, one atomic step at a time *)

(** Where [listenSerialPort] stands: about to open the port, about to
    scan a line, or between the store of a parsed record and its
    broadcast. *)
Inductive IngestPC :=
| Connecting
| Reading
| Publishing (quat : Quaternion).

(** What happens next in [listenSerialPort]: the outcome of
    [serial.Open], of [scanner.Scan], or the broadcast with the outcome
    of its writes. *)
Inductive IngestLabel :=
| OpenFailed
| Opened
| Scanned (line : string)
| ScanEnded (err : bool)
| Broadcast (net : Conn -> bool).

Definition listenSerialPort (l : IngestLabel) (pc : IngestPC) (w : World)
    : option (IngestPC * World) :=
  match pc, l with
  | Connecting, OpenFailed => Some (Connecting, emit [Logged LogOpenError] w)
  | Connecting, Opened => Some (Reading, emit [PortOpened; Logged LogOpened] w)
  | Reading, Scanned line =>
      match parseQuaternion line with
      | (_, Some err) => Some (Reading, emit [Logged (LogParseError err line)] w)
      | (quat, None) => Some (Publishing quat, setCurrentQuat quat w)
      end
  | Publishing quat, Broadcast net => Some (Reading, broadcastQuaternion net quat w)
  | Reading, ScanEnded err =>
      Some (Connecting,
            emit ((if err then [Logged LogScanError] else [])
                  ++ [PortClosed; Logged LogPortClosed]) w)
  | _, _ => None
  end.

(** Where a [handleWebSocket] call stands once the upgrade succeeded:
    registered, holding its copy of [currentQuat], in the read loop, or
    returned. *)
Inductive HandlerPC :=
| Registered
| Holding (quat : Quaternion)
| Serving
| Returned.

Inductive HandlerLabel :=
| Upgraded
| ReadCurrent
| SendCurrent (net : Conn -> bool)
| ReadMessage (ok : bool).

Definition handleWebSocket (conn : Conn) (l : HandlerLabel) (pc : option HandlerPC) (w : World)
    : option (HandlerPC * World) :=
  match pc, l with
  | None, Upgraded => Some (Registered, register conn w)
  | Some Registered, ReadCurrent => Some (Holding (currentQuat w), w)
  | Some (Holding quat), SendCurrent net => Some (Serving, sendCurrent net conn quat w)
  | Some Serving, ReadMessage true => Some (Serving, w)
  | Some Serving, ReadMessage false => Some (Returned, disconnect conn w)
  | _, _ => None
  end.

(** The whole process: the shared state, the reader goroutine and one
    handler goroutine per upgraded connection. *)
Record System := {
  world : World;
  ingest : IngestPC;
  handlers : gmap Conn HandlerPC }.

Inductive Event :=
| Serial (l : IngestLabel)
| Socket (conn : Conn) (l : HandlerLabel)
| UpgradeFailed.

Definition step (ev : Event) (s : System) : option System :=
  match ev with
  | Serial l =>
      '(pc, w) ← listenSerialPort l (ingest s) (world s);
      Some {| world := w; ingest := pc; handlers := handlers s |}
  | Socket conn l =>
      '(pc, w) ← handleWebSocket conn l (handlers s !! conn) (world s);
      Some {| world := w; ingest := ingest s; handlers := <[conn := pc]> (handlers s) |}
  | UpgradeFailed =>
      Some {| world := emit [Logged LogUpgradeError] (world s);
              ingest := ingest s; handlers := handlers s |}
  end.

Fixpoint run (evs : list Event) (s : System) : option System :=
  match evs with
  | [] => Some s
  | ev :: evs' => s' ← step ev s; run evs' s'
  end.

(** The state [main] starts the goroutines in. *)
Definition initial : System :=
  {| world := {| currentQuat := Quaternion_zero; clients := ∅; closed := ∅; journal := [] |};
     ingest := Connecting;
     handlers := ∅ |}.

(** The messages a connection has been sent successfully, oldest first. *)
Definition delivered (conn : Conn) (e : Effect) : option Bytes :=
  match e with
  | Published c data true | Greeted c data true =>
      if decide (c = conn) then Some data else None
  | _ => None
  end.

Definition received (conn : Conn) (w : World) : list Bytes :=
  omap (delivered conn) (journal w).

(** The subset sent by [broadcastQuaternion]. *)
Definition broadcasted (conn : Conn) (e : Effect) : option Bytes :=
  match e with
  | Published c data true => if decide (c = conn) then Some data else None
  | _ => None
  end.

Definition published (conn : Conn) (w : World) : list Bytes :=
  omap (broadcasted conn) (journal w).

(** ** Notions used in the statements *)

(** The role of the field at a position of the line. *)
Definition role (k : nat) : string :=
  match k with
  | 0%nat => "i"
  | 1%nat => "j"
  | 2%nat => "k"
  | _ => "real"
  end.

Definition reasonText (r : strconv.Err) : string :=
  match r with
  | strconv.ErrSyntax => "invalid syntax"
  | strconv.ErrRange => "value out of range"
  end.

(** Bytes that [strconv.Quote] copies unchanged: printable ASCII other
    than the double quote and the backslash. *)
Definition plain_byte (a : ascii) : bool :=
  let c := byte_of a in
  (0x20 <=? c) && (c <=? 0x7E) && negb (c =? 0x22) && negb (c =? 0x5C).

Fixpoint plain (s : string) : bool :=
  match s with
  | EmptyString => true
  | String a s' => plain_byte a && plain s'
  end.

(** The message of the error for the field at position [k]. *)
Definition invalidValue (tbl : Z -> bool) (k : nat) (field : string) (r : strconv.Err) : string :=
  "invalid " ++ role k ++ " value: strconv.ParseFloat: parsing "
  ++ Quote tbl field ++ ": " ++ reasonText r.

(** Whether a binary64 value lies within half a unit in the last place
    of the fraction [num / den]. *)
Definition nearest (f : float64) (num den : Z) : bool :=
  match f with
  | S754_finite false m e =>
      (e <? 0) && (2 * Z.abs (Zpos m * den - num * 2 ^ (- e)) <=? den)
  | _ => false
  end.

(** [contains sub s]: [sub] occurs in [s]. *)
Fixpoint contains (sub s : string) : bool :=
  match strip_prefix sub s with
  | Some _ => true
  | None =>
      match s with
      | EmptyString => false
      | String _ s' => contains sub s'
      end
  end.

(** Decimal notation: an optional sign; digits with an optional point,
    at least one digit in all; an optional exponent, [e] or [E] with an
    optional sign and at least one digit. *)
Definition is_digit (a : ascii) : bool := strconv.isDigit (byte_of a).

Fixpoint skip_digits (s : string) : string :=
  match s with
  | String a s' => if is_digit a then skip_digits s' else s
  | EmptyString => s
  end.

Definition starts_with_digit (s : string) : bool :=
  match s with
  | String a _ => is_digit a
  | EmptyString => false
  end.

Definition skip_sign (s : string) : string :=
  match s with
  | String a t =>
      if (byte_of a =? strconv.ch "+") || (byte_of a =? strconv.ch "-") then t else s
  | EmptyString => s
  end.

Definition skip_fraction (s : string) : string :=
  match s with
  | String a t => if byte_of a =? strconv.ch "." then skip_digits t else s
  | EmptyString => s
  end.

Definition has_mantissa_digit (s : string) : bool :=
  starts_with_digit s ||
  match s with
  | String a t => (byte_of a =? strconv.ch ".") && starts_with_digit t
  | EmptyString => false
  end.

Definition exponent_part (s : string) : bool :=
  match s with
  | EmptyString => true
  | String a t =>
      (strconv.lower (byte_of a) =? strconv.ch "e")
      && starts_with_digit (skip_sign t)
      && match skip_digits (skip_sign t) with EmptyString => true | _ => false end
  end.

Definition decimal_literal (s : string) : bool :=
  has_mantissa_digit (skip_sign s)
  && exponent_part (skip_fraction (skip_digits (skip_sign s))).

(** A valid base-10 floating-point number: decimal notation whose
    nearest binary64 value is finite. *)
Definition valid_number (field : string) : Prop :=
  decimal_literal field = true /\ IsInf (strconv.ParseFloat field).1 = false.

Definition fields (line : string) : list string :=
  strings.Split (strings.TrimSpace line) ",".

(** Neither a NaN nor an infinity. *)
Definition finite (f : float64) : bool := negb (IsInf f || IsNaN f).

(** The document [json.Marshal] makes of a record. *)
Definition document (quat : Quaternion) : JSON :=
  JObject [("i", JNumber (QI quat)); ("j", JNumber (QJ quat));
           ("k", JNumber (QK quat)); ("real", JNumber (QReal quat))].

(** A record with a NaN or an infinity in a field, as the parser makes
    it of the lines "NaN,0,0,1" and "Inf,0,0,1". *)
Definition quat_NaN : Quaternion :=
  {| QI := float64_NaN; QJ := float64_zero; QK := float64_zero; QReal := f64_1 |}.
Definition quat_Inf : Quaternion :=
  {| QI := float64_Inf false; QJ := float64_zero; QK := float64_zero; QReal := f64_1 |}.

(** The record of the line "0.1,0.2,0.3,0.9". *)
Definition quat_sample : Quaternion :=
  {| QI := f64_0_1; QJ := f64_0_2; QK := f64_0_3; QReal := f64_0_9 |}.

(** The message a handler makes of the zero record. *)
Definition zero_snapshot : Bytes := Encoded (document Quaternion_zero).

(** Peers that take every write, and peers that take none. *)
Definition always : Conn -> bool := fun _ => true.
Definition never : Conn -> bool := fun _ => false.

(** The states the process can be in. *)
Definition reachable (s : System) : Prop := exists evs, run evs initial = Some s.

(** A state in which the port is open, the reader scans and one
    subscriber, 1, has been sent the zero record. *)
Definition scanning : System :=
  {| world :=
       {| currentQuat := Quaternion_zero; clients := {[1%positive := true]};
          closed := ∅;
          journal := [PortOpened; Logged LogOpened; Logged LogClientConnected;
                      Greeted 1%positive zero_snapshot true] |};
     ingest := Reading;
     handlers := {[1%positive := Serving]} |}.

(** The state after the reader has scanned and stored the line
    "0.1,0.2,0.3,0.9" there, and is about to broadcast it. *)
Definition about_to_publish : System :=
  {| world :=
       {| currentQuat := quat_sample;
          clients := {[1%positive := true]};
          closed := ∅;
          journal := [PortOpened; Logged LogOpened; Logged LogClientConnected;
                      Greeted 1%positive zero_snapshot true; Stored quat_sample] |};
     ingest := Publishing quat_sample;
     handlers := {[1%positive := Serving]} |}.

(** Case analysis on an enabled step: one goal per transition of the
    two goroutines. *)
Ltac serial_case H s :=
  simpl in H; destruct (ingest s) eqn:?Epc; simpl in H; try discriminate H;
  try match type of H with
      | context [parseQuaternion ?l] =>
          destruct (parseQuaternion l) as [? [?|]] eqn:?Eparse; simpl in H
      end.

Ltac socket_case H s :=
  simpl in H;
  match type of H with
  | context [handlers s !! ?c] => destruct (handlers s !! c) as [[| | |]|] eqn:?Eh
  end;
  simpl in H; try discriminate H.

Ltac step_cases H :=
  match type of H with
  | step ?ev ?s = Some ?s' =>
      unfold step in H;
      destruct ev as [[| | ? | ? | ?] | ? [| | ? | [|]] |];
      [ serial_case H s | serial_case H s | serial_case H s | serial_case H s
      | serial_case H s
      | socket_case H s | socket_case H s | socket_case H s | socket_case H s
      | socket_case H s
      | simpl in H ];
      injection H as H; subst s'; simpl
  end.

Ltac journals :=
  unfold published, received, emit, setCurrentQuat, register, disconnect; simpl;
  rewrite ?omap_app; simpl; rewrite ?app_nil_r.

(** Every registered client belongs to a handler that was started. *)
Definition handled (s : System) : Prop :=
  forall c, c ∈ dom (clients (world s)) -> is_Some (handlers s !! c).

(** A connection whose handler was started and that is not registered
    stays unregistered and is sent no further broadcast. *)
Definition evicted (S : Conn) (trace : list Bytes) (s : System) : Prop :=
  (S ∉ dom (clients (world s))) /\ is_Some (handlers s !! S) /\
  published S (world s) = trace.

(** An event other than the scan of a line that parses. *)
Definition quiet (ev : Event) : Prop :=
  match ev with
  | Serial (Scanned line) => (parseQuaternion line).2 <> None
  | _ => True
  end.

(** The state while no line has parsed yet: the store is the zero
    record, no broadcast is pending, and a connection has been sent
    nothing, or the zero record once its handler has sent its copy. *)
Definition pristine (s : System) : Prop :=
  currentQuat (world s) = Quaternion_zero /\
  (forall quat, ingest s <> Publishing quat) /\
  forall c,
    match handlers s !! c with
    | None | Some Registered => received c (world s) = []
    | Some (Holding quat) => quat = Quaternion_zero /\ received c (world s) = []
    | Some Serving | Some Returned =>
        received c (world s) = [] \/ received c (world s) = [zero_snapshot]
    end.

(** ** Further notions *)

(** The number of occurrences of a byte. *)
Fixpoint count_byte (sep : ascii) (s : string) : nat :=
  match s with
  | EmptyString => O
  | String c s' => if Ascii.eqb c sep then S (count_byte sep s') else count_byte sep s'
  end.

(** [strings.Join(parts, sep)] for a one-byte separator. *)
Fixpoint Join (parts : list string) (sep : ascii) : string :=
  match parts with
  | [] => EmptyString
  | [p] => p
  | p :: ps => p ++ String sep (Join ps sep)
  end.

(** The white space of ASCII: tab, line feed, vertical tab, form feed,
    carriage return and space. *)
Definition ascii_space (c : ascii) : bool :=
  let b := byte_of c in ((9 <=? b) && (b <=? 13)) || (b =? 32).

Fixpoint blank (s : string) : bool :=
  match s with
  | EmptyString => true
  | String c s' => ascii_space c && blank s'
  end.

(** Every pattern of [ps] is non-empty and holds [c] at most as its
    first byte. *)
Definition apart (c : ascii) (ps : list string) : bool :=
  forallb (fun p => match p with
                    | EmptyString => false
                    | String _ t => (count_byte c t =? 0)%nat
                    end) ps.

(** The bytes a number is written with: digits, letters, the signs, the
    point and the underscore. *)
Definition number_byte (c : ascii) : bool :=
  let b := byte_of c in
  ((48 <=? b) && (b <=? 57)) || ((65 <=? b) && (b <=? 90)) || ((97 <=? b) && (b <=? 122))
  || (b =? 43) || (b =? 45) || (b =? 46) || (b =? 95).

Fixpoint number_bytes (s : string) : bool :=
  match s with
  | EmptyString => true
  | String c s' => number_byte c && number_bytes s'
  end.

(** [reads s u]: [u] is what is left of [s] after a prefix of number
    bytes. *)
Definition reads (s u : string) : Prop :=
  exists pre, s = pre ++ u /\ number_bytes pre = true.

(** The bytes of a line that parses: number bytes and commas. *)
Definition record_byte (c : ascii) : bool := number_byte c || Ascii.eqb c ",".

Fixpoint record_bytes (s : string) : bool :=
  match s with
  | EmptyString => true
  | String c s' => record_byte c && record_bytes s'
  end.

Ltac by_bytes a :=
  destruct a as [[] [] [] [] [] [] [] []]; vm_compute;
  try reflexivity; intros; try discriminate; auto.

(** The delivery attempts of [broadcastQuaternion] on a connection,
    failed ones included. *)
Definition attempted (conn : Conn) (e : Effect) : bool :=
  match e with
  | Published c _ _ => bool_decide (c = conn)
  | _ => false
  end.

Definition attempts (conn : Conn) (w : World) : nat :=
  length (List.filter (attempted conn) (journal w)).

(** The effects [broadcastQuaternion] can have: log lines, writes to
    clients and the closing of a client. *)
Definition hub_effect (e : Effect) : bool :=
  match e with
  | Logged _ | Published _ _ _ | ConnClosed _ => true
  | _ => false
  end.

(** A world with the clients 1 and 2 registered, and a network on which
    only connection 1 takes a write. *)
Definition two_clients : World :=
  {| currentQuat := quat_sample;
     clients := {[1%positive := true; 2%positive := true]};
     closed := ∅;
     journal := [] |}.

Definition only_first (c : Conn) : bool := bool_decide (c = 1%positive).

(** The records written to the store, oldest first, and the store they
    leave. *)
Definition stored_of (e : Effect) : option Quaternion :=
  match e with Stored quat => Some quat | _ => None end.

Definition stored (w : World) : list Quaternion := omap stored_of (journal w).

Definition last_stored (w : World) : Quaternion :=
  default Quaternion_zero (last (stored w)).

(** The messages of the stored records, in the order of the stores. *)
Definition documents (w : World) : list Bytes :=
  (fun quat => Encoded (document quat)) <$> stored w.

(** The snapshot writes of a handler on its connection, failed ones
    included. *)
Definition greeted (conn : Conn) (e : Effect) : bool :=
  match e with
  | Greeted c _ _ => bool_decide (c = conn)
  | _ => false
  end.

Definition greetings (conn : Conn) (w : World) : nat :=
  length (List.filter (greeted conn) (journal w)).

(** How often the port was opened and closed. *)
Definition port_opened (e : Effect) : bool :=
  match e with PortOpened => true | _ => false end.
Definition port_closed (e : Effect) : bool :=
  match e with PortClosed => true | _ => false end.

Definition opens (w : World) : nat := length (List.filter port_opened (journal w)).
Definition closes (w : World) : nat := length (List.filter port_closed (journal w)).



(** The store is the last record written to it, and a pending broadcast
    is for that record. *)
Definition coherent (s : System) : Prop :=
  currentQuat (world s) = last_stored (world s) /\
  forall quat, ingest s = Publishing quat ->
    exists st, stored (world s) = (st ++ [quat])%list.

(** Broadcasts follow the stores: what a connection was sent by
    broadcasts is a subsequence of the stored records, the pending one
    left out. *)
Definition ordered (s : System) : Prop :=
  forall c,
    match ingest s with
    | Publishing quat =>
        exists st, stored (world s) = (st ++ [quat])%list /\
                   published c (world s)
                   `sublist_of` ((fun q => Encoded (document q)) <$> st)
    | _ => published c (world s) `sublist_of` documents (world s)
    end.

(** A handler writes its snapshot once, on its way to the read loop. *)
Definition greeted_once (s : System) : Prop :=
  forall c,
    greetings c (world s)
    = match handlers s !! c with
      | Some Serving | Some Returned => 1%nat
      | _ => 0%nat
      end.

(** The port is open exactly while the reader is past [serial.Open]. *)
Definition port_held (s : System) : Prop :=
  opens (world s)
  = (closes (world s) + match ingest s with Connecting => 0 | _ => 1 end)%nat.

(** A connection whose handler has returned: unregistered, closed, and
    with a fixed record of what was written to it. *)
Definition gone (c : Conn) (trace : list Bytes) (n : nat) (s : System) : Prop :=
  handlers s !! c = Some Returned /\
  (c ∉ dom (clients (world s))) /\
  c ∈ closed (world s) /\
  received c (world s) = trace /\
  attempts c (world s) = n.

(** ** The page: the zoom of the viewer *)

(** The script of the page served by [serveHome] keeps the zoom in
    three variables: [baseCameraDistance], [zoomFactor] and the z
    coordinate of the camera position. JavaScript numbers are binary64
    values. *)
Module page.

Definition mul (x y : float64) : float64 := SFmul prec64 emax64 x y.
Definition add (x y : float64) : float64 := SFadd prec64 emax64 x y.

(** The value of a decimal literal [m * 10^e]. *)
Definition number (m : positive) (e : Z) : float64 := round_decimal false m e.

(** [Math.min] and [Math.max] of two numbers: NaN when either is NaN,
    and [-0] counts as smaller than [+0]. *)
Definition Math_min (x y : float64) : float64 :=
  if IsNaN x || IsNaN y then float64_NaN
  else match x, y with
       | S754_zero sx, S754_zero sy => S754_zero (sx || sy)
       | _, _ => if SFltb y x then y else x
       end.

Definition Math_max (x y : float64) : float64 :=
  if IsNaN x || IsNaN y then float64_NaN
  else match x, y with
       | S754_zero sx, S754_zero sy => S754_zero (sx && sy)
       | _, _ => if SFltb x y then y else x
       end.

Record View := {
  baseCameraDistance : float64;
  zoomFactor : float64;
  cameraZ : float64 }.

(** The variables as declared, and [camera.position.z = 5] of [init]. *)
Definition init : View :=
  {| baseCameraDistance := number 5 0; zoomFactor := number 1 0; cameraZ := number 5 0 |}.

(** [onMouseWheel(event)], by [event.deltaY]. *)
Definition onMouseWheel (deltaY : float64) (v : View) : View :=
  let zoomSpeed := number 5 (-2) in
  let delta := if SFltb float64_zero deltaY then number 1 0 else SFopp (number 1 0) in
  let zoomFactor := mul (zoomFactor v) (add (number 1 0) (mul delta zoomSpeed)) in
  let zoomFactor := Math_max (number 1 (-1)) (Math_min zoomFactor (number 10 0)) in
  {| baseCameraDistance := baseCameraDistance v;
     zoomFactor := zoomFactor;
     cameraZ := mul (baseCameraDistance v) zoomFactor |}.

(** [resetZoom()] and, for these variables, [resetCamera()]. *)
Definition resetZoom (v : View) : View :=
  {| baseCameraDistance := baseCameraDistance v;
     zoomFactor := number 1 0;
     cameraZ := baseCameraDistance v |}.

Definition resetCamera (v : View) : View :=
  {| baseCameraDistance := baseCameraDistance v;
     zoomFactor := number 1 0;
     cameraZ := baseCameraDistance v |}.

(** What [loadOBJOnly] and [loadWithMaterial] do to them once a model
    is loaded. *)
Definition modelLoaded (v : View) : View :=
  let base := mul (number 4 0) (number 13 (-1)) in
  {| baseCameraDistance := base; zoomFactor := number 1 0; cameraZ := base |}.

Inductive Gesture :=
| Wheel (deltaY : float64)
| ResetZoom
| ResetCamera
| ModelLoaded.

Definition handle (v : View) (g : Gesture) : View :=
  match g with
  | Wheel deltaY => onMouseWheel deltaY v
  | ResetZoom => resetZoom v
  | ResetCamera => resetCamera v
  | ModelLoaded => modelLoaded v
  end.

(** The zoom factor is a number between the two limits. *)
Definition within (lo hi x : float64) : Prop :=
  IsNaN x = false /\ SFltb x lo = false /\ SFltb hi x = false.

End page.

(** A record that [json.Marshal] serializes: no field is a NaN or an
    infinity. *)
Definition serializable (quat : Quaternion) : bool :=
  finite (QI quat) && finite (QJ quat) && finite (QK quat) && finite (QReal quat).

(** The messages of the records among [quats] that serialize. *)
Definition wire (quats : list Quaternion) : list Bytes :=
  (fun quat => Encoded (document quat)) <$> List.filter serializable quats.

(** An event that leaves the subscriber [c] in good health: its read
    loop does not end, and a broadcast finds its peer taking the write. *)
Definition healthy (c : Conn) (ev : Event) : Prop :=
  match ev with
  | Socket conn (ReadMessage false) => conn <> c
  | Serial (Broadcast net) => net c = true
  | _ => True
  end.

(** The subscriber [c] is registered, its connection is open, and the
    broadcasts have sent it [sent] and then every serializable record
    stored after [before], the pending one left out. *)
Definition fed (c : Conn) (sent : list Bytes) (before : list Quaternion) (s : System) : Prop :=
  c ∈ dom (clients (world s)) /\ (c ∉ closed (world s)) /\
  exists st,
    stored (world s)
    = (before ++ st ++ match ingest s with Publishing quat => [quat] | _ => [] end)%list /\
    published c (world s) = (sent ++ wire st)%list.

(** * Properties *)

(** ** The library models at work *)

Example TrimSpace_ex :
  strings.TrimSpace (bytes_of_list [0x20; 0x09; 0x31; 0x2C; 0x20; 0x32; 0xC2; 0xA0; 0x0D])
  = bytes_of_list [0x31; 0x2C; 0x20; 0x32].
Proof. vm_compute. reflexivity. Qed.

Example Split_ex : strings.Split "a,,b," ","%char = ["a"; EmptyString; "b"; EmptyString].
Proof. reflexivity. Qed.

Example round_decimal_tenth : round_decimal false 1 (-1) = f64_0_1.
Proof. vm_compute. reflexivity. Qed.
Example round_decimal_one : round_decimal false 10 (-1) = f64_1.
Proof. vm_compute. reflexivity. Qed.
Example round_decimal_max : round_decimal false 17976931348623157 292
  = S754_finite false 9007199254740991 971.
Proof. vm_compute. reflexivity. Qed.
Example round_decimal_overflow : round_decimal false 18 307 = S754_infinity false.
Proof. vm_compute. reflexivity. Qed.
Example round_decimal_min_subnormal : round_decimal false 5 (-324) = S754_finite false 1 (-1074).
Proof. vm_compute. reflexivity. Qed.
Example round_decimal_underflow : round_decimal true 2 (-324) = S754_zero true.
Proof. vm_compute. reflexivity. Qed.

Section ParseFloat_examples.
Import strconv.

Example ParseFloat_0_1 : ParseFloat "0.1" = (f64_0_1, None).
Proof. vm_compute. reflexivity. Qed.
Example ParseFloat_0_2 : ParseFloat "0.2" = (f64_0_2, None).
Proof. vm_compute. reflexivity. Qed.
Example ParseFloat_0_3 : ParseFloat "0.3" = (f64_0_3, None).
Proof. vm_compute. reflexivity. Qed.
Example ParseFloat_0_9 : ParseFloat "0.9" = (f64_0_9, None).
Proof. vm_compute. reflexivity. Qed.
Example ParseFloat_1 : ParseFloat "1" = (f64_1, None).
Proof. vm_compute. reflexivity. Qed.
Example ParseFloat_1_0 : ParseFloat "1.0" = (f64_1, None).
Proof. vm_compute. reflexivity. Qed.
Example ParseFloat_exp : ParseFloat "+100e-2" = (f64_1, None).
Proof. vm_compute. reflexivity. Qed.
Example ParseFloat_0 : ParseFloat "0" = (float64_zero, None).
Proof. vm_compute. reflexivity. Qed.
Example ParseFloat_neg0 : ParseFloat "-0.0" = (S754_zero true, None).
Proof. vm_compute. reflexivity. Qed.
Example ParseFloat_neg : ParseFloat "-0.5" = (S754_finite true 4503599627370496 (-53), None).
Proof. vm_compute. reflexivity. Qed.
Example ParseFloat_hex : ParseFloat "0x1p-2" = (S754_finite false 4503599627370496 (-54), None).
Proof. vm_compute. reflexivity. Qed.
Example ParseFloat_underscore : ParseFloat "1_0e-1" = (f64_1, None).
Proof. vm_compute. reflexivity. Qed.
Example ParseFloat_NaN : ParseFloat "NaN" = (float64_NaN, None).
Proof. vm_compute. reflexivity. Qed.
Example ParseFloat_Inf : ParseFloat "Inf" = (float64_Inf false, None).
Proof. vm_compute. reflexivity. Qed.
Example ParseFloat_neg_infinity : ParseFloat "-iNfInItY" = (float64_Inf true, None).
Proof. vm_compute. reflexivity. Qed.
Example ParseFloat_abc : ParseFloat "abc" = (float64_zero, Some (syntaxError "ParseFloat" "abc")).
Proof. vm_compute. reflexivity. Qed.
Example ParseFloat_empty : ParseFloat EmptyString = (float64_zero, Some (syntaxError "ParseFloat" EmptyString)).
Proof. vm_compute. reflexivity. Qed.
Example ParseFloat_space : ParseFloat " 1" = (float64_zero, Some (syntaxError "ParseFloat" " 1")).
Proof. vm_compute. reflexivity. Qed.
Example ParseFloat_trailing : ParseFloat "1.5x" = (float64_zero, Some (syntaxError "ParseFloat" "1.5x")).
Proof. vm_compute. reflexivity. Qed.
Example ParseFloat_infinit : ParseFloat "Infinit" = (float64_zero, Some (syntaxError "ParseFloat" "Infinit")).
Proof. vm_compute. reflexivity. Qed.
Example ParseFloat_plus_nan : ParseFloat "+nan" = (float64_zero, Some (syntaxError "ParseFloat" "+nan")).
Proof. vm_compute. reflexivity. Qed.
Example ParseFloat_bad_underscore : ParseFloat "1__0" = (float64_zero, Some (syntaxError "ParseFloat" "1__0")).
Proof. vm_compute. reflexivity. Qed.
Example ParseFloat_range : ParseFloat "1e400" = (float64_Inf false, Some (rangeError "ParseFloat" "1e400")).
Proof. vm_compute. reflexivity. Qed.
Example ParseFloat_tiny : ParseFloat "1e-400" = (float64_zero, None).
Proof. vm_compute. reflexivity. Qed.
Example ParseFloat_huge_exponent :
  ParseFloat "1e99999999999" = (float64_Inf false, Some (rangeError "ParseFloat" "1e99999999999")).
Proof. vm_compute. reflexivity. Qed.
Example ParseFloat_max :
  ParseFloat "1.7976931348623157e308" = (S754_finite false 9007199254740991 971, None).
Proof. vm_compute. reflexivity. Qed.
Example ParseFloat_above_max :
  ParseFloat "1.7976931348623159e308"
  = (float64_Inf false, Some (rangeError "ParseFloat" "1.7976931348623159e308")).
Proof. vm_compute. reflexivity. Qed.
Example ParseFloat_largest_subnormal :
  ParseFloat "2.2250738585072011e-308" = (S754_finite false 4503599627370495 (-1074), None).
Proof. vm_compute. reflexivity. Qed.
Example ParseFloat_half_smallest_up :
  ParseFloat "2.4703282292062328e-324" = (S754_finite false 1 (-1074), None).
Proof. vm_compute. reflexivity. Qed.
Example ParseFloat_half_smallest_down :
  ParseFloat "2.4703282292062327e-324" = (float64_zero, None).
Proof. vm_compute. reflexivity. Qed.
Example ParseFloat_tie_to_even :
  ParseFloat "9007199254740993" = (S754_finite false 4503599627370496 1, None).
Proof. vm_compute. reflexivity. Qed.
Example ParseFloat_above_tie :
  ParseFloat "9007199254740993.0000000000000001" = (S754_finite false 4503599627370497 1, None).
Proof. vm_compute. reflexivity. Qed.
Example ParseFloat_hex_needs_exponent :
  ParseFloat "0x1" = (float64_zero, Some (syntaxError "ParseFloat" "0x1")).
Proof. vm_compute. reflexivity. Qed.
Example ParseFloat_hex_overflow :
  ParseFloat "0x1.fffffffffffff8p1023"
  = (float64_Inf false, Some (rangeError "ParseFloat" "0x1.fffffffffffff8p1023")).
Proof. vm_compute. reflexivity. Qed.
Example ParseFloat_dangling_exponent :
  ParseFloat "1e+" = (float64_zero, Some (syntaxError "ParseFloat" "1e+")).
Proof. vm_compute. reflexivity. Qed.
End ParseFloat_examples.

Example Quote_abc : forall tbl,
  Quote tbl "abc" = String quote_byte ("abc" ++ String quote_byte EmptyString).
Proof. intros. vm_compute. reflexivity. Qed.

Example Quote_escapes : forall tbl,
  Quote tbl (bytes_of_list [0x61; 0x22; 0x09; 0x01; 0xFF; 0xC3; 0xA9; 0x5C])
  = bytes_of_list [0x22; 0x61; 0x5C; 0x22; 0x5C; 0x74; 0x5C; 0x78; 0x30; 0x31;
                   0x5C; 0x78; 0x66; 0x66; 0xC3; 0xA9; 0x5C; 0x5C; 0x22].
Proof. intros. vm_compute. reflexivity. Qed.

Example Error_count : forall tbl,
  Error tbl (Errorf "expected 4 values, got %d" (ArgInt 12)) = "expected 4 values, got 12".
Proof. intros. vm_compute. reflexivity. Qed.

Example parse_sample :
  parseQuaternion "0.1,0.2,0.3,0.9"
  = ({| QI := f64_0_1; QJ := f64_0_2; QK := f64_0_3; QReal := f64_0_9 |}, None).
Proof. vm_compute. reflexivity. Qed.

Example parse_identity_line :
  parseQuaternion "0.0,0.0,0.0,1.0" = (Quaternion_identity, None).
Proof. vm_compute. reflexivity. Qed.

Example parse_three_fields : forall tbl,
  (parseQuaternion "0,0,0").1 = Quaternion_zero /\
  Error tbl <$> (parseQuaternion "0,0,0").2 = Some "expected 4 values, got 3".
Proof. intros. vm_compute. auto. Qed.

Example parse_abc : forall tbl,
  Error tbl <$> (parseQuaternion "abc,0,0,1").2
  = Some ("invalid i value: strconv.ParseFloat: parsing "
          ++ String quote_byte ("abc" ++ String quote_byte ": invalid syntax")).
Proof. intros. vm_compute. reflexivity. Qed.

Example parse_out_of_range : forall tbl,
  Error tbl <$> (parseQuaternion "1e400,0,0,1").2
  = Some ("invalid i value: strconv.ParseFloat: parsing "
          ++ String quote_byte ("1e400" ++ String quote_byte ": value out of range")).
Proof. intros. vm_compute. reflexivity. Qed.

Example parse_inner_space : (parseQuaternion "0, 0,0,1").2 <> None.
Proof. vm_compute. discriminate. Qed.

Example parse_notations :
  parseQuaternion "-1.5e-3,+2,3E2,.5"
  = ({| QI := S754_finite true 6917529027641082 (-62);
        QJ := S754_finite false 4503599627370496 (-51);
        QK := S754_finite false 5277655813324800 (-44);
        QReal := S754_finite false 4503599627370496 (-53) |}, None).
Proof. vm_compute. reflexivity. Qed.

Example parse_hexadecimal_field :
  parseQuaternion "0x1p-2,1_0,0,1"
  = ({| QI := S754_finite false 4503599627370496 (-54);
        QJ := S754_finite false 5629499534213120 (-49);
        QK := float64_zero; QReal := f64_1 |}, None).
Proof. vm_compute. reflexivity. Qed.

Example parse_NaN :
  parseQuaternion "NaN,0,0,1"
  = ({| QI := float64_NaN; QJ := float64_zero; QK := float64_zero; QReal := f64_1 |}, None).
Proof. vm_compute. reflexivity. Qed.

(** ** The parser *)

Lemma append_empty_r (s : string) : s ++ EmptyString = s.
Proof. induction s as [|c s IH]; simpl; [reflexivity | by rewrite IH]. Qed.

Lemma append_assoc (s t u : string) : (s ++ t) ++ u = s ++ (t ++ u).
Proof. induction s as [|c s IH]; simpl; [reflexivity | by rewrite IH]. Qed.

(** [strings.Split] never returns an empty slice. *)
Lemma Split_nonempty (s : string) (sep : ascii) : strings.Split s sep <> [].
Proof.
  destruct s as [|c s]; simpl; [discriminate |].
  destruct (Ascii.eqb c sep); [discriminate |].
  destruct (strings.Split s sep); discriminate.
Qed.

(** *** Decimal notation and the float parser *)

Example decimal_literal_accepts :
  forallb decimal_literal
    ["0"; "1.5"; "-0.25"; "+3."; ".5"; "1e5"; "1.5E-3"; "-.5e+10"; "007"] = true.
Proof. reflexivity. Qed.

Example decimal_literal_rejects :
  existsb decimal_literal
    [EmptyString; "+"; "."; "-."; "e5"; "1e"; "1e+"; "1.5.2"; "1_0"; "0x1p2";
     "NaN"; "Inf"; "1 "; " 1"; "1e5x"; "abc"] = false.
Proof. reflexivity. Qed.

Lemma digit_not_special (c : Z) :
  strconv.isDigit c = true ->
  (c =? strconv.ch "_") = false /\ (c =? strconv.ch ".") = false /\
  (c =? strconv.ch "+") = false /\ (c =? strconv.ch "-") = false /\
  0 <= c - strconv.ch "0" <= 9.
Proof.
  unfold strconv.isDigit, strconv.ch. intros H.
  apply andb_true_iff in H as [H1 H2]. apply Z.leb_le in H1. apply Z.leb_le in H2.
  change (byte_of "0") with 48 in *. change (byte_of "9") with 57 in *.
  change (byte_of "_") with 95. change (byte_of ".") with 46.
  change (byte_of "+") with 43. change (byte_of "-") with 45.
  repeat split; try (apply Z.eqb_neq); lia.
Qed.

(** The digit loop over a run of digits. *)
Lemma readDigits_digits (s : string) : forall sawdot sawdigits nd dp m,
  exists nd' dp' m',
    strconv.readDigits 10 sawdot sawdigits nd dp m false s
    = strconv.readDigits 10 sawdot (sawdigits || starts_with_digit s) nd' dp' m' false
        (skip_digits s).
Proof.
  induction s as [|a s IH]; intros sawdot sawdigits nd dp m.
  - exists nd, dp, m. simpl. by rewrite orb_false_r.
  - simpl skip_digits. simpl starts_with_digit. unfold is_digit.
    destruct (strconv.isDigit (byte_of a)) eqn:Ed.
    + destruct (digit_not_special _ Ed) as (H1 & H2 & _).
      cbn [strconv.readDigits]. rewrite H1, H2, Ed.
      destruct ((byte_of a =? strconv.ch "0") && (nd =? 0)).
      * destruct (IH sawdot true nd (dp - 1) m) as (nd' & dp' & m' & E).
        exists nd', dp', m'. rewrite E. simpl. by rewrite orb_true_r.
      * destruct (IH sawdot true (nd + 1) dp (m * 10 + (byte_of a - strconv.ch "0")))
          as (nd' & dp' & m' & E).
        exists nd', dp', m'. rewrite E. simpl. by rewrite orb_true_r.
    + exists nd, dp, m. by rewrite orb_false_r.
Qed.

Lemma exponent_char (a : ascii) :
  (strconv.lower (byte_of a) =? strconv.ch "e") = true ->
  is_digit a = false /\ (byte_of a =? strconv.ch "_") = false /\
  (byte_of a =? strconv.ch ".") = false.
Proof.
  destruct a as [[] [] [] [] [] [] [] []]; vm_compute; intros H;
    try discriminate H; repeat split.
Qed.

(** The digit loop stops where the exponent or the end begins. *)
Lemma readDigits_stop (s : string) (sawdot sawdigits : bool) (nd dp m : Z) :
  exponent_part s = true ->
  strconv.readDigits 10 sawdot sawdigits nd dp m false s
  = {| strconv.sawdot := sawdot; strconv.sawdigits := sawdigits; strconv.nd := nd;
       strconv.dp := dp; strconv.mantissa := m; strconv.underscores := false;
       strconv.rest := s |}.
Proof.
  destruct s as [|a t]; [reflexivity |]. unfold exponent_part. intros H.
  apply andb_true_iff in H as [H _]. apply andb_true_iff in H as [H _].
  destruct (exponent_char a H) as (Hd & Hu & Hp). unfold is_digit in Hd.
  cbn [strconv.readDigits]. by rewrite Hu, Hp, Hd.
Qed.

(** The digits of an exponent. *)
Lemma readExponent_digits (s : string) : forall e,
  skip_digits s = EmptyString ->
  exists e', strconv.readExponent e false s = (e', false, EmptyString).
Proof.
  induction s as [|a s IH]; intros e H.
  - by exists e.
  - simpl in H. unfold is_digit in H. cbn [strconv.readExponent].
    destruct (strconv.isDigit (byte_of a)); [| discriminate]. by apply IH.
Qed.

(** The digits, the point and the digits after it. *)
Lemma readDigits_mantissa (s : string) :
  has_mantissa_digit s = true ->
  exponent_part (skip_fraction (skip_digits s)) = true ->
  exists sawdot nd dp m,
    strconv.readDigits 10 false false 0 0 0 false s
    = {| strconv.sawdot := sawdot; strconv.sawdigits := true; strconv.nd := nd;
         strconv.dp := dp; strconv.mantissa := m; strconv.underscores := false;
         strconv.rest := skip_fraction (skip_digits s) |}.
Proof.
  intros Hm He.
  destruct (readDigits_digits s false false 0 0 0) as (nd1 & dp1 & m1 & E1).
  rewrite E1. clear E1. simpl orb.
  destruct (skip_digits s) as [|a t] eqn:Es.
  - simpl in He |- *. exists false, nd1, dp1, m1. f_equal.
    unfold has_mantissa_digit in Hm. destruct s as [|b s']; [discriminate |].
    simpl in Hm |- *. simpl in Es. destruct (is_digit b); [reflexivity | discriminate].
  - unfold skip_fraction in He |- *.
    destruct (byte_of a =? strconv.ch ".") eqn:Edot.
    + assert (Hnd : strconv.isDigit (byte_of a) = false).
      { apply Z.eqb_eq in Edot. rewrite Edot. reflexivity. }
      assert (Hu : (byte_of a =? strconv.ch "_") = false).
      { apply Z.eqb_eq in Edot. rewrite Edot. reflexivity. }
      cbn [strconv.readDigits]. rewrite Hu, Edot.
      destruct (readDigits_digits t true (starts_with_digit s) nd1 nd1 m1)
        as (nd2 & dp2 & m2 & E2).
      rewrite E2, (readDigits_stop _ _ _ _ _ _ He).
      exists true, nd2, dp2, m2. f_equal.
      unfold has_mantissa_digit in Hm. apply orb_true_iff in Hm as [Hm | Hm].
      * by rewrite Hm.
      * destruct s as [|b s']; [discriminate |].
        apply andb_true_iff in Hm as [Hb Hs']. simpl in Es.
        assert (Hbd : is_digit b = false).
        { unfold is_digit. apply Z.eqb_eq in Hb. rewrite Hb. reflexivity. }
        rewrite Hbd in Es. injection Es as <- <-. simpl. rewrite Hbd, Hs'. reflexivity.
    + rewrite (readDigits_stop _ _ _ _ _ _ He).
      exists false, nd1, dp1, m1. f_equal.
      unfold has_mantissa_digit in Hm. apply orb_true_iff in Hm as [Hm | Hm]; [exact Hm |].
      destruct s as [|b s']; [discriminate |].
      apply andb_true_iff in Hm as [Hb Hs']. simpl in Es.
      assert (Hbd : is_digit b = false).
      { unfold is_digit. apply Z.eqb_eq in Hb. rewrite Hb. reflexivity. }
      rewrite Hbd in Es. injection Es as <- <-. rewrite Hb in Edot. discriminate.
Qed.

Lemma sign_char (a : ascii) :
  (byte_of a =? strconv.ch "+") || (byte_of a =? strconv.ch "-") = true ->
  is_digit a = false /\ (byte_of a =? strconv.ch ".") = false.
Proof.
  destruct a as [[] [] [] [] [] [] [] []]; vm_compute; intros H;
    try discriminate H; repeat split.
Qed.

Lemma readSign_rest (s : string) : (strconv.readSign s).2 = skip_sign s.
Proof.
  destruct s as [|a t]; [reflexivity |]. unfold strconv.readSign, skip_sign.
  by destruct (byte_of a =? strconv.ch "+"), (byte_of a =? strconv.ch "-").
Qed.

(** Decimal notation does not start with the prefix of a hexadecimal
    number. *)
Lemma readBase_decimal (s : string) :
  exponent_part (skip_fraction (skip_digits s)) = true ->
  strconv.readBase s = (false, s).
Proof.
  intros He. destruct s as [|z [|x [|d t]]]; try reflexivity.
  unfold strconv.readBase.
  destruct (byte_of z =? strconv.ch "0") eqn:Ez; [| reflexivity].
  destruct (strconv.lower (byte_of x) =? strconv.ch "x") eqn:Ex; [| reflexivity].
  exfalso. simpl in He.
  assert (Hz : is_digit z = true).
  { unfold is_digit. apply Z.eqb_eq in Ez. rewrite Ez. reflexivity. }
  rewrite Hz in He.
  assert (Hx : is_digit x = false /\ (byte_of x =? strconv.ch ".") = false /\
               (strconv.lower (byte_of x) =? strconv.ch "e") = false).
  { clear -Ex. destruct x as [[] [] [] [] [] [] [] []]; vm_compute in Ex |- *;
      try discriminate Ex; repeat split. }
  destruct Hx as (Hx1 & Hx2 & Hx3). rewrite Hx1 in He. simpl in He.
  rewrite Hx2 in He. simpl in He. rewrite Hx3 in He. discriminate.
Qed.

(** The exponent of decimal notation is read to the end. *)
Lemma readExp_decimal (s : string) :
  exponent_part s = true ->
  (s = EmptyString /\ strconv.readExp (strconv.ch "e") false s = strconv.NoExponent) \/
  exists e, strconv.readExp (strconv.ch "e") false s = strconv.Exponent_ e false EmptyString.
Proof.
  destruct s as [|a t]; [by left |]. intros H. right.
  unfold exponent_part in H.
  apply andb_true_iff in H as [H Hend]. apply andb_true_iff in H as [Hexp Hdig].
  unfold strconv.readExp. rewrite Hexp.
  destruct t as [|sg t2]; [discriminate |].
  unfold skip_sign in Hdig, Hend.
  destruct (byte_of sg =? strconv.ch "+") eqn:Eplus; cbn [orb] in Hdig, Hend.
  - destruct t2 as [|d t3]; [discriminate |]. simpl in Hdig. unfold is_digit in Hdig.
    rewrite Hdig.
    destruct (skip_digits (String d t3)) eqn:Es; [| discriminate].
    destruct (readExponent_digits _ 0 Es) as [e' ->]. by eexists.
  - destruct (byte_of sg =? strconv.ch "-") eqn:Eminus; cbn [orb] in Hdig, Hend.
    + destruct t2 as [|d t3]; [discriminate |]. simpl in Hdig. unfold is_digit in Hdig.
      rewrite Hdig.
      destruct (skip_digits (String d t3)) eqn:Es; [| discriminate].
      destruct (readExponent_digits _ 0 Es) as [e' ->]. by eexists.
    + simpl in Hdig. unfold is_digit in Hdig. rewrite Hdig.
      destruct (skip_digits (String sg t2)) eqn:Es; [| discriminate].
      destruct (readExponent_digits _ 0 Es) as [e' ->]. by eexists.
Qed.

Lemma readFloat_decimal (s : string) :
  decimal_literal s = true ->
  exists r, strconv.readFloat s = Some r /\
            strconv.unread r = EmptyString /\ strconv.hex r = false.
Proof.
  unfold decimal_literal. intros H. apply andb_true_iff in H as [Hm He].
  destruct s as [|a0 t0]; [discriminate |].
  unfold strconv.readFloat.
  pose proof (readSign_rest (String a0 t0)) as Hs.
  destruct (strconv.readSign (String a0 t0)) as [neg t]. cbn [snd] in Hs. subst t.
  cbv beta iota. rewrite (readBase_decimal _ He). cbv beta iota.
  destruct (readDigits_mantissa _ Hm He) as (sawdot & nd & dp & m & ->).
  cbn [strconv.sawdigits strconv.sawdot strconv.nd strconv.dp strconv.mantissa
       strconv.underscores strconv.rest negb].
  destruct (readExp_decimal _ He) as [[-> ->] | [e ->]]; simpl; eexists; eauto.
Qed.

Lemma mantissa_start (a : ascii) (t : string) :
  has_mantissa_digit (String a t) = true ->
  is_digit a || (byte_of a =? strconv.ch ".") = true.
Proof.
  unfold has_mantissa_digit. simpl.
  destruct (is_digit a); [reflexivity |]. simpl.
  destruct (byte_of a =? strconv.ch "."); [reflexivity | discriminate].
Qed.

(** Neither a digit nor a point begins one of the special tokens. *)
Lemma special_start (a : ascii) (t : string) :
  is_digit a || (byte_of a =? strconv.ch ".") = true ->
  strconv.special (String a t) = None /\
  strconv.commonPrefixLenIgnoreCase (String a t) "infinity" = O.
Proof.
  destruct a as [[] [] [] [] [] [] [] []]; vm_compute; intros H;
    try discriminate H; split; reflexivity.
Qed.

Lemma special_decimal (s : string) :
  has_mantissa_digit (skip_sign s) = true -> strconv.special s = None.
Proof.
  destruct s as [|a t]; [reflexivity |]. unfold skip_sign.
  destruct ((byte_of a =? strconv.ch "+") || (byte_of a =? strconv.ch "-")) eqn:Es.
  - intros Hm. destruct t as [|b t']; [discriminate |].
    destruct (special_start b t' (mantissa_start _ _ Hm)) as [_ Hn].
    unfold strconv.special.
    destruct (byte_of a =? strconv.ch "+"); [by rewrite Hn |].
    simpl in Es. rewrite Es. by rewrite Hn.
  - intros Hm. by destruct (special_start a t (mantissa_start _ _ Hm)).
Qed.

(** Decimal notation is never a syntax error: [ParseFloat] returns the
    nearest value, with the range error exactly when that is an
    infinity. *)
Lemma ParseFloat_decimal (s : string) :
  decimal_literal s = true ->
  exists r,
    strconv.readFloat s = Some r /\
    strconv.ParseFloat s
    = ((strconv.floatOf r).1,
       if (strconv.floatOf r).2
       then Some (strconv.rangeError strconv.fnParseFloat s) else None).
Proof.
  intros H. destruct (readFloat_decimal s H) as (r & Hr & Hu & _).
  exists r. split; [exact Hr |].
  unfold decimal_literal in H. apply andb_true_iff in H as [Hm _].
  unfold strconv.ParseFloat, strconv.atof64.
  rewrite (special_decimal s Hm), Hr, Hu.
  destruct (strconv.floatOf r) as [f ovf]. simpl.
  rewrite Nat.sub_0_r, Nat.eqb_refl. simpl. by destruct ovf.
Qed.

Lemma floatOf_overflow (r : strconv.Read) :
  (strconv.floatOf r).2 = IsInf (strconv.floatOf r).1.
Proof.
  unfold strconv.floatOf. destruct (strconv.mant r); try reflexivity.
  destruct (strconv.hex r); [reflexivity |].
  destruct (strconv.exp r + strconv.digits r >? 310); [reflexivity |].
  by destruct (strconv.exp r + strconv.digits r <? -330).
Qed.

(** A number in decimal notation whose nearest value is finite is
    accepted. *)
Lemma ParseFloat_decimal_in_range (s : string) :
  decimal_literal s = true ->
  IsInf (strconv.ParseFloat s).1 = false ->
  (strconv.ParseFloat s).2 = None.
Proof.
  intros H. destruct (ParseFloat_decimal s H) as (r & _ & ->). simpl.
  rewrite floatOf_overflow. by intros ->.
Qed.

(** One that is not, such as 1e400, is refused as out of range. *)
Example ParseFloat_decimal_out_of_range :
  decimal_literal "1e400" = true /\
  strconv.ParseFloat "1e400"
  = (float64_Inf false, Some (strconv.rangeError "ParseFloat" "1e400")).
Proof. split; vm_compute; reflexivity. Qed.

(** *** Errors and their messages *)

(** Every error of [ParseFloat] is a [NumError] of [ParseFloat] that
    carries the input unchanged. *)
Lemma ParseFloat_error (s : string) (f : float64) (e : strconv.NumError) :
  strconv.ParseFloat s = (f, Some e) ->
  strconv.Func e = "ParseFloat" /\ strconv.Num e = s.
Proof.
  unfold strconv.ParseFloat, strconv.atof64.
  destruct (strconv.special s) as [[val n]|].
  - destruct (negb (n =? String.length s)%nat && true); intros H; inversion H; subst.
    split; reflexivity.
  - destruct (strconv.readFloat s) as [r|].
    + destruct (strconv.floatOf r) as [g ovf]. destruct ovf; simpl.
      * destruct (negb _ && true); intros H; inversion H; subst; split; reflexivity.
      * destruct (negb _ && true); intros H; inversion H; subst; split; reflexivity.
    + simpl. rewrite andb_false_r. intros H; inversion H; subst; split; reflexivity.
Qed.

Lemma quoted_plain (tbl : Z -> bool) (s : string) :
  plain s = true -> quoted tbl 0 s = s ++ String quote_byte EmptyString.
Proof.
  induction s as [|a s IH]; simpl; [reflexivity |].
  intros H. apply andb_true_iff in H as [Ha Hs].
  unfold plain_byte in Ha.
  apply andb_true_iff in Ha as [Ha H5c]. apply andb_true_iff in Ha as [Ha H22].
  apply andb_true_iff in Ha as [Hlo Hhi].
  apply Z.leb_le in Hlo. apply Z.leb_le in Hhi.
  apply negb_true_iff in H22. apply negb_true_iff in H5c.
  assert (Hlt : (byte_of a <? 0x80) = true) by (apply Z.ltb_lt; lia).
  rewrite Hlt. simpl.
  assert (Hre : (byte_of a =? utf8.RuneError) = false)
    by (apply Z.eqb_neq; unfold utf8.RuneError; lia).
  rewrite Hre. simpl.
  unfold escapedRune, IsPrint. rewrite H22, H5c. simpl.
  assert (Hff : (byte_of a <=? 0xFF) = true) by (apply Z.leb_le; lia).
  rewrite Hff.
  assert (Hp : ((0x20 <=? byte_of a) && (byte_of a <=? 0x7E)) = true).
  { apply andb_true_iff; split; apply Z.leb_le; lia. }
  rewrite Hp. simpl. rewrite IH by assumption.
  by destruct s.
Qed.

(** A plain string is quoted by putting it between double quotes. *)
Lemma Quote_plain (tbl : Z -> bool) (s : string) :
  plain s = true ->
  Quote tbl s = String quote_byte (s ++ String quote_byte EmptyString).
Proof. intros H. unfold Quote. by rewrite quoted_plain. Qed.

Lemma Error_invalid (tbl : Z -> bool) (k : nat) (field : string) (f : float64)
    (e : strconv.NumError) :
  strconv.ParseFloat field = (f, Some e) ->
  (k < 4)%nat ->
  Error tbl (Errorf ("invalid " ++ role k ++ " value: %v") (ArgError e))
  = invalidValue tbl k field (strconv.Reason e).
Proof.
  intros HP Hk. destruct (ParseFloat_error _ _ _ HP) as [HF HN].
  unfold invalidValue.
  destruct k as [|[|[|[|k]]]]; try lia; simpl;
    unfold NumError_Error; rewrite HF, HN, append_empty_r;
    destruct (strconv.Reason e); reflexivity.
Qed.

Example sample_values_nearest :
  nearest f64_0_1 1 10 && nearest f64_0_2 2 10 && nearest f64_0_3 3 10
  && nearest f64_0_9 9 10 && nearest f64_1 1 1 = true.
Proof. vm_compute. reflexivity. Qed.

(** Four fields that [ParseFloat] accepts make the record of their
    values, in the order i, j, k, real. *)
Lemma parse_accepted_fields (line a b c d : string) (x y z w : float64) :
  fields line = [a; b; c; d] ->
  strconv.ParseFloat a = (x, None) ->
  strconv.ParseFloat b = (y, None) ->
  strconv.ParseFloat c = (z, None) ->
  strconv.ParseFloat d = (w, None) ->
  parseQuaternion line = ({| QI := x; QJ := y; QK := z; QReal := w |}, None).
Proof.
  unfold fields, parseQuaternion. intros -> Ha Hb Hc Hd.
  cbn [length Nat.eqb negb index nth]. by rewrite Ha, Hb, Hc, Hd.
Qed.

Lemma valid_number_accepted (field : string) :
  valid_number field ->
  strconv.ParseFloat field = ((strconv.ParseFloat field).1, None).
Proof.
  intros [Hd Hr]. pose proof (ParseFloat_decimal_in_range field Hd Hr) as H.
  destruct (strconv.ParseFloat field) as [f e]. simpl in H. by subst e.
Qed.

(** C2. A line whose trimmed text splits on commas into exactly four
    fields, each a valid base-10 floating-point number (decimal, signed
    or exponential notation with a finite binary64 value), parses
    without error into the record whose i, j, k and real are the values
    the float parser gives the first, second, third and fourth field. *)
Theorem parse_four_numbers (line a b c d : string) :
  fields line = [a; b; c; d] ->
  valid_number a -> valid_number b -> valid_number c -> valid_number d ->
  parseQuaternion line
  = ({| QI := (strconv.ParseFloat a).1; QJ := (strconv.ParseFloat b).1;
        QK := (strconv.ParseFloat c).1; QReal := (strconv.ParseFloat d).1 |}, None).
Proof.
  intros Hf Ha Hb Hc Hd.
  apply (parse_accepted_fields line a b c d); [exact Hf | | | |];
    by apply valid_number_accepted.
Qed.

Lemma parse_four_numbers_sample :
  fields "0.1,0.2,0.3,0.9" = ["0.1"; "0.2"; "0.3"; "0.9"] /\
  valid_number "0.1" /\ valid_number "0.2" /\ valid_number "0.3" /\ valid_number "0.9" /\
  parseQuaternion "0.1,0.2,0.3,0.9"
  = ({| QI := f64_0_1; QJ := f64_0_2; QK := f64_0_3; QReal := f64_0_9 |}, None).
Proof.
  assert (H1 : valid_number "0.1") by (split; vm_compute; reflexivity).
  assert (H2 : valid_number "0.2") by (split; vm_compute; reflexivity).
  assert (H3 : valid_number "0.3") by (split; vm_compute; reflexivity).
  assert (H9 : valid_number "0.9") by (split; vm_compute; reflexivity).
  split; [reflexivity |]. do 4 (split; [assumption |]).
  exact (parse_four_numbers "0.1,0.2,0.3,0.9" "0.1" "0.2" "0.3" "0.9" eq_refl H1 H2 H3 H9).
Defined.

(** C3. A line whose trimmed text splits into N fields with N different
    from 4 is rejected, with the zero record and the error whose message
    is "expected 4 values, got N". *)
Theorem parse_wrong_count (tbl : Z -> bool) (line : string) :
  length (fields line) <> 4%nat ->
  parseQuaternion line
  = (Quaternion_zero,
     Some (Errorf "expected 4 values, got %d" (ArgInt (length (fields line))))) /\
  Error tbl (Errorf "expected 4 values, got %d" (ArgInt (length (fields line))))
  = "expected 4 values, got " ++ Itoa (length (fields line)).
Proof.
  intros HN. split.
  - unfold parseQuaternion. fold (fields line).
    destruct (length (fields line) =? 4)%nat eqn:E; [| reflexivity].
    apply Nat.eqb_eq in E. contradiction.
  - simpl. by rewrite append_empty_r.
Qed.

Lemma parse_wrong_count_sample :
  length (fields "0,0,0") = 3%nat /\
  (parseQuaternion "0,0,0").1 = Quaternion_zero /\
  Error (fun _ => false) <$> (parseQuaternion "0,0,0").2 = Some "expected 4 values, got 3".
Proof.
  split; [reflexivity |].
  destruct (parse_wrong_count (fun _ => false) "0,0,0") as [HP HE];
    [vm_compute; discriminate |].
  rewrite HP. split; [reflexivity |].
  exact (f_equal Some HE).
Defined.

(** The line "abc,0,xyz,1" has four fields and its third one, xyz, is
    not a number; the error nevertheless is the one for field i and its
    message does not contain xyz. *)
Lemma parse_reports_one_field_only :
  length (fields "abc,0,xyz,1") = 4%nat /\
  index (fields "abc,0,xyz,1") 2 = "xyz" /\
  (strconv.ParseFloat "xyz").2 = Some (strconv.syntaxError "ParseFloat" "xyz") /\
  Error (fun _ => false) <$> (parseQuaternion "abc,0,xyz,1").2
  = Some (invalidValue (fun _ => false) 0 "abc" strconv.ErrSyntax) /\
  contains "xyz" (invalidValue (fun _ => false) 0 "abc" strconv.ErrSyntax) = false /\
  contains "invalid k value" (invalidValue (fun _ => false) 0 "abc" strconv.ErrSyntax) = false.
Proof. vm_compute. repeat split; reflexivity. Qed.

(** C4, as the code has it. In a four-field line, let [k] be the first
    position whose field the float parser rejects. Then the parse fails
    with the zero record and the error for that position: its message
    names the role (i, j, k or real) and carries the field as quoted by
    [strconv.Quote] and the parser's reason; a field of printable ASCII
    without double quote or backslash appears verbatim between double
    quotes. *)
Theorem parse_invalid_field (tbl : Z -> bool) (line : string) (k : nat)
    (e : strconv.NumError) :
  length (fields line) = 4%nat ->
  (k < 4)%nat ->
  (forall j, (j < k)%nat -> (strconv.ParseFloat (index (fields line) j)).2 = None) ->
  (strconv.ParseFloat (index (fields line) k)).2 = Some e ->
  exists err,
    parseQuaternion line = (Quaternion_zero, Some err) /\
    Error tbl err = invalidValue tbl k (index (fields line) k) (strconv.Reason e) /\
    (plain (index (fields line) k) = true ->
     Error tbl err
     = "invalid " ++ role k ++ " value: strconv.ParseFloat: parsing "
       ++ String quote_byte (index (fields line) k
                             ++ String quote_byte (": " ++ reasonText (strconv.Reason e)))).
Proof.
  intros HN Hk Hbefore Hat.
  assert (Hmsg : forall err,
    Error tbl err = invalidValue tbl k (index (fields line) k) (strconv.Reason e) ->
    plain (index (fields line) k) = true ->
    Error tbl err
    = "invalid " ++ role k ++ " value: strconv.ParseFloat: parsing "
      ++ String quote_byte (index (fields line) k
                            ++ String quote_byte (": " ++ reasonText (strconv.Reason e)))).
  { intros err -> Hplain. unfold invalidValue. rewrite Quote_plain by assumption.
    do 3 f_equal. simpl. f_equal. by rewrite append_assoc. }
  unfold parseQuaternion. fold (fields line). rewrite HN. cbn [Nat.eqb negb].
  destruct (strconv.ParseFloat (index (fields line) 0)) as [x0 [e0|]] eqn:E0.
  { destruct k as [|k].
    - rewrite E0 in Hat. simpl in Hat. inversion Hat; subst e0. eexists. split; [reflexivity |].
      split; [| apply Hmsg]; exact (Error_invalid tbl 0 _ _ _ E0 Hk).
    - specialize (Hbefore 0%nat ltac:(lia)). rewrite E0 in Hbefore. discriminate. }
  destruct k as [|k]; [rewrite E0 in Hat; discriminate |].
  destruct (strconv.ParseFloat (index (fields line) 1)) as [x1 [e1|]] eqn:E1.
  { destruct k as [|k].
    - rewrite E1 in Hat. simpl in Hat. inversion Hat; subst e1. eexists. split; [reflexivity |].
      split; [| apply Hmsg]; exact (Error_invalid tbl 1 _ _ _ E1 Hk).
    - specialize (Hbefore 1%nat ltac:(lia)). rewrite E1 in Hbefore. discriminate. }
  destruct k as [|k]; [rewrite E1 in Hat; discriminate |].
  destruct (strconv.ParseFloat (index (fields line) 2)) as [x2 [e2|]] eqn:E2.
  { destruct k as [|k].
    - rewrite E2 in Hat. simpl in Hat. inversion Hat; subst e2. eexists. split; [reflexivity |].
      split; [| apply Hmsg]; exact (Error_invalid tbl 2 _ _ _ E2 Hk).
    - specialize (Hbefore 2%nat ltac:(lia)). rewrite E2 in Hbefore. discriminate. }
  destruct k as [|k]; [rewrite E2 in Hat; discriminate |].
  destruct (strconv.ParseFloat (index (fields line) 3)) as [x3 [e3|]] eqn:E3.
  { destruct k as [|k]; [| lia].
    rewrite E3 in Hat. simpl in Hat. inversion Hat; subst e3. eexists. split; [reflexivity |].
    split; [| apply Hmsg]; exact (Error_invalid tbl 3 _ _ _ E3 Hk). }
  destruct k as [|k]; [rewrite E3 in Hat; discriminate | lia].
Qed.

Lemma parse_invalid_field_sample :
  length (fields "abc,0,0,1") = 4%nat /\
  index (fields "abc,0,0,1") 0 = "abc" /\
  exists err,
    parseQuaternion "abc,0,0,1" = (Quaternion_zero, Some err) /\
    Error (fun _ => false) err
    = "invalid i value: strconv.ParseFloat: parsing "
      ++ String quote_byte ("abc" ++ String quote_byte ": invalid syntax").
Proof.
  split; [reflexivity |]. split; [reflexivity |].
  destruct (parse_invalid_field (fun _ => false) "abc,0,0,1" 0
              (strconv.syntaxError "ParseFloat" "abc"))
    as (err & HP & _ & HE);
    [reflexivity | lia | intros j Hj; lia | vm_compute; reflexivity |].
  exists err. split; [exact HP |]. exact (HE eq_refl).
Defined.

(** ** The hub *)

Local Open Scope list_scope.

Lemma received_emit (c : Conn) (es : list Effect) (w : World) :
  received c (emit es w) = received c w ++ omap (delivered c) es.
Proof. unfold received, emit. simpl. apply omap_app. Qed.

Lemma published_emit (c : Conn) (es : list Effect) (w : World) :
  published c (emit es w) = published c w ++ omap (broadcasted c) es.
Proof. unfold published, emit. simpl. apply omap_app. Qed.

Lemma elem_of_range (m : gmap Conn bool) (c : Conn) : c ∈ range m <-> c ∈ dom m.
Proof.
  unfold range. rewrite elem_of_dom, list_elem_of_fmap. split.
  - intros [[c' b] [-> H]]. apply elem_of_map_to_list in H. by exists b.
  - intros [b H]. exists (c, b). split; [reflexivity |]. by apply elem_of_map_to_list.
Qed.

Lemma NoDup_range (m : gmap Conn bool) : NoDup (range m).
Proof. apply NoDup_fst_map_to_list. Qed.

(** What one iteration of the loop does. *)
Lemma broadcast_to_ok (net : Conn -> bool) (data : Bytes) (w : World) (c : Conn) :
  writable net c w = true ->
  broadcast_to net data w c = emit [Published c data true] w.
Proof. unfold broadcast_to. by intros ->. Qed.

Lemma broadcast_to_failed (net : Conn -> bool) (data : Bytes) (w : World) (c : Conn) :
  writable net c w = false ->
  broadcast_to net data w c = evict c (emit [Published c data false] w).
Proof. unfold broadcast_to. by intros ->. Qed.

Lemma writable_broadcast_to (net : Conn -> bool) (data : Bytes) (w : World) (c c' : Conn) :
  c <> c' ->
  writable net c' (broadcast_to net data w c) = writable net c' w.
Proof.
  intros Hne. unfold writable. f_equal. f_equal.
  destruct (writable net c w) eqn:E.
  - by rewrite (broadcast_to_ok _ _ _ _ E).
  - rewrite (broadcast_to_failed _ _ _ _ E). simpl.
    apply bool_decide_ext. set_solver.
Qed.

(** One iteration, field by field. *)
Lemma broadcast_to_quat (net : Conn -> bool) (data : Bytes) (w : World) (k : Conn) :
  currentQuat (broadcast_to net data w k) = currentQuat w.
Proof. unfold broadcast_to. by destruct (writable net k w). Qed.

Lemma broadcast_to_clients (net : Conn -> bool) (data : Bytes) (w : World) (k c : Conn) :
  clients (broadcast_to net data w k) !! c
  = if bool_decide (c = k) && negb (writable net k w) then None else clients w !! c.
Proof.
  unfold broadcast_to. destruct (writable net k w); simpl.
  - by rewrite andb_false_r.
  - rewrite andb_true_r. case_bool_decide as E.
    + subst c. apply lookup_delete_eq.
    + by apply lookup_delete_ne.
Qed.

Lemma broadcast_to_published (net : Conn -> bool) (data : Bytes) (w : World) (k c : Conn) :
  published c (broadcast_to net data w k)
  = published c w ++ (if bool_decide (c = k) && writable net k w then [data] else []).
Proof.
  unfold broadcast_to, published.
  destruct (writable net k w); simpl; rewrite ?omap_app; simpl;
    rewrite ?andb_false_r, ?andb_true_r, ?app_nil_r; [| reflexivity].
  case_bool_decide as E; destruct (decide (k = c)); congruence.
Qed.

Lemma broadcast_to_received (net : Conn -> bool) (data : Bytes) (w : World) (k c : Conn) :
  received c (broadcast_to net data w k)
  = received c w ++ (if bool_decide (c = k) && writable net k w then [data] else []).
Proof.
  unfold broadcast_to, received.
  destruct (writable net k w); simpl; rewrite ?omap_app; simpl;
    rewrite ?andb_false_r, ?andb_true_r, ?app_nil_r; [| reflexivity].
  case_bool_decide as E; destruct (decide (k = c)); congruence.
Qed.

Lemma broadcast_to_failures (net : Conn -> bool) (data : Bytes) (w : World) (k c : Conn)
    (d : Bytes) :
  Published c d false ∈ journal (broadcast_to net data w k)
  <-> Published c d false ∈ journal w \/ (c = k /\ d = data /\ writable net k w = false).
Proof.
  unfold broadcast_to.
  destruct (writable net k w); simpl;
    rewrite ?elem_of_app, ?elem_of_cons, ?list_elem_of_singleton, ?elem_of_nil.
  - split.
    + intros [H | [H | []]]; [by left | discriminate].
    + intros [H | (_ & _ & H)]; [by left | discriminate].
  - split.
    + intros [[H | [H | []]] | [H | [H | []]]]; [by left | | discriminate | discriminate].
      inversion H; subst. by right.
    + intros [H | (-> & -> & _)]; [by left; left | by left; right; left].
Qed.

(** The state after the loop has visited the distinct clients [ks]:
    each of them was written to once; those whose write failed are
    deleted, the others have the message. *)
Section Loop.
Variables (net : Conn -> bool) (data : Bytes).

Lemma writable_after (k c : Conn) (w : World) :
  c <> k -> writable net c (broadcast_to net data w k) = writable net c w.
Proof. intros Hne. by apply writable_broadcast_to. Qed.

Lemma loop_quat (ks : list Conn) (w : World) : currentQuat (foldl (broadcast_to net data) w ks) = currentQuat w.
Proof.
  revert w. induction ks as [|k ks IH]; intros w; simpl; [reflexivity |].
  by rewrite IH, broadcast_to_quat.
Qed.

Lemma loop_clients (ks : list Conn) : NoDup ks -> forall (w : World) (c : Conn),
  clients (foldl (broadcast_to net data) w ks) !! c
  = if bool_decide (c ∈ ks) && negb (writable net c w) then None else clients w !! c.
Proof.
  induction 1 as [|k ks Hk Hnd IH]; intros w c; simpl.
  - reflexivity.
  - rewrite IH, broadcast_to_clients.
    destruct (decide (c = k)) as [-> | Hne].
    + rewrite (bool_decide_eq_false_2 (k ∈ ks)) by assumption.
      rewrite !bool_decide_eq_true_2 by set_solver. reflexivity.
    + rewrite writable_after by assumption.
      rewrite (bool_decide_eq_false_2 (c = k)) by assumption. simpl.
      rewrite (bool_decide_ext (c ∈ k :: ks) (c ∈ ks)) by set_solver. reflexivity.
Qed.

Lemma loop_published (ks : list Conn) : NoDup ks -> forall (w : World) (c : Conn),
  published c (foldl (broadcast_to net data) w ks)
  = published c w ++ (if bool_decide (c ∈ ks) && writable net c w then [data] else []).
Proof.
  induction 1 as [|k ks Hk Hnd IH]; intros w c; simpl.
  - by rewrite app_nil_r.
  - rewrite IH, broadcast_to_published, <- app_assoc. f_equal.
    destruct (decide (c = k)) as [-> | Hne].
    + rewrite (bool_decide_eq_false_2 (k ∈ ks)) by assumption.
      rewrite !bool_decide_eq_true_2 by set_solver. simpl. by rewrite app_nil_r.
    + rewrite writable_after by assumption.
      rewrite (bool_decide_eq_false_2 (c = k)) by assumption. simpl.
      rewrite (bool_decide_ext (c ∈ k :: ks) (c ∈ ks)) by set_solver. reflexivity.
Qed.

Lemma loop_received (ks : list Conn) : NoDup ks -> forall (w : World) (c : Conn),
  received c (foldl (broadcast_to net data) w ks)
  = received c w ++ (if bool_decide (c ∈ ks) && writable net c w then [data] else []).
Proof.
  induction 1 as [|k ks Hk Hnd IH]; intros w c; simpl.
  - by rewrite app_nil_r.
  - rewrite IH, broadcast_to_received, <- app_assoc. f_equal.
    destruct (decide (c = k)) as [-> | Hne].
    + rewrite (bool_decide_eq_false_2 (k ∈ ks)) by assumption.
      rewrite !bool_decide_eq_true_2 by set_solver. simpl. by rewrite app_nil_r.
    + rewrite writable_after by assumption.
      rewrite (bool_decide_eq_false_2 (c = k)) by assumption. simpl.
      rewrite (bool_decide_ext (c ∈ k :: ks) (c ∈ ks)) by set_solver. reflexivity.
Qed.

Lemma loop_failures (ks : list Conn) : NoDup ks -> forall (w : World) (c : Conn) (d : Bytes),
  Published c d false ∈ journal (foldl (broadcast_to net data) w ks)
  <-> Published c d false ∈ journal w \/ (d = data /\ c ∈ ks /\ writable net c w = false).
Proof.
  induction 1 as [|k ks Hk Hnd IH]; intros w c d; simpl.
  - set_solver.
  - rewrite IH, broadcast_to_failures. split.
    + intros [[H | (-> & -> & H)] | (-> & Hin & H)].
      * by left.
      * right. set_solver.
      * right. rewrite writable_after in H by (intros ->; contradiction). set_solver.
    + intros [H | (-> & Hin & H)]; [by left; left |].
      apply elem_of_cons in Hin as [-> | Hin]; [by left; right |].
      right. rewrite writable_after by (intros ->; contradiction). done.
Qed.

End Loop.

(** [broadcastQuaternion] when the record cannot be serialized: one log
    line and nothing else. *)
Lemma broadcast_unserializable (net : Conn -> bool) (quat : Quaternion) (w : World)
    (d : Bytes) (err : json.MarshalError) :
  json.Marshal quat = (d, Some err) ->
  broadcastQuaternion net quat w = emit [Logged (LogMarshalError err)] w.
Proof. unfold broadcastQuaternion. by intros ->. Qed.

Section Broadcast.
Variables (net : Conn -> bool) (quat : Quaternion) (data : Bytes) (w : World).
Hypothesis serialized : json.Marshal quat = (data, None).

Lemma broadcast_serialized :
  broadcastQuaternion net quat w = foldl (broadcast_to net data) w (range (clients w)).
Proof. unfold broadcastQuaternion. by rewrite serialized. Qed.

Lemma broadcast_quat : currentQuat (broadcastQuaternion net quat w) = currentQuat w.
Proof. rewrite broadcast_serialized. apply loop_quat. Qed.

Lemma broadcast_clients (c : Conn) :
  clients (broadcastQuaternion net quat w) !! c
  = if writable net c w then clients w !! c else None.
Proof.
  rewrite broadcast_serialized, loop_clients by apply NoDup_range.
  case_bool_decide as E; destruct (writable net c w); simpl; try reflexivity.
  rewrite elem_of_range, elem_of_dom in E.
  destruct (clients w !! c) eqn:El; [| reflexivity]. contradict E. eauto.
Qed.

Lemma broadcast_published (c : Conn) :
  published c (broadcastQuaternion net quat w)
  = published c w
    ++ (if bool_decide (c ∈ dom (clients w)) && writable net c w then [data] else []).
Proof.
  rewrite broadcast_serialized, loop_published by apply NoDup_range.
  by rewrite (bool_decide_ext _ _ (elem_of_range (clients w) c)).
Qed.

Lemma broadcast_received (c : Conn) :
  received c (broadcastQuaternion net quat w)
  = received c w
    ++ (if bool_decide (c ∈ dom (clients w)) && writable net c w then [data] else []).
Proof.
  rewrite broadcast_serialized, loop_received by apply NoDup_range.
  by rewrite (bool_decide_ext _ _ (elem_of_range (clients w) c)).
Qed.

Lemma broadcast_failures (c : Conn) (d : Bytes) :
  Published c d false ∈ journal (broadcastQuaternion net quat w)
  <-> Published c d false ∈ journal w
      \/ (d = data /\ c ∈ dom (clients w) /\ writable net c w = false).
Proof.
  rewrite broadcast_serialized, loop_failures by apply NoDup_range.
  by rewrite elem_of_range.
Qed.

End Broadcast.

(** The order in which the loop visits the clients does not matter: any
    order of the same keys leaves the same clients and sends every
    connection the same messages. *)
Lemma broadcast_any_order (net : Conn -> bool) (quat : Quaternion) (data : Bytes) (w : World)
    (ks : list Conn) :
  json.Marshal quat = (data, None) ->
  ks ≡ₚ range (clients w) ->
  clients (foldl (broadcast_to net data) w ks) = clients (broadcastQuaternion net quat w) /\
  currentQuat (foldl (broadcast_to net data) w ks)
  = currentQuat (broadcastQuaternion net quat w) /\
  forall c, received c (foldl (broadcast_to net data) w ks)
            = received c (broadcastQuaternion net quat w).
Proof.
  intros HM Hperm.
  assert (Hnd : NoDup ks) by (rewrite Hperm; apply NoDup_range).
  assert (Hin : forall c, bool_decide (c ∈ ks) = bool_decide (c ∈ range (clients w))).
  { intros c. apply bool_decide_ext. by rewrite Hperm. }
  rewrite (broadcast_serialized _ _ _ _ HM). split; [| split].
  - apply map_eq. intros c.
    rewrite (loop_clients net data ks Hnd), (loop_clients net data _ (NoDup_range _)).
    by rewrite Hin.
  - by rewrite !loop_quat.
  - intros c.
    rewrite (loop_received net data ks Hnd), (loop_received net data _ (NoDup_range _)).
    by rewrite Hin.
Qed.

(** [json.Marshal] succeeds exactly on the records without a NaN or an
    infinity. *)
Lemma Marshal_finite (quat : Quaternion) :
  finite (QI quat) && finite (QJ quat) && finite (QK quat) && finite (QReal quat) = true
  <-> exists data, json.Marshal quat = (data, None).
Proof.
  unfold finite, json.Marshal, json.structEncoder, json.floatEncoder.
  destruct (IsInf (QI quat) || IsNaN (QI quat));
    destruct (IsInf (QJ quat) || IsNaN (QJ quat));
    destruct (IsInf (QK quat) || IsNaN (QK quat));
    destruct (IsInf (QReal quat) || IsNaN (QReal quat)); simpl;
    split; try discriminate; try (intros [? ?]; discriminate); eauto.
Qed.

(** A broadcast never adds a client, and writes to registered clients only. *)
Lemma broadcast_clients_subset (net : Conn -> bool) (quat : Quaternion) (w : World) (c : Conn) :
  c ∈ dom (clients (broadcastQuaternion net quat w)) -> c ∈ dom (clients w).
Proof.
  rewrite !elem_of_dom.
  destruct (json.Marshal quat) as [data [err|]] eqn:E.
  - by rewrite (broadcast_unserializable _ _ _ _ _ E).
  - rewrite (broadcast_clients _ _ _ _ E). destruct (writable net c w); [done |].
    intros [? ?]. discriminate.
Qed.

Lemma broadcast_published_absent (net : Conn -> bool) (quat : Quaternion) (w : World) (c : Conn) :
  c ∉ dom (clients w) ->
  published c (broadcastQuaternion net quat w) = published c w.
Proof.
  intros Hc. destruct (json.Marshal quat) as [data [err|]] eqn:E.
  - rewrite (broadcast_unserializable _ _ _ _ _ E), published_emit. simpl. apply app_nil_r.
  - rewrite (broadcast_published _ _ _ _ E), bool_decide_eq_false_2 by assumption.
    apply app_nil_r.
Qed.

Lemma Marshal_ok (quat : Quaternion) (data : Bytes) :
  json.Marshal quat = (data, None) -> data = Encoded (document quat).
Proof.
  unfold json.Marshal, json.structEncoder, json.floatEncoder, document.
  destruct (IsInf (QI quat) || IsNaN (QI quat)); [discriminate |].
  destruct (IsInf (QJ quat) || IsNaN (QJ quat)); [discriminate |].
  destruct (IsInf (QK quat) || IsNaN (QK quat)); [discriminate |].
  destruct (IsInf (QReal quat) || IsNaN (QReal quat)); [discriminate |].
  by intros [= <-].
Qed.

Lemma scanning_reachable : reachable scanning.
Proof.
  exists [Serial Opened; Socket 1%positive Upgraded; Socket 1%positive ReadCurrent;
          Socket 1%positive (SendCurrent always)].
  vm_compute. reflexivity.
Qed.

(** The line "NaN,0,0,1" is scanned while subscriber 1 is registered and
    its connection takes every write. The record is stored and its
    broadcast makes no delivery attempt, so none fails, and the
    subscriber is sent nothing: it has its first message only. *)
Lemma fan_out_misses_nonfinite_record :
  let w := setCurrentQuat quat_NaN (world scanning) in
  reachable scanning /\
  parseQuaternion "NaN,0,0,1" = (quat_NaN, None) /\
  1%positive ∈ dom (clients w) /\
  (forall c, writable always c w = true) /\
  journal (broadcastQuaternion always quat_NaN w)
  = journal w ++ [Logged (LogMarshalError (json.UnsupportedValueError float64_NaN))] /\
  received 1%positive (broadcastQuaternion always quat_NaN w) = received 1%positive w /\
  received 1%positive w = [zero_snapshot].
Proof.
  simpl. split; [exact scanning_reachable |]. split; [vm_compute; reflexivity |].
  split; [apply elem_of_dom; by exists true |].
  split; [| split; [| split]; reflexivity].
  intros c. unfold writable, always. simpl.
  by rewrite bool_decide_eq_false_2 by set_solver.
Qed.

(** C6, as the code has it. When the record serializes (no field is NaN
    or infinite) and every write of the call succeeds, the record is
    serialized once, into the object with the members i, j, k and real,
    and each registered subscriber is sent exactly that one message; no
    subscriber is removed and nobody else is written to. *)
Theorem broadcast_fan_out (net : Conn -> bool) (quat : Quaternion) (data : Bytes) (w : World) :
  json.Marshal quat = (data, None) ->
  (forall c, c ∈ dom (clients w) -> writable net c w = true) ->
  data = Encoded (document quat) /\
  clients (broadcastQuaternion net quat w) = clients w /\
  (forall c, c ∈ dom (clients w) ->
     received c (broadcastQuaternion net quat w) = received c w ++ [data]) /\
  (forall c, c ∉ dom (clients w) ->
     received c (broadcastQuaternion net quat w) = received c w).
Proof.
  intros HM Hok. split; [by apply Marshal_ok |]. split; [| split].
  - apply map_eq. intros c. rewrite (broadcast_clients _ _ _ _ HM).
    destruct (writable net c w) eqn:E; [reflexivity |].
    destruct (clients w !! c) eqn:El; [| reflexivity].
    rewrite Hok in E; [discriminate |]. apply elem_of_dom. eauto.
  - intros c Hc. rewrite (broadcast_received _ _ _ _ HM).
    by rewrite bool_decide_eq_true_2, Hok by assumption.
  - intros c Hc. rewrite (broadcast_received _ _ _ _ HM).
    rewrite bool_decide_eq_false_2 by assumption. apply app_nil_r.
Qed.

Lemma broadcast_fan_out_sample :
  let w := {| currentQuat := Quaternion_identity; clients := {[1%positive := true]};
              closed := ∅; journal := [] |} in
  json.Marshal Quaternion_identity = (Encoded (document Quaternion_identity), None) /\
  (forall c, c ∈ dom (clients w) -> writable always c w = true) /\
  received 1%positive (broadcastQuaternion always Quaternion_identity w)
  = [Encoded (document Quaternion_identity)].
Proof.
  intros w.
  assert (HM : json.Marshal Quaternion_identity
               = (Encoded (document Quaternion_identity), None)) by reflexivity.
  assert (Hok : forall c, c ∈ dom (clients w) -> writable always c w = true).
  { intros c _. unfold writable, always, w. simpl.
    by rewrite bool_decide_eq_false_2 by set_solver. }
  split; [exact HM |]. split; [exact Hok |].
  destruct (broadcast_fan_out always Quaternion_identity _ w HM Hok) as (_ & _ & Hin & _).
  apply (Hin 1%positive). unfold w. simpl. set_solver.
Defined.

(** ** The process as a whole *)


(** A property kept by every step is kept by every run. *)
Lemma run_invariant (P : System -> Prop) :
  (forall ev s s', step ev s = Some s' -> P s -> P s') ->
  forall evs s s', run evs s = Some s' -> P s -> P s'.
Proof.
  intros Hstep. induction evs as [|ev evs IH]; intros s s' Hrun HP; simpl in Hrun.
  - by inversion Hrun; subst.
  - destruct (step ev s) as [s1|] eqn:E; simpl in Hrun; [| discriminate].
    eapply IH; [exact Hrun |]. eapply Hstep; eauto.
Qed.

Lemma sendCurrent_world (net : Conn -> bool) (conn : Conn) (quat : Quaternion) (w : World) :
  sendCurrent net conn quat w
  = emit [Greeted conn (json.Marshal quat).1 (writable net conn w)] w.
Proof. unfold sendCurrent. by destruct (json.Marshal quat). Qed.

Lemma handled_step (ev : Event) (s s' : System) :
  step ev s = Some s' -> handled s -> handled s'.
Proof.
  intros Hstep Hinv c. unfold handled in Hinv.
  step_cases Hstep; rewrite ?sendCurrent_world; simpl;
    rewrite ?dom_insert, ?dom_delete, ?lookup_insert_is_Some; try (by apply Hinv).
  - intros Hc. apply Hinv. by apply broadcast_clients_subset in Hc.
  - intros Hc. destruct (decide (conn = c)); [by left |]. right. split; [done |].
    apply Hinv. set_solver.
  - intros Hc. destruct (decide (conn = c)); [by left |]. right. split; [done |]. by apply Hinv.
  - intros Hc. destruct (decide (conn = c)); [by left |]. right. split; [done |]. by apply Hinv.
  - intros Hc. destruct (decide (conn = c)); [by left |]. right. split; [done |]. by apply Hinv.
  - intros Hc. destruct (decide (conn = c)); [by left |]. right. split; [done |].
    apply Hinv. set_solver.
Qed.

Lemma handled_reachable (s : System) : reachable s -> handled s.
Proof.
  intros [evs Hrun]. eapply (run_invariant handled handled_step); [exact Hrun |].
  intros c. simpl. set_solver.
Qed.

Lemma evicted_step (S : Conn) (trace : list Bytes) (ev : Event) (s s' : System) :
  step ev s = Some s' -> evicted S trace s -> evicted S trace s'.
Proof.
  intros Hstep (Hout & Hh & Hp). unfold evicted.
  step_cases Hstep; rewrite ?sendCurrent_world; simpl;
    rewrite ?dom_insert, ?dom_delete, ?lookup_insert_is_Some;
    (split; [| split]);
    try exact Hout; try exact Hh;
    try (destruct (decide (conn = S)); [by left | by right]);
    try (by journals).
  - destruct err; by journals.
  - intros Hc. by apply broadcast_clients_subset in Hc.
  - by rewrite broadcast_published_absent.
  - assert (conn <> S) by (intros ->; rewrite Eh in Hh; by destruct Hh). set_solver.
  - set_solver.
Qed.

Lemma step_broadcast (s : System) (net : Conn -> bool) (quat : Quaternion) :
  ingest s = Publishing quat ->
  step (Serial (Broadcast net)) s
  = Some {| world := broadcastQuaternion net quat (world s);
            ingest := Reading; handlers := handlers s |}.
Proof. intros Hpc. unfold step. simpl. by rewrite Hpc. Qed.

(** Only a failed write removes a client during a broadcast. *)
Lemma broadcast_removes_failed_only (net : Conn -> bool) (quat : Quaternion) (w : World)
    (c : Conn) :
  c ∈ dom (clients w) ->
  c ∉ dom (clients (broadcastQuaternion net quat w)) ->
  writable net c w = false /\
  exists data, json.Marshal quat = (data, None) /\
               Published c data false ∈ journal (broadcastQuaternion net quat w).
Proof.
  intros Hin Hout. destruct (json.Marshal quat) as [data [err|]] eqn:E.
  - rewrite (broadcast_unserializable _ _ _ _ _ E) in Hout. contradiction.
  - rewrite !elem_of_dom, (broadcast_clients _ _ _ _ E) in Hout.
    destruct (writable net c w) eqn:Ew.
    + contradict Hout. by apply elem_of_dom.
    + split; [reflexivity |]. exists data. split; [reflexivity |].
      apply (broadcast_failures _ _ _ _ E). right. done.
Qed.

(** C5. In a state the process can reach, let the reader be about to
    broadcast a record that serializes, and let the write to a
    registered subscriber S fail in that broadcast. Then the attempt is
    on record as failed, S is no longer registered when the broadcast
    returns, S was not sent the record, and whatever the process does
    afterwards S stays unregistered and is sent no broadcast. Moreover a
    broadcast removes a registered client only when the write to it
    failed. *)
Theorem failed_delivery_evicts (s s' : System) (net : Conn -> bool) (quat : Quaternion)
    (data : Bytes) (S : Conn) :
  reachable s ->
  ingest s = Publishing quat ->
  json.Marshal quat = (data, None) ->
  S ∈ dom (clients (world s)) ->
  writable net S (world s) = false ->
  step (Serial (Broadcast net)) s = Some s' ->
  world s' = broadcastQuaternion net quat (world s) /\
  Published S data false ∈ journal (world s') /\
  (S ∉ dom (clients (world s'))) /\
  published S (world s') = published S (world s) /\
  (forall evs s'', run evs s' = Some s'' ->
     (S ∉ dom (clients (world s''))) /\
     published S (world s'') = published S (world s)) /\
  (forall c, c ∈ dom (clients (world s)) -> c ∉ dom (clients (world s')) ->
     writable net c (world s) = false).
Proof.
  intros Hreach Hpc HM Hin Hfail Hstep.
  rewrite (step_broadcast _ _ _ Hpc) in Hstep. injection Hstep as <-. simpl.
  assert (Hout : S ∉ dom (clients (broadcastQuaternion net quat (world s)))).
  { rewrite elem_of_dom, (broadcast_clients _ _ _ _ HM), Hfail. by intros [? ?]. }
  assert (Hpub : published S (broadcastQuaternion net quat (world s))
                 = published S (world s)).
  { rewrite (broadcast_published _ _ _ _ HM), Hfail, andb_false_r. apply app_nil_r. }
  split; [reflexivity |]. split; [| split; [exact Hout | split; [exact Hpub | split]]].
  - apply (broadcast_failures _ _ _ _ HM). right. done.
  - intros evs s'' Hrun.
    assert (Hev : evicted S (published S (world s)) s'').
    { eapply (run_invariant _ (evicted_step S (published S (world s)))); [exact Hrun |].
      split; [exact Hout | split; [| exact Hpub]]. simpl.
      by apply (handled_reachable s Hreach). }
    destruct Hev as (H1 & _ & H3). by split.
  - intros c Hc Hgone.
    by destruct (broadcast_removes_failed_only net quat (world s) c Hc Hgone).
Qed.

Lemma about_to_publish_reachable : reachable about_to_publish.
Proof.
  exists [Serial Opened; Socket 1%positive Upgraded; Socket 1%positive ReadCurrent;
          Socket 1%positive (SendCurrent always); Serial (Scanned "0.1,0.2,0.3,0.9")].
  vm_compute. reflexivity.
Qed.

Lemma failed_delivery_evicts_sample :
  reachable about_to_publish /\
  ingest about_to_publish = Publishing quat_sample /\
  json.Marshal quat_sample = (Encoded (document quat_sample), None) /\
  1%positive ∈ dom (clients (world about_to_publish)) /\
  writable never 1%positive (world about_to_publish) = false /\
  (1%positive ∉ dom (clients (broadcastQuaternion never quat_sample (world about_to_publish)))) /\
  published 1%positive (broadcastQuaternion never quat_sample (world about_to_publish)) = [].
Proof.
  assert (Hin : 1%positive ∈ dom (clients (world about_to_publish))).
  { apply elem_of_dom. exists true. reflexivity. }
  split; [exact about_to_publish_reachable |].
  split; [reflexivity |]. split; [reflexivity |]. split; [exact Hin |].
  split; [reflexivity |].
  destruct (failed_delivery_evicts about_to_publish _ never quat_sample
              (Encoded (document quat_sample)) 1%positive
              about_to_publish_reachable eq_refl eq_refl Hin eq_refl
              (step_broadcast about_to_publish never quat_sample eq_refl))
    as (_ & _ & Hout & Hpub & _).
  split; [exact Hout | exact Hpub].
Defined.

(** ** The store before the first record *)

(** The store at process start is the zero record, not (0, 0, 0, 1),
    and a subscriber that connects right away is sent the zero record. *)
Lemma initial_store_is_zero_not_identity :
  currentQuat (world initial) <> Quaternion_identity /\
  QReal (currentQuat (world initial)) = S754_zero false /\
  (s ← run [Socket 1%positive Upgraded; Socket 1%positive ReadCurrent;
            Socket 1%positive (SendCurrent always)] initial;
   Some (received 1%positive (world s)))
  = Some [Encoded (document Quaternion_zero)] /\
  Encoded (document Quaternion_zero) <> Encoded (document Quaternion_identity).
Proof.
  split; [discriminate |]. split; [reflexivity |]. split; [| discriminate].
  vm_compute. reflexivity.
Qed.

Lemma pristine_initial : pristine initial.
Proof.
  split; [reflexivity |]. split; [discriminate |]. intros c.
  change (handlers initial) with (∅ : gmap Conn HandlerPC). by rewrite lookup_empty.
Qed.

Lemma received_greeted (c conn : Conn) (data : Bytes) (ok : bool) (w : World) :
  received c (emit [Greeted conn data ok] w)
  = received c w ++ (if ok && bool_decide (conn = c) then [data] else []).
Proof.
  rewrite received_emit. f_equal. simpl.
  destruct ok; simpl; [| reflexivity].
  by destruct (decide (conn = c)); [rewrite bool_decide_eq_true_2 | rewrite bool_decide_eq_false_2].
Qed.

Lemma pristine_step (ev : Event) (s s' : System) :
  step ev s = Some s' -> quiet ev -> pristine s -> pristine s'.
Proof.
  intros Hstep Hquiet (Hq & Hpc & Hh). unfold pristine.
  step_cases Hstep; rewrite ?sendCurrent_world; simpl;
    try (by destruct (Hpc _ eq_refl)).
  - split; [exact Hq |]. split; [discriminate |]. intros c. specialize (Hh c). by journals.
  - split; [exact Hq |]. split; [discriminate |]. intros c. specialize (Hh c). by journals.
  - split; [exact Hq |]. split; [discriminate |]. intros c. specialize (Hh c). by journals.
  - simpl in Hquiet. rewrite Eparse in Hquiet. by destruct Hquiet.
  - split; [exact Hq |]. split; [discriminate |]. intros c. specialize (Hh c).
    destruct err; by journals.
  - split; [exact Hq |]. split; [exact Hpc |]. intros c. specialize (Hh c).
    destruct (decide (conn = c)) as [-> | Hne].
    + rewrite lookup_insert_eq. rewrite Eh in Hh. by journals.
    + rewrite lookup_insert_ne by assumption. by journals.
  - split; [exact Hq |]. split; [exact Hpc |]. intros c. specialize (Hh c).
    destruct (decide (conn = c)) as [-> | Hne].
    + rewrite lookup_insert_eq. rewrite Eh in Hh. by split.
    + by rewrite lookup_insert_ne.
  - split; [exact Hq |]. split; [exact Hpc |]. intros c.
    rewrite received_greeted.
    destruct (decide (conn = c)) as [-> | Hne].
    + rewrite lookup_insert_eq. specialize (Hh c). rewrite Eh in Hh.
      destruct Hh as [-> ->]. rewrite bool_decide_eq_true_2 by reflexivity.
      destruct (writable net c (world s)); [by right | by left].
    + rewrite lookup_insert_ne by assumption. specialize (Hh c).
      rewrite bool_decide_eq_false_2, andb_false_r, app_nil_r by assumption. exact Hh.
  - split; [exact Hq |]. split; [exact Hpc |]. intros c. specialize (Hh c).
    destruct (decide (conn = c)) as [-> | Hne].
    + rewrite lookup_insert_eq. by rewrite Eh in Hh.
    + by rewrite lookup_insert_ne.
  - split; [exact Hq |]. split; [exact Hpc |]. intros c. specialize (Hh c).
    destruct (decide (conn = c)) as [-> | Hne].
    + rewrite lookup_insert_eq. rewrite Eh in Hh. by journals.
    + rewrite lookup_insert_ne by assumption. by journals.
  - split; [exact Hq |]. split; [exact Hpc |]. intros c. specialize (Hh c). by journals.
Qed.

Lemma pristine_run (evs : list Event) : forall s s',
  Forall quiet evs -> run evs s = Some s' -> pristine s -> pristine s'.
Proof.
  induction evs as [|ev evs IH]; intros s s' Hq Hrun HP; simpl in Hrun.
  - by inversion Hrun; subst.
  - destruct (step ev s) as [s1|] eqn:E; simpl in Hrun; [| discriminate].
    apply Forall_cons in Hq as [Hev Hq].
    eapply IH; [exact Hq | exact Hrun |]. eapply pristine_step; eauto.
Qed.

Lemma step_read_current (s : System) (c : Conn) :
  handlers s !! c = Some Registered ->
  step (Socket c ReadCurrent) s
  = Some {| world := world s; ingest := ingest s;
            handlers := <[c := Holding (currentQuat (world s))]> (handlers s) |}.
Proof. intros H. unfold step. by rewrite H. Qed.

Lemma step_send_current (s : System) (c : Conn) (quat : Quaternion) (net : Conn -> bool) :
  handlers s !! c = Some (Holding quat) ->
  step (Socket c (SendCurrent net)) s
  = Some {| world := sendCurrent net c quat (world s); ingest := ingest s;
            handlers := <[c := Serving]> (handlers s) |}.
Proof. intros H. unfold step. by rewrite H. Qed.

(** C1, as the code has it. At process start the store holds the zero
    record (i = j = k = 0 and real = 0). It keeps that value for as long
    as no line has parsed; until then every message sent to a subscriber
    is its first one and is the zero record, and a registered handler
    whose write succeeds sends exactly that. *)
Theorem store_before_first_record (evs : list Event) (s : System) :
  Forall quiet evs ->
  run evs initial = Some s ->
  currentQuat (world initial) = Quaternion_zero /\
  currentQuat (world s) = Quaternion_zero /\
  (forall c, received c (world s) = [] \/
             received c (world s) = [Encoded (document Quaternion_zero)]) /\
  (forall c net, handlers s !! c = Some Registered ->
     writable net c (world s) = true ->
     exists s', run [Socket c ReadCurrent; Socket c (SendCurrent net)] s = Some s' /\
                received c (world s') = [Encoded (document Quaternion_zero)]).
Proof.
  intros Hquiet Hrun.
  destruct (pristine_run evs initial s Hquiet Hrun pristine_initial) as (Hq & Hpc & Hh).
  split; [reflexivity |]. split; [exact Hq |]. split.
  - intros c. specialize (Hh c).
    destruct (handlers s !! c) as [[| | |]|]; try (by left); try exact Hh.
    destruct Hh as [_ ->]. by left.
  - intros c net Hreg Hw. specialize (Hh c). rewrite Hreg in Hh.
    cbn [run]. rewrite (step_read_current _ _ Hreg). cbn [mbind option_bind].
    rewrite (step_send_current _ c (currentQuat (world s)) net)
      by (simpl; apply lookup_insert_eq).
    eexists. split; [reflexivity |]. simpl.
    rewrite sendCurrent_world, received_greeted, Hh, Hq, Hw.
    by rewrite bool_decide_eq_true_2.
Qed.

Lemma store_before_first_record_sample :
  Forall quiet [Serial OpenFailed; Serial Opened; Serial (Scanned "abc,0,0,1");
                Socket 1%positive Upgraded] /\
  (exists s,
     run [Serial OpenFailed; Serial Opened; Serial (Scanned "abc,0,0,1");
          Socket 1%positive Upgraded] initial = Some s /\
     currentQuat (world s) = Quaternion_zero /\
     exists s',
       run [Socket 1%positive ReadCurrent; Socket 1%positive (SendCurrent always)] s = Some s' /\
       received 1%positive (world s') = [Encoded (document Quaternion_zero)]).
Proof.
  assert (Hq : Forall quiet [Serial OpenFailed; Serial Opened; Serial (Scanned "abc,0,0,1");
                             Socket 1%positive Upgraded]).
  { repeat constructor. vm_compute. discriminate. }
  split; [exact Hq |].
  destruct (run [Serial OpenFailed; Serial Opened; Serial (Scanned "abc,0,0,1");
                 Socket 1%positive Upgraded] initial) as [s|] eqn:Hrun;
    [| vm_compute in Hrun; discriminate].
  exists s. split; [reflexivity |].
  destruct (store_before_first_record _ s Hq Hrun) as (_ & Hstore & _ & Hsend).
  split; [exact Hstore |].
  apply (Hsend 1%positive always).
  - vm_compute in Hrun. injection Hrun as <-. reflexivity.
  - vm_compute in Hrun. injection Hrun as <-. reflexivity.
Defined.

(** ** A new subscriber *)

(** C7 at the input where it fails. Once the line "NaN,0,0,1" has been
    read, the store holds a record that does not serialize. A handler
    started then registers its connection, copies the store and sends
    what [json.Marshal] left in [data]: the nil slice, an empty message.
    In general the handler registers the connection first and later
    sends the serialization of its copy, nil when there is none. *)
Theorem snapshot_of_unserializable_store :
  (forall conn w, conn ∈ dom (clients (register conn w))) /\
  (forall net conn quat w,
     journal (sendCurrent net conn quat w)
     = journal w ++ [Greeted conn (json.Marshal quat).1 (writable net conn w)]) /\
  json.Marshal quat_NaN = (Nil, Some (json.UnsupportedValueError float64_NaN)) /\
  (s ← run [Serial Opened; Serial (Scanned "NaN,0,0,1"); Serial (Broadcast always);
            Socket 1%positive Upgraded; Socket 1%positive ReadCurrent;
            Socket 1%positive (SendCurrent always)] initial;
   Some (currentQuat (world s), clients (world s) !! 1%positive, handlers s !! 1%positive,
         received 1%positive (world s)))
  = Some (quat_NaN, Some true, Some Serving, [Nil]).
Proof.
  split; [| split; [| split]].
  - intros conn w. simpl. rewrite dom_insert. set_solver.
  - intros net conn quat w. by rewrite sendCurrent_world.
  - reflexivity.
  - vm_compute. reflexivity.
Qed.

(** When the copy serializes and the write succeeds, the handler's
    message is the document of the record it copied. *)
Lemma snapshot_of_serializable_store (s : System) (c : Conn) (net : Conn -> bool) (data : Bytes) :
  handlers s !! c = Some Registered ->
  json.Marshal (currentQuat (world s)) = (data, None) ->
  writable net c (world s) = true ->
  exists s', run [Socket c ReadCurrent; Socket c (SendCurrent net)] s = Some s' /\
             received c (world s') = received c (world s) ++ [data] /\
             data = Encoded (document (currentQuat (world s))).
Proof.
  intros Hreg HM Hw.
  cbn [run]. rewrite (step_read_current _ _ Hreg). cbn [mbind option_bind].
  rewrite (step_send_current _ c (currentQuat (world s)) net)
    by (simpl; apply lookup_insert_eq).
  eexists. split; [reflexivity |]. simpl.
  rewrite sendCurrent_world, received_greeted, HM, Hw. simpl.
  rewrite bool_decide_eq_true_2 by reflexivity. split; [reflexivity |].
  by apply Marshal_ok.
Qed.

(** ** The reader *)

Lemma step_scanned (s : System) (line : string) :
  ingest s = Reading ->
  step (Serial (Scanned line)) s
  = match parseQuaternion line with
    | (_, Some err) =>
        Some {| world := emit [Logged (LogParseError err line)] (world s);
                ingest := Reading; handlers := handlers s |}
    | (quat, None) =>
        Some {| world := setCurrentQuat quat (world s);
                ingest := Publishing quat; handlers := handlers s |}
    end.
Proof.
  intros Hpc. unfold step, listenSerialPort. rewrite Hpc.
  by destruct (parseQuaternion line) as [quat [err|]].
Qed.

(** C8. While the reader is in its scan loop: a line that parses is
    stored in [currentQuat] first, which leaves the reader before the
    broadcast of that same record, the only thing it can do next and
    after which it scans again; a line that does not parse is logged
    with its error and skipped, leaving the store, the clients and the
    messages sent as they were, with the reader still in the scan loop. *)
Theorem scan_loop_line (s : System) (line : string) :
  ingest s = Reading ->
  match parseQuaternion line with
  | (quat, None) =>
      exists s1,
        step (Serial (Scanned line)) s = Some s1 /\
        ingest s1 = Publishing quat /\
        currentQuat (world s1) = quat /\
        clients (world s1) = clients (world s) /\
        journal (world s1) = journal (world s) ++ [Stored quat] /\
        (forall l, is_Some (step (Serial l) s1) -> exists net, l = Broadcast net) /\
        (forall net,
           step (Serial (Broadcast net)) s1
           = Some {| world := broadcastQuaternion net quat (world s1);
                     ingest := Reading; handlers := handlers s |})
  | (_, Some err) =>
      exists s1,
        step (Serial (Scanned line)) s = Some s1 /\
        ingest s1 = Reading /\
        currentQuat (world s1) = currentQuat (world s) /\
        clients (world s1) = clients (world s) /\
        handlers s1 = handlers s /\
        journal (world s1) = journal (world s) ++ [Logged (LogParseError err line)] /\
        (forall c, received c (world s1) = received c (world s))
  end.
Proof.
  intros Hpc. rewrite (step_scanned s line Hpc).
  destruct (parseQuaternion line) as [quat [err|]].
  - eexists. split; [reflexivity |]. simpl. repeat split; try reflexivity.
    intros c. by journals.
  - eexists. split; [reflexivity |]. simpl. repeat split; try reflexivity.
    intros l [s2 Hs2]. unfold step in Hs2. simpl in Hs2.
    destruct l; simpl in Hs2; try discriminate. by eexists.
Qed.

Lemma scan_loop_line_sample :
  ingest scanning = Reading /\
  step (Serial (Scanned "0.1,0.2,0.3,0.9")) scanning = Some about_to_publish /\
  ingest about_to_publish = Publishing quat_sample /\
  currentQuat (world about_to_publish) = quat_sample.
Proof.
  split; [reflexivity |].
  pose proof (scan_loop_line scanning "0.1,0.2,0.3,0.9" eq_refl) as H.
  rewrite parse_sample in H. destruct H as (s1 & Hstep & Hpc & Hq & _).
  assert (Hs1 : s1 = about_to_publish).
  { vm_compute in Hstep. by injection Hstep as <-. }
  subst s1. split; [exact Hstep |]. split; [exact Hpc | exact Hq].
Defined.


Lemma step_opened (s : System) :
  ingest s = Connecting ->
  step (Serial Opened) s
  = Some {| world := emit [PortOpened; Logged LogOpened] (world s);
            ingest := Reading; handlers := handlers s |}.
Proof. intros Hpc. unfold step, listenSerialPort. by rewrite Hpc. Qed.






(** C10. The lines "NaN,0,0,1" and "Inf,0,0,1" parse, into records that
    [json.Marshal] refuses. When the reader scans one of them it stores
    the record and broadcasts it; the broadcast logs the refusal and
    returns, so the store holds the record while no subscriber is sent
    anything and the clients are as before. *)
Theorem unserializable_record_stored_not_sent (s : System) (line : string)
    (net : Conn -> bool) :
  ingest s = Reading ->
  line = "NaN,0,0,1" \/ line = "Inf,0,0,1" ->
  exists quat err s',
    parseQuaternion line = (quat, None) /\
    json.Marshal quat = (Nil, Some err) /\
    run [Serial (Scanned line); Serial (Broadcast net)] s = Some s' /\
    ingest s' = Reading /\
    currentQuat (world s') = quat /\
    clients (world s') = clients (world s) /\
    (forall c, received c (world s') = received c (world s)) /\
    journal (world s')
    = journal (world s) ++ [Stored quat; Logged (LogMarshalError err)].
Proof.
  intros Hpc Hline.
  assert (Hex : exists quat f,
            parseQuaternion line = (quat, None) /\
            json.Marshal quat = (Nil, Some (json.UnsupportedValueError f))).
  { destruct Hline as [-> | ->].
    - exists quat_NaN, float64_NaN. split; vm_compute; reflexivity.
    - exists quat_Inf, (float64_Inf false). split; vm_compute; reflexivity. }
  destruct Hex as (quat & f & Hparse & HM).
  exists quat, (json.UnsupportedValueError f). eexists.
  split; [exact Hparse |]. split; [exact HM |]. split.
  - cbn [run]. rewrite (step_scanned s line Hpc), Hparse. cbn [mbind option_bind].
    rewrite (step_broadcast _ net quat) by reflexivity. reflexivity.
  - simpl. rewrite (broadcast_unserializable _ _ _ _ _ HM). simpl.
    repeat split; try reflexivity.
    + intros c. by journals.
    + by rewrite <- app_assoc.
Qed.

Lemma unserializable_record_stored_not_sent_sample :
  ingest scanning = Reading /\
  exists s',
    run [Serial (Scanned "NaN,0,0,1"); Serial (Broadcast always)] scanning = Some s' /\
    currentQuat (world s') = quat_NaN /\
    1%positive ∈ dom (clients (world s')) /\
    received 1%positive (world s') = [zero_snapshot].
Proof.
  split; [reflexivity |].
  destruct (unserializable_record_stored_not_sent scanning "NaN,0,0,1" always eq_refl
              (or_introl eq_refl))
    as (quat & err & s' & Hparse & _ & Hrun & _ & Hq & Hc & Hr & _).
  exists s'. split; [exact Hrun |].
  assert (quat = quat_NaN) as -> by (vm_compute in Hparse; by injection Hparse as <-).
  split; [exact Hq |]. split.
  - rewrite Hc. apply elem_of_dom. exists true. reflexivity.
  - rewrite Hr. reflexivity.
Defined.

(** * Further properties *)

Local Open Scope string_scope.
Local Open Scope Z_scope.

(** ** What the parser accepts *)

(** X1. A line parses exactly when its trimmed text splits into four
    fields that the float parser accepts, and then the record holds
    their values in the order i, j, k, real; whenever it does not parse,
    the record returned is the zero record. *)
Theorem parse_outcome (line : string) :
  (forall quat,
     parseQuaternion line = (quat, None) <->
     exists a b c d,
       fields line = [a; b; c; d] /\
       strconv.ParseFloat a = (QI quat, None) /\
       strconv.ParseFloat b = (QJ quat, None) /\
       strconv.ParseFloat c = (QK quat, None) /\
       strconv.ParseFloat d = (QReal quat, None)) /\
  ((parseQuaternion line).2 <> None -> (parseQuaternion line).1 = Quaternion_zero).
Proof.
  unfold parseQuaternion. fold (fields line). split.
  - intros quat. split.
    + destruct (fields line) as [|a [|b [|c [|d [|e parts]]]]]; simpl; try discriminate.
      unfold index; simpl.
      destruct (strconv.ParseFloat a) as [x [ea|]] eqn:Ha; [discriminate |].
      destruct (strconv.ParseFloat b) as [y [eb|]] eqn:Hb; [discriminate |].
      destruct (strconv.ParseFloat c) as [z [ec|]] eqn:Hc; [discriminate |].
      destruct (strconv.ParseFloat d) as [w [ed|]] eqn:Hd; [discriminate |].
      intros [= <-]. exists a, b, c, d. by repeat split.
    + intros (a & b & c & d & -> & Ha & Hb & Hc & Hd). unfold index; simpl.
      rewrite Ha, Hb, Hc, Hd. by destruct quat.
  - destruct (negb (length (fields line) =? 4)%nat); [reflexivity |].
    destruct (strconv.ParseFloat (index (fields line) 0)) as [x [ea|]]; [reflexivity |].
    destruct (strconv.ParseFloat (index (fields line) 1)) as [y [eb|]]; [reflexivity |].
    destruct (strconv.ParseFloat (index (fields line) 2)) as [z [ec|]]; [reflexivity |].
    destruct (strconv.ParseFloat (index (fields line) 3)) as [w [ed|]]; [reflexivity |].
    simpl. congruence.
Qed.

Lemma Split_length (s : string) (sep : ascii) :
  length (strings.Split s sep) = S (count_byte sep s).
Proof.
  induction s as [|c s IH]; [reflexivity |]. simpl.
  destruct (Ascii.eqb c sep); simpl; [by rewrite IH |].
  destruct (strings.Split s sep) as [|p ps]; [discriminate IH | exact IH].
Qed.

(** X2. The count error depends on the commas alone: a line is refused
    with it exactly when its trimmed text does not hold three commas,
    and the number reported is one more than the number of commas. *)
Theorem parse_counts_commas (line : string) :
  length (fields line) = S (count_byte "," (strings.TrimSpace line)) /\
  (count_byte "," (strings.TrimSpace line) <> 3%nat <->
   parseQuaternion line
   = (Quaternion_zero,
      Some (Errorf "expected 4 values, got %d"
              (ArgInt (S (count_byte "," (strings.TrimSpace line))))))).
Proof.
  assert (HL : length (fields line) = S (count_byte "," (strings.TrimSpace line)))
    by apply Split_length.
  split; [exact HL |].
  unfold parseQuaternion. fold (fields line). rewrite HL. split.
  - intros Hn. destruct (S _ =? 4)%nat eqn:E; [| reflexivity].
    apply Nat.eqb_eq in E. lia.
  - intros H Hn. rewrite Hn in H. simpl in H.
    destruct (strconv.ParseFloat (index (fields line) 0)) as [x [ea|]]; [discriminate |].
    destruct (strconv.ParseFloat (index (fields line) 1)) as [y [eb|]]; [discriminate |].
    destruct (strconv.ParseFloat (index (fields line) 2)) as [z [ec|]]; [discriminate |].
    destruct (strconv.ParseFloat (index (fields line) 3)) as [w [ed|]]; discriminate.
Qed.

Lemma Join_Split (s : string) (sep : ascii) : Join (strings.Split s sep) sep = s.
Proof.
  induction s as [|c s IH]; [reflexivity |]. simpl strings.Split.
  destruct (Ascii.eqb c sep) eqn:E.
  - apply Ascii.eqb_eq in E. subst c.
    pose proof (Split_length s sep) as HL.
    destruct (strings.Split s sep) as [|p ps]; [discriminate HL |].
    simpl in IH |- *. by rewrite IH.
  - pose proof (Split_length s sep) as HL.
    destruct (strings.Split s sep) as [|p ps]; [discriminate HL |].
    destruct ps as [|p' ps]; simpl in IH |- *; by rewrite <- IH.
Qed.

Lemma Split_no_separator (s : string) (sep : ascii) :
  Forall (fun p => count_byte sep p = O) (strings.Split s sep).
Proof.
  induction s as [|c s IH]; [by repeat constructor |]. simpl.
  destruct (Ascii.eqb c sep) eqn:E; [by constructor |].
  destruct (strings.Split s sep) as [|p ps]; [repeat constructor; simpl; by rewrite E |].
  inversion IH; subst. constructor; [simpl; by rewrite E | assumption].
Qed.

(** X3. The fields are the pieces of the trimmed line between its
    commas: none holds a comma, and joined by commas they give the
    trimmed line back, so no byte of it escapes the parser. *)
Theorem fields_partition_line (line : string) :
  Join (fields line) "," = strings.TrimSpace line /\
  Forall (fun field => count_byte "," field = O) (fields line).
Proof. split; [apply Join_Split | apply Split_no_separator]. Qed.

(** ** Rounding never makes a NaN *)

Lemma shr_1_nonneg (mrs : shr_record) : 0 <= shr_m mrs -> 0 <= shr_m (shr_1 mrs).
Proof. destruct mrs as [m r s]. destruct m as [|[p|p|]|p]; simpl; lia. Qed.

Lemma iter_pos_invariant {A : Type} (P : A -> Prop) (f : A -> A) :
  (forall x, P x -> P (f x)) -> forall p x, P x -> P (SpecFloat.iter_pos f p x).
Proof. intros Hf. induction p; simpl; auto. Qed.

Lemma shr_fexp_nonneg (prec emax m e : Z) (l : location) :
  0 <= m -> 0 <= shr_m (shr_fexp prec emax m e l).1.
Proof.
  intros Hm. unfold shr_fexp, shr.
  assert (H0 : 0 <= shr_m (shr_record_of_loc m l)) by (by destruct l as [|[]]).
  destruct (fexp prec emax (Zdigits2 m + e) - e); simpl; try exact H0.
  by apply (iter_pos_invariant (fun mrs => 0 <= shr_m mrs) shr_1 shr_1_nonneg).
Qed.

Lemma round_nearest_even_nonneg (m : Z) (l : location) :
  0 <= m -> 0 <= round_nearest_even m l.
Proof.
  intros Hm. unfold round_nearest_even.
  destruct l as [|[]]; try destruct (Z.even m); lia.
Qed.

Lemma binary_round_aux_not_nan (prec emax : Z) (sx : bool) (m e : Z) (l : location) :
  0 <= m -> IsNaN (binary_round_aux prec emax sx m e l) = false.
Proof.
  intros Hm. unfold binary_round_aux.
  pose proof (shr_fexp_nonneg prec emax m e l Hm) as H1.
  destruct (shr_fexp prec emax m e l) as [mrs' e']. simpl in H1.
  pose proof (shr_fexp_nonneg prec emax _ e' loc_Exact
                (round_nearest_even_nonneg _ (loc_of_shr_record mrs') H1)) as H2.
  destruct (shr_fexp prec emax _ e' loc_Exact) as [mrs'' e'']. simpl in H2.
  destruct (shr_m mrs''); [reflexivity | by destruct (e'' <=? emax - prec) | lia].
Qed.

Lemma round_binary_not_nan (neg : bool) (m : positive) (e : Z) :
  IsNaN (round_binary neg m e) = false.
Proof.
  unfold round_binary, binary_round.
  destruct (shl_align m e _) as [mz ez]. by apply binary_round_aux_not_nan.
Qed.

Lemma round_decimal_not_nan (neg : bool) (m : positive) (e : Z) :
  IsNaN (round_decimal neg m e) = false.
Proof.
  unfold round_decimal. destruct (0 <=? e) eqn:He.
  - unfold binary_round. destruct (shl_align _ 0 _) as [mz ez].
    by apply binary_round_aux_not_nan.
  - apply Z.leb_gt in He. unfold SFdiv_core_binary.
    set (m' := match _ with 0 => Zpos m | Zpos _ => Z.shiftl (Zpos m) _ | Zneg _ => 0 end).
    assert (Hm' : 0 <= m').
    { subst m'. destruct (_ - _ - _)%Z; [lia | | lia]. apply Z.shiftl_nonneg. lia. }
    assert (Hd : 0 < 10 ^ (- e)) by (apply Z.pow_pos_nonneg; lia).
    pose proof (Z.div_pos m' (10 ^ (- e)) Hm' Hd) as Hq.
    unfold Z.div in Hq.
    destruct (Z.div_eucl m' (10 ^ (- e))) as [q r]. simpl in Hq.
    by apply binary_round_aux_not_nan.
Qed.

(** What [floatOf] returns is never a NaN, and an infinity only with
    the overflow flag. *)
Lemma floatOf_finite (r : strconv.Read) :
  (strconv.floatOf r).2 = false -> finite (strconv.floatOf r).1 = true.
Proof.
  unfold strconv.floatOf, finite.
  destruct (strconv.mant r) as [|m|m]; [reflexivity | | reflexivity].
  destruct (strconv.hex r).
  - simpl. intros ->. by rewrite round_binary_not_nan.
  - destruct (_ >? 310); [discriminate |].
    destruct (_ <? -330); [reflexivity |].
    simpl. intros ->. by rewrite round_decimal_not_nan.
Qed.

(** An accepted field has a NaN or an infinity for value only when it
    is one of the tokens [NaN], [Inf] and [Infinity] (sign and letter
    case apart); every other accepted field has a finite value. *)
Lemma ParseFloat_nonfinite (s : string) (v : float64) :
  strconv.ParseFloat s = (v, None) -> finite v = false ->
  strconv.special s = Some (v, String.length s).
Proof.
  unfold strconv.ParseFloat, strconv.atof64.
  destruct (strconv.special s) as [[val n]|].
  - destruct (Nat.eqb n (String.length s)) eqn:En; simpl; [| discriminate].
    apply Nat.eqb_eq in En. by intros [= <-] _; subst n.
  - destruct (strconv.readFloat s) as [r|].
    + pose proof (floatOf_finite r) as Hfin.
      destruct (strconv.floatOf r) as [f [|]]; simpl in Hfin |- *.
      * destruct (negb _); discriminate.
      * destruct (negb _); simpl; [discriminate |].
        intros [= <-]. rewrite Hfin; [discriminate | reflexivity].
    + simpl. rewrite andb_false_r. discriminate.
Qed.

(** ** White space around a line *)

Lemma string_rev_onto_append (s acc : string) :
  string_rev_onto s acc = string_rev s ++ acc.
Proof.
  unfold string_rev. revert acc.
  induction s as [|c s IH]; intros acc; [reflexivity |]. simpl.
  rewrite (IH (String c EmptyString)), IH, append_assoc. reflexivity.
Qed.

Lemma string_rev_cons (c : ascii) (s : string) :
  string_rev (String c s) = string_rev s ++ String c EmptyString.
Proof. unfold string_rev at 1. simpl. apply string_rev_onto_append. Qed.

Lemma string_rev_snoc (c : ascii) (s : string) :
  string_rev (s ++ String c EmptyString) = String c (string_rev s).
Proof.
  induction s as [|a s IH]; [reflexivity |].
  simpl. rewrite !string_rev_cons, IH. reflexivity.
Qed.

Lemma length_append (s t : string) :
  String.length (s ++ t) = (String.length s + String.length t)%nat.
Proof. induction s as [|c s IH]; simpl; [reflexivity | by rewrite IH]. Qed.

Lemma length_string_rev (s : string) : String.length (string_rev s) = String.length s.
Proof.
  induction s as [|c s IH]; [reflexivity |].
  rewrite string_rev_cons, length_append, IH. simpl. lia.
Qed.

Lemma ascii_space_cases (c : ascii) :
  ascii_space c = true ->
  c = "009"%char \/ c = "010"%char \/ c = "011"%char \/
  c = "012"%char \/ c = "013"%char \/ c = " "%char.
Proof.
  destruct c as [[] [] [] [] [] [] [] []]; vm_compute; intros H;
    try discriminate H; auto 6.
Qed.

Lemma strip_prefix_snoc (c : ascii) (p x : string) :
  count_byte c p = O ->
  strip_prefix p (x ++ String c EmptyString)
  = option_map (fun r => r ++ String c EmptyString) (strip_prefix p x).
Proof.
  revert x. induction p as [|a p IH]; intros x Hc; [reflexivity |].
  simpl in Hc. destruct (Ascii.eqb a c) eqn:Eac; [discriminate |].
  destruct x as [|b x]; simpl.
  - by rewrite Eac.
  - destruct (Ascii.eqb a b); [by apply IH | reflexivity].
Qed.

Section Trim.

Variable c : ascii.
Variable ps : list string.
Hypothesis Hapart : apart c ps = true.
Hypothesis Hstrip : forall r, strip_any ps (String c r) = Some r.

Lemma strip_any_snoc (x : string) :
  x <> EmptyString ->
  strip_any ps (x ++ String c EmptyString)
  = option_map (fun r => r ++ String c EmptyString) (strip_any ps x).
Proof using Hapart.
  intros Hx. clear Hstrip. induction ps as [|p ps' IH]; [reflexivity |].
  simpl in Hapart. apply andb_true_iff in Hapart as [Hp Hps].
  destruct p as [|a t]; [discriminate |]. apply Nat.eqb_eq in Hp.
  destruct x as [|b x']; [done |].
  cbn [strip_any strip_prefix String.append].
  destruct (Ascii.eqb a b).
  - rewrite strip_prefix_snoc by exact Hp.
    destruct (strip_prefix t x'); [reflexivity | by apply IH].
  - by apply IH.
Qed.

Lemma strip_any_shorter (s r : string) :
  strip_any ps s = Some r -> (String.length r < String.length s)%nat.
Proof using Hapart.
  clear Hstrip. induction ps as [|p ps' IH]; [discriminate |].
  simpl in Hapart. apply andb_true_iff in Hapart as [Hp Hps].
  destruct p as [|a t]; [discriminate |]. cbn [strip_any].
  destruct (strip_prefix (String a t) s) as [r'|] eqn:E; [| by apply IH].
  intros [= ->]. clear -E. destruct s as [|b s]; [discriminate |].
  simpl in E. destruct (Ascii.eqb a b); [| discriminate].
  assert (H : forall p s r, strip_prefix p s = Some r ->
                            (String.length r <= String.length s)%nat).
  { clear. induction p as [|a p IH]; intros s r; simpl.
    - by intros [= ->].
    - destruct s as [|b s]; [discriminate |].
      destruct (Ascii.eqb a b); [| discriminate].
      intros H. apply IH in H. simpl. lia. }
  apply H in E. simpl. lia.
Qed.

Lemma strip_any_empty : strip_any ps EmptyString = None.
Proof using Hapart.
  destruct (strip_any ps EmptyString) as [r|] eqn:E; [| reflexivity].
  apply strip_any_shorter in E. simpl in E. lia.
Qed.

(** More fuel than the length of the string changes nothing. *)
Lemma trim_left_fuel (f f' : nat) (s : string) :
  (String.length s <= f)%nat -> (String.length s <= f')%nat ->
  strings.trim_left f ps s = strings.trim_left f' ps s.
Proof using Hapart.
  revert f' s. induction f as [|f IH]; intros f' s Hf Hf'.
  - destruct s; [| simpl in Hf; lia].
    destruct f'; simpl; [reflexivity | by rewrite strip_any_empty].
  - destruct f' as [|f'].
    + destruct s; [| simpl in Hf'; lia]. simpl. by rewrite strip_any_empty.
    + simpl. destruct (strip_any ps s) as [r|] eqn:E; [| reflexivity].
      apply strip_any_shorter in E. apply IH; lia.
Qed.

Lemma trim_left_shorter (f : nat) (s : string) :
  (String.length (strings.trim_left f ps s) <= String.length s)%nat.
Proof using Hapart.
  revert s. induction f as [|f IH]; intros s; simpl; [lia |].
  destruct (strip_any ps s) as [r|] eqn:E; [| lia].
  apply strip_any_shorter in E. specialize (IH r). lia.
Qed.

Lemma trim_left_cons (s : string) :
  strings.trim_left (S (String.length s)) ps (String c s)
  = strings.trim_left (String.length s) ps s.
Proof using Hstrip. simpl. by rewrite Hstrip. Qed.

Lemma trim_left_snoc (f : nat) (x : string) :
  (String.length x <= f)%nat ->
  strings.trim_left (S f) ps (x ++ String c EmptyString)
  = match strings.trim_left f ps x with
    | EmptyString => EmptyString
    | String a t => String a t ++ String c EmptyString
    end.
Proof using Hapart Hstrip.
  revert x. induction f as [|f IH]; intros x Hf.
  - destruct x; [| simpl in Hf; lia]. simpl. by rewrite Hstrip.
  - destruct x as [|b x'].
    + cbn [String.append]. cbn [strings.trim_left]. rewrite Hstrip.
      rewrite strip_any_empty. by destruct f.
    + cbn [strings.trim_left]. rewrite strip_any_snoc by discriminate.
      destruct (strip_any ps (String b x')) as [r|] eqn:E; [| reflexivity].
      apply strip_any_shorter in E. simpl in Hf, E.
      cbn [option_map]. apply IH. lia.
Qed.

End Trim.

Lemma spaces_apart (c : ascii) :
  ascii_space c = true ->
  apart c strings.spaces = true /\
  apart c (map string_rev strings.spaces) = true /\
  (forall r, strip_any strings.spaces (String c r) = Some r) /\
  (forall r, strip_any (map string_rev strings.spaces) (String c r) = Some r).
Proof.
  intros Hc.
  destruct (ascii_space_cases c Hc) as [-> | [-> | [-> | [-> | [-> | ->]]]]];
    (split; [vm_compute; reflexivity |]); (split; [vm_compute; reflexivity |]);
    split; intros r; reflexivity.
Qed.

Lemma TrimSpace_cons (c : ascii) (s : string) :
  ascii_space c = true -> strings.TrimSpace (String c s) = strings.TrimSpace s.
Proof.
  intros Hc. destruct (spaces_apart c Hc) as (Ha & Ha' & Hs & Hs').
  unfold strings.TrimSpace. cbn [String.length]. cbv zeta.
  rewrite (trim_left_cons c _ Hs). f_equal.
  apply (trim_left_fuel c _ Ha'); rewrite length_string_rev;
    pose proof (trim_left_shorter c _ Ha (String.length s) s); lia.
Qed.

Lemma TrimSpace_snoc (c : ascii) (s : string) :
  ascii_space c = true ->
  strings.TrimSpace (s ++ String c EmptyString) = strings.TrimSpace s.
Proof.
  intros Hc. destruct (spaces_apart c Hc) as (Ha & Ha' & Hs & Hs').
  unfold strings.TrimSpace. cbv zeta.
  rewrite length_append. cbn [String.length].
  replace (String.length s + 1)%nat with (S (String.length s)) by lia.
  rewrite (trim_left_snoc c _ Ha Hs) by lia.
  pose proof (trim_left_shorter c _ Ha (String.length s) s) as Hle.
  destruct (strings.trim_left (String.length s) strings.spaces s) as [|a t] eqn:E.
  - f_equal. apply (trim_left_fuel c _ Ha'); simpl; lia.
  - f_equal. rewrite string_rev_snoc. cbn [strings.trim_left]. rewrite Hs'.
    apply (trim_left_fuel c _ Ha'); rewrite length_string_rev; lia.
Qed.

Lemma TrimSpace_padding (pre s post : string) :
  blank pre = true -> blank post = true ->
  strings.TrimSpace (pre ++ s ++ post) = strings.TrimSpace s.
Proof.
  intros Hpre Hpost. transitivity (strings.TrimSpace (s ++ post)).
  - clear Hpost. induction pre as [|c pre IH]; [reflexivity |].
    simpl in Hpre. apply andb_true_iff in Hpre as [Hc Hpre].
    cbn [String.append]. rewrite TrimSpace_cons by exact Hc. by apply IH.
  - clear Hpre. revert s. induction post as [|c post IH]; intros s.
    + by rewrite append_empty_r.
    + simpl in Hpost. apply andb_true_iff in Hpost as [Hc Hpost].
      change (String c post) with (String c EmptyString ++ post).
      rewrite <- append_assoc, (IH Hpost). by apply TrimSpace_snoc.
Qed.

(** X4. ASCII white space before and after a line changes nothing: the
    padded line gives the same record or the same error, with the same
    text, as the line itself. A carriage return left by the scanner or
    an indentation is harmless. *)
Theorem parse_ignores_padding (pre line post : string) :
  blank pre = true -> blank post = true ->
  parseQuaternion (pre ++ line ++ post) = parseQuaternion line.
Proof.
  intros Hpre Hpost. unfold parseQuaternion.
  by rewrite TrimSpace_padding.
Qed.

Lemma parse_ignores_padding_sample :
  blank (String " " (String "009" EmptyString)) = true /\
  blank (String "013" (String "010" EmptyString)) = true /\
  parseQuaternion (String " " (String "009" EmptyString) ++ "0.1,0.2,0.3,0.9"
                   ++ String "013" (String "010" EmptyString))
  = parseQuaternion "0.1,0.2,0.3,0.9".
Proof.
  split; [reflexivity |]. split; [reflexivity |].
  exact (parse_ignores_padding (String " " (String "009" EmptyString)) "0.1,0.2,0.3,0.9"
           (String "013" (String "010" EmptyString)) eq_refl eq_refl).
Defined.

(** ** The bytes of an accepted field *)

Lemma reads_refl (s : string) : reads s s.
Proof. by exists EmptyString. Qed.

Lemma reads_cons (a : ascii) (s u : string) :
  number_byte a = true -> reads s u -> reads (String a s) u.
Proof.
  intros Ha (pre & -> & Hpre). exists (String a pre). split; [reflexivity |].
  simpl. by rewrite Ha.
Qed.

Lemma number_bytes_append (s t : string) :
  number_bytes (s ++ t) = number_bytes s && number_bytes t.
Proof.
  induction s as [|c s IH]; [reflexivity |]. simpl. by rewrite IH, andb_assoc.
Qed.

Lemma reads_trans (s t u : string) : reads s t -> reads t u -> reads s u.
Proof.
  intros (p & -> & Hp) (q & -> & Hq). exists (p ++ q). split.
  - by rewrite append_assoc.
  - by rewrite number_bytes_append, Hp, Hq.
Qed.

Lemma reads_all (s : string) : reads s EmptyString -> number_bytes s = true.
Proof. intros (pre & -> & Hpre). by rewrite append_empty_r. Qed.

Lemma reads_length (s u : string) :
  reads s u -> (String.length u <= String.length s)%nat.
Proof. intros (pre & -> & _). rewrite length_append. lia. Qed.

Lemma byte_underscore (a : ascii) :
  (byte_of a =? strconv.ch "_") = true -> number_byte a = true.
Proof. by_bytes a. Qed.

Lemma byte_point (a : ascii) :
  (byte_of a =? strconv.ch ".") = true -> number_byte a = true.
Proof. by_bytes a. Qed.

Lemma byte_plus (a : ascii) :
  (byte_of a =? strconv.ch "+") = true -> number_byte a = true.
Proof. by_bytes a. Qed.

Lemma byte_minus (a : ascii) :
  (byte_of a =? strconv.ch "-") = true -> number_byte a = true.
Proof. by_bytes a. Qed.

Lemma byte_zero (a : ascii) :
  (byte_of a =? strconv.ch "0") = true -> number_byte a = true.
Proof. by_bytes a. Qed.

Lemma byte_digit (a : ascii) :
  strconv.isDigit (byte_of a) = true -> number_byte a = true.
Proof. by_bytes a. Qed.

Lemma byte_hex_letter (a : ascii) :
  strconv.isHexLetter (byte_of a) = true -> number_byte a = true.
Proof. by_bytes a. Qed.

Lemma byte_lower_letter (a : ascii) (c : Z) :
  97 <= c <= 122 -> (strconv.lower (byte_of a) =? c) = true -> number_byte a = true.
Proof.
  intros Hc H. apply Z.eqb_eq in H. subst c. revert Hc.
  destruct a as [[] [] [] [] [] [] [] []]; vm_compute; try reflexivity;
    intros [H1 H2]; try (by exfalso; apply H1); by exfalso; apply H2.
Qed.

Lemma readDigits_reads (s : string) :
  forall base sd sg nd dp m us,
    reads s (strconv.rest (strconv.readDigits base sd sg nd dp m us s)).
Proof.
  induction s as [|a s IH]; intros base sd sg nd dp m us; [apply reads_refl |].
  cbn [strconv.readDigits]. cbv zeta.
  destruct (byte_of a =? strconv.ch "_") eqn:E1.
  { apply reads_cons; [by apply byte_underscore | apply IH]. }
  destruct (byte_of a =? strconv.ch ".") eqn:E2.
  { destruct sd; [apply reads_refl |].
    apply reads_cons; [by apply byte_point | apply IH]. }
  destruct (strconv.isDigit (byte_of a)) eqn:E3.
  { destruct (_ && _); (apply reads_cons; [by apply byte_digit | apply IH]). }
  destruct ((base =? 16) && strconv.isHexLetter (byte_of a)) eqn:E4; [| apply reads_refl].
  apply andb_true_iff in E4 as [_ E4].
  apply reads_cons; [by apply byte_hex_letter | apply IH].
Qed.

Lemma readExponent_reads (s : string) :
  forall e us, reads s (strconv.readExponent e us s).2.
Proof.
  induction s as [|a s IH]; intros e us; [apply reads_refl |].
  cbn [strconv.readExponent]. cbv zeta.
  destruct (strconv.isDigit (byte_of a)) eqn:E1.
  { apply reads_cons; [by apply byte_digit | apply IH]. }
  destruct (byte_of a =? strconv.ch "_") eqn:E2; [| apply reads_refl].
  apply reads_cons; [by apply byte_underscore | apply IH].
Qed.

Lemma readSign_reads (s : string) : reads s (strconv.readSign s).2.
Proof.
  destruct s as [|a t]; [apply reads_refl |]. unfold strconv.readSign.
  destruct (byte_of a =? strconv.ch "+") eqn:E1.
  { apply reads_cons; [by apply byte_plus | apply reads_refl]. }
  destruct (byte_of a =? strconv.ch "-") eqn:E2; [| apply reads_refl].
  apply reads_cons; [by apply byte_minus | apply reads_refl].
Qed.

Lemma readBase_reads (s : string) : reads s (strconv.readBase s).2.
Proof.
  destruct s as [|z [|x [|d t]]]; try apply reads_refl. unfold strconv.readBase.
  destruct ((byte_of z =? strconv.ch "0") && _) eqn:E; [| apply reads_refl].
  apply andb_true_iff in E as [Ez Ex].
  apply reads_cons; [by apply byte_zero |].
  apply reads_cons; [| apply reads_refl].
  by apply (byte_lower_letter x (strconv.ch "x")).
Qed.

Lemma readExp_reads (expChar : Z) (us : bool) (s : string) :
  97 <= expChar <= 122 ->
  match strconv.readExp expChar us s with
  | strconv.Exponent_ _ _ unread => reads s unread
  | _ => True
  end.
Proof.
  intros Hc. destruct s as [|e t1]; [exact I |]. unfold strconv.readExp.
  destruct (strconv.lower (byte_of e) =? expChar) eqn:Ee; [| exact I].
  destruct t1 as [|sg t2]; [exact I |].
  assert (He : number_byte e = true) by (by apply (byte_lower_letter e expChar)).
  assert (H : forall esign t3, reads (String sg t2) t3 ->
     match match t3 with
           | String d _ =>
               if strconv.isDigit (byte_of d) then
                 let '(e0, us0, unread) := strconv.readExponent 0 us t3 in
                 strconv.Exponent_ (e0 * esign) us0 unread
               else strconv.BadExponent
           | EmptyString => strconv.BadExponent
           end with
     | strconv.Exponent_ _ _ unread => reads (String e (String sg t2)) unread
     | _ => True
     end).
  { intros esign t3 H3. destruct t3 as [|d t4]; [exact I |].
    destruct (strconv.isDigit (byte_of d)); [| exact I].
    pose proof (readExponent_reads (String d t4) 0 us) as Hr.
    destruct (strconv.readExponent 0 us (String d t4)) as [[e0 us0] unread].
    simpl in Hr. apply reads_cons; [exact He |]. by apply (reads_trans _ _ _ H3). }
  destruct (byte_of sg =? strconv.ch "+") eqn:E1.
  { apply H. apply reads_cons; [by apply byte_plus | apply reads_refl]. }
  destruct (byte_of sg =? strconv.ch "-") eqn:E2.
  { apply H. apply reads_cons; [by apply byte_minus | apply reads_refl]. }
  apply (H 1 (String sg t2)). apply reads_refl.
Qed.

Lemma readFloat_reads (s : string) (r : strconv.Read) :
  strconv.readFloat s = Some r -> reads s (strconv.unread r).
Proof.
  unfold strconv.readFloat. destruct s as [|a s]; [discriminate |].
  pose proof (readSign_reads (String a s)) as Hs.
  destruct (strconv.readSign (String a s)) as [neg t]. cbn [snd] in Hs.
  pose proof (readBase_reads t) as Hb.
  destruct (strconv.readBase t) as [hex t']. cbn [snd] in Hb.
  cbv beta iota zeta.
  pose proof (readDigits_reads t' (if hex then 16 else 10) false false 0 0 0 false) as Hd.
  set (ds := strconv.readDigits _ false false 0 0 0 false t') in *.
  destruct (negb (strconv.sawdigits ds)); [discriminate |].
  assert (Hrest : reads (String a s) (strconv.rest ds)).
  { apply (reads_trans _ _ _ Hs). by apply (reads_trans _ _ _ Hb). }
  destruct (if hex then (_ * 4, _) else _) as [dp ndigits].
  pose proof (readExp_reads (if hex then strconv.ch "p" else strconv.ch "e")
                (strconv.underscores ds) (strconv.rest ds)) as He.
  destruct (strconv.readExp _ (strconv.underscores ds) (strconv.rest ds))
    as [| | e us unread].
  - destruct hex; [discriminate |].
    destruct (_ && _); [discriminate |]. by intros [= <-].
  - discriminate.
  - destruct (_ && _); [discriminate |]. intros [= <-]. simpl.
    apply (reads_trans _ _ _ Hrest). apply He. by destruct hex.
Qed.

Lemma prefix_length (s p : string) :
  (strconv.commonPrefixLenIgnoreCase s p <= String.length s)%nat.
Proof.
  revert p. induction s as [|a s IH]; intros p; [simpl; lia |].
  destruct p as [|b p]; simpl; [lia |].
  destruct (_ =? byte_of b); [specialize (IH p); lia | lia].
Qed.

Lemma byte_letter (a b : ascii) :
  97 <= byte_of b <= 122 ->
  ((if (strconv.ch "A" <=? byte_of a) && (byte_of a <=? strconv.ch "Z")
    then byte_of a + (strconv.ch "a" - strconv.ch "A") else byte_of a) =? byte_of b) = true ->
  number_byte a = true.
Proof.
  intros Hb H. apply Z.eqb_eq in H. rewrite <- H in Hb. clear H. revert Hb.
  destruct a as [[] [] [] [] [] [] [] []]; vm_compute; try reflexivity;
    intros [H1 H2]; try (by exfalso; apply H1); by exfalso; apply H2.
Qed.

Lemma prefix_full (s p : string) :
  forallb (fun b => (97 <=? byte_of b) && (byte_of b <=? 122)) (list_ascii_of_string p) = true ->
  strconv.commonPrefixLenIgnoreCase s p = String.length s ->
  number_bytes s = true.
Proof.
  revert p. induction s as [|a s IH]; intros p Hp; [reflexivity |].
  destruct p as [|b p]; [discriminate |]. cbn [strconv.commonPrefixLenIgnoreCase].
  cbv zeta. simpl in Hp. apply andb_true_iff in Hp as [Hb Hp].
  destruct (_ =? byte_of b) eqn:E; [| discriminate].
  intros [= H]. simpl. rewrite (IH p Hp H), andb_true_r.
  apply (byte_letter a b); [lia | exact E].
Qed.

Lemma special_reads (s : string) (v : float64) :
  strconv.special s = Some (v, String.length s) -> number_bytes s = true.
Proof.
  destruct s as [|a t]; [discriminate |]. unfold strconv.special. cbv zeta.
  assert (Hinf : forall u neg nsign,
    (let n := strconv.commonPrefixLenIgnoreCase u "infinity" in
     let n := if (3 <? n)%nat && (n <? 8)%nat then 3%nat else n in
     if (n =? 3)%nat || (n =? 8)%nat
     then Some (float64_Inf neg, (nsign + n)%nat) else None)
    = Some (v, (nsign + String.length u)%nat) -> number_bytes u = true).
  { intros u neg nsign. cbv zeta.
    pose proof (prefix_length u "infinity") as Hle.
    destruct ((3 <? _)%nat && (_ <? 8)%nat) eqn:E.
    - simpl. intros [= _ H]. apply andb_true_iff in E as [E _].
      apply Nat.ltb_lt in E. lia.
    - destruct (_ || _); [| discriminate]. intros [= _ H].
      apply (prefix_full u "infinity"); [reflexivity | lia]. }
  destruct (byte_of a =? strconv.ch "+") eqn:E1.
  { intros H. simpl. rewrite byte_plus by exact E1. by apply (Hinf t false 1%nat). }
  destruct (byte_of a =? strconv.ch "-") eqn:E2.
  { intros H. simpl. rewrite byte_minus by exact E2. by apply (Hinf t true 1%nat). }
  destruct (_ || _).
  { intros H. by apply (Hinf (String a t) false 0%nat). }
  destruct (_ || _); [| discriminate].
  destruct (_ =? 3)%nat eqn:E3; [| discriminate].
  apply Nat.eqb_eq in E3. intros [= _ H].
  apply (prefix_full (String a t) "nan"); [reflexivity |].
  cbn [String.length]. congruence.
Qed.

(** An accepted field is written with number bytes only. *)
Lemma ParseFloat_number_bytes (s : string) (v : float64) :
  strconv.ParseFloat s = (v, None) -> number_bytes s = true.
Proof.
  unfold strconv.ParseFloat, strconv.atof64.
  destruct (strconv.special s) as [[val n]|] eqn:Es.
  - destruct (Nat.eqb n (String.length s)) eqn:En; simpl; [| discriminate].
    apply Nat.eqb_eq in En. subst n. intros _. by apply (special_reads s val).
  - destruct (strconv.readFloat s) as [r|] eqn:Er.
    + apply readFloat_reads in Er.
      pose proof (reads_length _ _ Er) as Hle.
      destruct (strconv.floatOf r) as [f [|]]; simpl.
      * destruct (negb _); discriminate.
      * destruct (Nat.eqb _ (String.length s)) eqn:En; simpl; [| discriminate].
        apply Nat.eqb_eq in En. intros _.
        destruct (strconv.unread r) as [|b u] eqn:Eu; [by apply reads_all |].
        simpl in En, Hle. destruct s; simpl in *; lia.
    + simpl. rewrite andb_false_r. discriminate.
Qed.

Lemma record_bytes_number (s : string) : number_bytes s = true -> record_bytes s = true.
Proof.
  induction s as [|c s IH]; [reflexivity |]. simpl. unfold record_byte.
  intros [-> H]%andb_true_iff. by rewrite IH.
Qed.

Lemma record_bytes_append (s t : string) :
  record_bytes (s ++ t) = record_bytes s && record_bytes t.
Proof.
  induction s as [|c s IH]; [reflexivity |]. simpl. by rewrite IH, andb_assoc.
Qed.

(** X5. A line parses only if its trimmed text is made of number bytes
    and commas: white space within the line, after a comma for one, a
    quote, a bracket or any other byte makes the parser refuse it. *)
Theorem accepted_line_bytes (line : string) (quat : Quaternion) :
  parseQuaternion line = (quat, None) ->
  record_bytes (strings.TrimSpace line) = true.
Proof.
  intros H. rewrite <- (Join_Split (strings.TrimSpace line) ","). fold (fields line).
  revert H. unfold parseQuaternion. fold (fields line).
  destruct (fields line) as [|a [|b [|c [|d [|e parts]]]]]; simpl; try discriminate.
  unfold index; simpl.
  destruct (strconv.ParseFloat a) as [x [ea|]] eqn:Ha; [discriminate |].
  destruct (strconv.ParseFloat b) as [y [eb|]] eqn:Hb; [discriminate |].
  destruct (strconv.ParseFloat c) as [z [ec|]] eqn:Hc; [discriminate |].
  destruct (strconv.ParseFloat d) as [w [ed|]] eqn:Hd; [discriminate |].
  intros _.
  apply ParseFloat_number_bytes, record_bytes_number in Ha, Hb, Hc, Hd.
  rewrite !record_bytes_append. simpl. rewrite !record_bytes_append. simpl.
  rewrite !record_bytes_append. simpl.
  by rewrite Ha, Hb, Hc, Hd.
Qed.

Lemma accepted_line_bytes_sample :
  parseQuaternion "0.1,0.2,0.3,0.9" = (quat_sample, None) /\
  record_bytes (strings.TrimSpace "0.1,0.2,0.3,0.9") = true.
Proof.
  split; [vm_compute; reflexivity |].
  exact (accepted_line_bytes "0.1,0.2,0.3,0.9" quat_sample eq_refl).
Defined.

Lemma ParseFloat_plain_finite (s : string) (v : float64) :
  strconv.ParseFloat s = (v, None) -> strconv.special s = None -> finite v = true.
Proof.
  intros Hp Hs. destruct (finite v) eqn:E; [reflexivity |].
  rewrite (ParseFloat_nonfinite s v Hp E) in Hs. discriminate.
Qed.

(** X6. Only the tokens [NaN], [Inf] and [Infinity] give a record that
    cannot be serialized: when a line parses and none of its fields is
    such a token, every field of the record is finite and [json.Marshal]
    makes the document of the record. *)
Theorem plain_record_serializable (line : string) (quat : Quaternion) :
  parseQuaternion line = (quat, None) ->
  Forall (fun field => strconv.special field = None) (fields line) ->
  json.Marshal quat = (Encoded (document quat), None).
Proof.
  unfold parseQuaternion. fold (fields line).
  destruct (fields line) as [|a [|b [|c [|d [|e parts]]]]]; simpl; try discriminate.
  unfold index; simpl.
  destruct (strconv.ParseFloat a) as [x [ea|]] eqn:Ha; [discriminate |].
  destruct (strconv.ParseFloat b) as [y [eb|]] eqn:Hb; [discriminate |].
  destruct (strconv.ParseFloat c) as [z [ec|]] eqn:Hc; [discriminate |].
  destruct (strconv.ParseFloat d) as [w [ed|]] eqn:Hd; [discriminate |].
  intros [= <-] Hplain.
  apply Forall_cons in Hplain as [Sa Hplain]. apply Forall_cons in Hplain as [Sb Hplain].
  apply Forall_cons in Hplain as [Sc Hplain]. apply Forall_cons in Hplain as [Sd _].
  pose proof (ParseFloat_plain_finite a x Ha Sa) as Fx.
  pose proof (ParseFloat_plain_finite b y Hb Sb) as Fy.
  pose proof (ParseFloat_plain_finite c z Hc Sc) as Fz.
  pose proof (ParseFloat_plain_finite d w Hd Sd) as Fw.
  destruct (proj1 (Marshal_finite {| QI := x; QJ := y; QK := z; QReal := w |}))
    as [data HM]; [simpl; by rewrite Fx, Fy, Fz, Fw |].
  by rewrite HM, (Marshal_ok _ _ HM).
Qed.

Lemma plain_record_serializable_sample :
  parseQuaternion "0.1,0.2,0.3,0.9" = (quat_sample, None) /\
  Forall (fun field => strconv.special field = None) (fields "0.1,0.2,0.3,0.9") /\
  json.Marshal quat_sample = (Encoded (document quat_sample), None).
Proof.
  assert (Hp : parseQuaternion "0.1,0.2,0.3,0.9" = (quat_sample, None))
    by (vm_compute; reflexivity).
  assert (Hs : Forall (fun field => strconv.special field = None)
                 (fields "0.1,0.2,0.3,0.9")).
  { change (fields "0.1,0.2,0.3,0.9") with ["0.1"; "0.2"; "0.3"; "0.9"].
    repeat constructor. }
  split; [exact Hp |]. split; [exact Hs |].
  exact (plain_record_serializable "0.1,0.2,0.3,0.9" quat_sample Hp Hs).
Defined.

Local Open Scope list_scope.

(** ** More about a broadcast *)

Lemma broadcast_to_closed (net : Conn -> bool) (data : Bytes) (w : World) (k c : Conn) :
  c ∈ closed (broadcast_to net data w k)
  <-> c ∈ closed w \/ (c = k /\ writable net k w = false).
Proof.
  unfold broadcast_to. destruct (writable net k w); simpl; [| set_solver].
  split; [by left | intros [H | [_ H]]; [done | discriminate]].
Qed.

Lemma loop_closed (net : Conn -> bool) (data : Bytes) (ks : list Conn) :
  NoDup ks -> forall (w : World) (c : Conn),
  c ∈ closed (foldl (broadcast_to net data) w ks)
  <-> c ∈ closed w \/ (c ∈ ks /\ writable net c w = false).
Proof.
  induction 1 as [|k ks Hk Hnd IH]; intros w c; simpl.
  - set_solver.
  - rewrite IH, broadcast_to_closed. split.
    + intros [[H | [-> H]] | [Hin H]].
      * by left.
      * right. set_solver.
      * right. rewrite writable_broadcast_to in H by (intros ->; contradiction). set_solver.
    + intros [H | [Hin H]]; [by left; left |].
      apply elem_of_cons in Hin as [-> | Hin]; [by left; right |].
      right. rewrite writable_broadcast_to by (intros ->; contradiction). done.
Qed.

Lemma broadcast_to_journal (net : Conn -> bool) (data : Bytes) (w : World) (k : Conn) :
  exists es, journal (broadcast_to net data w k) = journal w ++ es /\
             forallb hub_effect es = true.
Proof.
  unfold broadcast_to. destruct (writable net k w); simpl.
  - by eexists.
  - rewrite <- app_assoc. by eexists.
Qed.

Lemma loop_journal (net : Conn -> bool) (data : Bytes) (ks : list Conn) (w : World) :
  exists es, journal (foldl (broadcast_to net data) w ks) = journal w ++ es /\
             forallb hub_effect es = true.
Proof.
  revert w. induction ks as [|k ks IH]; intros w; simpl.
  - exists []. by rewrite app_nil_r.
  - destruct (IH (broadcast_to net data w k)) as (es2 & -> & H2).
    destruct (broadcast_to_journal net data w k) as (es1 & -> & H1).
    exists (es1 ++ es2). by rewrite <- app_assoc, forallb_app, H1, H2.
Qed.

(** What a broadcast adds to the journal: log lines, writes to clients
    and closings, nothing else. *)
Lemma broadcast_journal (net : Conn -> bool) (quat : Quaternion) (w : World) :
  exists es, journal (broadcastQuaternion net quat w) = journal w ++ es /\
             forallb hub_effect es = true.
Proof.
  unfold broadcastQuaternion. destruct (json.Marshal quat) as [data [err|]].
  - by eexists.
  - apply loop_journal.
Qed.

Lemma attempts_emit (c : Conn) (es : list Effect) (w : World) :
  attempts c (emit es w) = (attempts c w + length (List.filter (attempted c) es))%nat.
Proof. unfold attempts, emit. simpl. by rewrite List.filter_app, length_app. Qed.

Lemma broadcast_to_attempts (net : Conn -> bool) (data : Bytes) (w : World) (k c : Conn) :
  attempts c (broadcast_to net data w k)
  = (attempts c w + if bool_decide (c = k) then 1 else 0)%nat.
Proof.
  unfold broadcast_to, attempts.
  destruct (writable net k w); simpl; rewrite ?List.filter_app, ?length_app; simpl;
    rewrite (bool_decide_ext (k = c) (c = k)) by (split; congruence);
    case_bool_decide; simpl; lia.
Qed.

Lemma loop_attempts (net : Conn -> bool) (data : Bytes) (ks : list Conn) :
  NoDup ks -> forall (w : World) (c : Conn),
  attempts c (foldl (broadcast_to net data) w ks)
  = (attempts c w + if bool_decide (c ∈ ks) then 1 else 0)%nat.
Proof.
  induction 1 as [|k ks Hk Hnd IH]; intros w c; simpl.
  - lia.
  - rewrite IH, broadcast_to_attempts.
    destruct (decide (c = k)) as [-> | Hne].
    + rewrite (bool_decide_eq_false_2 (k ∈ ks)) by assumption.
      rewrite !bool_decide_eq_true_2 by set_solver. lia.
    + rewrite (bool_decide_eq_false_2 (c = k)) by assumption.
      rewrite (bool_decide_ext (c ∈ k :: ks) (c ∈ ks)) by set_solver. lia.
Qed.

(** X7. A broadcast makes one delivery attempt for each registered
    client and none for any other connection, whether the writes succeed
    or fail; for a record that does not serialize it makes no attempt at
    all. *)
Theorem broadcast_attempts_once (net : Conn -> bool) (quat : Quaternion) (w : World)
    (c : Conn) :
  attempts c (broadcastQuaternion net quat w)
  = (attempts c w
     + if bool_decide (c ∈ dom (clients w))
       then match (json.Marshal quat).2 with None => 1 | Some _ => 0 end
       else 0)%nat.
Proof.
  unfold broadcastQuaternion. destruct (json.Marshal quat) as [data [err|]]; simpl.
  - rewrite attempts_emit. simpl. by destruct (bool_decide _).
  - rewrite loop_attempts by apply NoDup_range.
    by rewrite (bool_decide_ext _ _ (elem_of_range (clients w) c)).
Qed.

Lemma broadcast_store (net : Conn -> bool) (quat : Quaternion) (w : World) :
  currentQuat (broadcastQuaternion net quat w) = currentQuat w.
Proof.
  destruct (json.Marshal quat) as [data [err|]] eqn:E.
  - by rewrite (broadcast_unserializable _ _ _ _ _ E).
  - by apply (broadcast_quat _ _ _ _ E).
Qed.

Lemma broadcast_clients_weaken (net : Conn -> bool) (quat : Quaternion) (w : World) :
  clients (broadcastQuaternion net quat w) ⊆ clients w.
Proof.
  destruct (json.Marshal quat) as [data [err|]] eqn:E.
  - by rewrite (broadcast_unserializable _ _ _ _ _ E).
  - apply map_subseteq_spec. intros c v.
    rewrite (broadcast_clients _ _ _ _ E). by destruct (writable net c w).
Qed.

Lemma broadcast_closed (net : Conn -> bool) (quat : Quaternion) (w : World) (c : Conn) :
  c ∈ closed (broadcastQuaternion net quat w)
  <-> c ∈ closed w
      \/ (c ∈ dom (clients w) /\ writable net c w = false /\ (json.Marshal quat).2 = None).
Proof.
  destruct (json.Marshal quat) as [data [err|]] eqn:E.
  - rewrite (broadcast_unserializable _ _ _ _ _ E). simpl.
    split; [by left | intros [H | (_ & _ & H)]; [done | discriminate]].
  - rewrite (broadcast_serialized _ _ _ _ E), loop_closed by apply NoDup_range.
    rewrite elem_of_range. simpl. tauto.
Qed.

(** X8. A broadcast never changes the store and never registers a
    connection, and the connections it closes are the registered ones
    whose write failed. *)
Theorem broadcast_footprint (net : Conn -> bool) (quat : Quaternion) (w : World) :
  currentQuat (broadcastQuaternion net quat w) = currentQuat w /\
  clients (broadcastQuaternion net quat w) ⊆ clients w /\
  forall c,
    c ∈ closed (broadcastQuaternion net quat w)
    <-> c ∈ closed w
        \/ (c ∈ dom (clients w) /\ writable net c w = false /\ (json.Marshal quat).2 = None).
Proof.
  split; [apply broadcast_store |]. split; [apply broadcast_clients_weaken |].
  apply broadcast_closed.
Qed.

(** X9. A failing subscriber does not keep a record from the others: a
    registered client whose own write succeeds is sent the record and
    stays registered, whatever happens to the writes to other clients. *)
Theorem broadcast_isolation (net : Conn -> bool) (quat : Quaternion) (data : Bytes)
    (w : World) (c : Conn) :
  json.Marshal quat = (data, None) ->
  c ∈ dom (clients w) ->
  writable net c w = true ->
  received c (broadcastQuaternion net quat w) = received c w ++ [Encoded (document quat)] /\
  clients (broadcastQuaternion net quat w) !! c = clients w !! c.
Proof.
  intros HM Hin Hok. rewrite (broadcast_received _ _ _ _ HM), (broadcast_clients _ _ _ _ HM).
  rewrite Hok, bool_decide_eq_true_2 by assumption. simpl.
  by rewrite (Marshal_ok _ _ HM).
Qed.

Lemma broadcast_isolation_sample :
  json.Marshal quat_sample = (Encoded (document quat_sample), None) /\
  1%positive ∈ dom (clients two_clients) /\
  writable only_first 1%positive two_clients = true /\
  writable only_first 2%positive two_clients = false /\
  received 1%positive (broadcastQuaternion only_first quat_sample two_clients)
  = [Encoded (document quat_sample)].
Proof.
  assert (Hin : 1%positive ∈ dom (clients two_clients)).
  { apply elem_of_dom. exists true. reflexivity. }
  split; [reflexivity |]. split; [exact Hin |]. split; [reflexivity |].
  split; [reflexivity |].
  exact (proj1 (broadcast_isolation only_first quat_sample _ two_clients 1%positive
                  eq_refl Hin eq_refl)).
Defined.

(** X10. The order in which the loop visits the map of clients, which Go
    leaves unspecified, does not show: visited in any order, the same
    clients remain, the same connections are closed, the store is the
    same and every connection is sent the same messages. *)
Theorem broadcast_order_independent (net : Conn -> bool) (quat : Quaternion) (data : Bytes)
    (w : World) (ks : list Conn) :
  json.Marshal quat = (data, None) ->
  ks ≡ₚ range (clients w) ->
  let w' := foldl (broadcast_to net data) w ks in
  clients w' = clients (broadcastQuaternion net quat w) /\
  closed w' = closed (broadcastQuaternion net quat w) /\
  currentQuat w' = currentQuat (broadcastQuaternion net quat w) /\
  forall c, received c w' = received c (broadcastQuaternion net quat w).
Proof.
  intros HM Hperm.
  assert (Hnd : NoDup ks) by (rewrite Hperm; apply NoDup_range).
  assert (Hin : forall c, bool_decide (c ∈ ks) = bool_decide (c ∈ range (clients w))).
  { intros c. apply bool_decide_ext. by rewrite Hperm. }
  simpl. rewrite (broadcast_serialized _ _ _ _ HM). split; [| split; [| split]].
  - apply map_eq. intros c.
    rewrite (loop_clients net data ks Hnd), (loop_clients net data _ (NoDup_range _)).
    by rewrite Hin.
  - apply set_eq. intros c.
    rewrite (loop_closed net data ks Hnd), (loop_closed net data _ (NoDup_range _)).
    by rewrite Hperm.
  - by rewrite !loop_quat.
  - intros c.
    rewrite (loop_received net data ks Hnd), (loop_received net data _ (NoDup_range _)).
    by rewrite Hin.
Qed.

Lemma broadcast_order_independent_sample :
  json.Marshal quat_sample = (Encoded (document quat_sample), None) /\
  [1%positive; 2%positive] ≡ₚ range (clients two_clients) /\
  received 1%positive
    (foldl (broadcast_to only_first (Encoded (document quat_sample))) two_clients
       [1%positive; 2%positive])
  = received 1%positive (broadcastQuaternion only_first quat_sample two_clients).
Proof.
  assert (Hperm : [1%positive; 2%positive] ≡ₚ range (clients two_clients)).
  { change (range (clients two_clients)) with [2%positive; 1%positive]. apply perm_swap. }
  split; [reflexivity |]. split; [exact Hperm |].
  exact (proj2 (proj2 (proj2
    (broadcast_order_independent only_first quat_sample _ two_clients
       [1%positive; 2%positive] eq_refl Hperm))) 1%positive).
Defined.

(** ** Invariants of the process *)





Lemma stored_emit (es : list Effect) (w : World) :
  stored (emit es w) = stored w ++ omap stored_of es.
Proof. unfold stored, emit. simpl. apply omap_app. Qed.

Lemma hub_effect_stored (es : list Effect) :
  forallb hub_effect es = true -> omap stored_of es = [].
Proof.
  induction es as [|e es IH]; [reflexivity |]. cbn [forallb].
  intros [He Hes]%andb_true_iff.
  destruct e; try discriminate He; cbn [omap list_omap stored_of]; by apply IH.
Qed.

Lemma broadcast_stored (net : Conn -> bool) (quat : Quaternion) (w : World) :
  stored (broadcastQuaternion net quat w) = stored w.
Proof.
  destruct (broadcast_journal net quat w) as (es & Hj & Hes). unfold stored.
  by rewrite Hj, omap_app, (hub_effect_stored es Hes), app_nil_r.
Qed.

Lemma stored_setCurrentQuat (quat : Quaternion) (w : World) :
  stored (setCurrentQuat quat w) = stored w ++ [quat].
Proof. unfold stored, setCurrentQuat. simpl. by rewrite omap_app. Qed.

Lemma stored_register (conn : Conn) (w : World) : stored (register conn w) = stored w.
Proof. unfold stored, register. simpl. rewrite omap_app. apply app_nil_r. Qed.

Lemma stored_disconnect (conn : Conn) (w : World) : stored (disconnect conn w) = stored w.
Proof. unfold stored, disconnect. simpl. rewrite omap_app. apply app_nil_r. Qed.

Lemma coherent_step (ev : Event) (s s' : System) :
  step ev s = Some s' -> coherent s -> coherent s'.
Proof.
  intros Hstep [Hq Hpc]. unfold coherent, last_stored in *.
  step_cases Hstep; rewrite ?sendCurrent_world, ?broadcast_store, ?broadcast_stored;
    rewrite ?stored_emit, ?stored_setCurrentQuat, ?stored_register, ?stored_disconnect;
    simpl; rewrite ?app_nil_r;
    try (split; [exact Hq | first [exact Hpc | discriminate]]).
  - split; [by rewrite last_snoc | intros ? [= <-]; by eexists].
  - split; [| discriminate]. destruct err; simpl; by rewrite app_nil_r.
Qed.

Lemma coherent_initial : coherent initial.
Proof. split; [reflexivity | discriminate]. Qed.

(** X12. The store always holds the last record the reader wrote to it,
    the zero record before the first one; nothing else ever writes it.
    And the record of a pending broadcast is that last record. *)
Theorem store_is_last_record (s : System) :
  reachable s ->
  currentQuat (world s) = last_stored (world s) /\
  forall quat, ingest s = Publishing quat -> quat = currentQuat (world s).
Proof.
  intros [evs Hrun].
  destruct (run_invariant coherent coherent_step evs initial s Hrun coherent_initial)
    as [Hq Hpc].
  split; [exact Hq |]. intros quat [st Hst]%Hpc.
  rewrite Hq. unfold last_stored. by rewrite Hst, last_snoc.
Qed.

Lemma store_is_last_record_sample :
  reachable about_to_publish /\
  currentQuat (world about_to_publish) = quat_sample /\
  last_stored (world about_to_publish) = quat_sample.
Proof.
  split; [exact about_to_publish_reachable |]. split; [reflexivity |].
  symmetry. exact (proj1 (store_is_last_record about_to_publish about_to_publish_reachable)).
Defined.

Lemma published_setCurrentQuat (c : Conn) (quat : Quaternion) (w : World) :
  published c (setCurrentQuat quat w) = published c w.
Proof. by journals. Qed.

Lemma published_register (c conn : Conn) (w : World) :
  published c (register conn w) = published c w.
Proof. by journals. Qed.

Lemma published_disconnect (c conn : Conn) (w : World) :
  published c (disconnect conn w) = published c w.
Proof. by journals. Qed.

Lemma published_quiet (c : Conn) (es : list Effect) (w : World) :
  omap (broadcasted c) es = [] -> published c (emit es w) = published c w.
Proof. intros H. by rewrite published_emit, H, app_nil_r. Qed.

Lemma stored_quiet (es : list Effect) (w : World) :
  omap stored_of es = [] -> stored (emit es w) = stored w.
Proof. intros H. by rewrite stored_emit, H, app_nil_r. Qed.

Lemma broadcast_published_sublist (net : Conn -> bool) (quat : Quaternion) (w : World)
    (c : Conn) (docs : list Bytes) :
  published c w `sublist_of` docs ->
  published c (broadcastQuaternion net quat w) `sublist_of` docs ++ [Encoded (document quat)].
Proof.
  intros Hsub. destruct (json.Marshal quat) as [data [err|]] eqn:E.
  - rewrite (broadcast_unserializable _ _ _ _ _ E), published_quiet by reflexivity.
    by apply sublist_inserts_r.
  - rewrite (broadcast_published _ _ _ _ E), (Marshal_ok _ _ E).
    apply sublist_app; [exact Hsub |]. destruct (_ && _); [done |]. apply sublist_nil_l.
Qed.

Lemma ordered_step (ev : Event) (s s' : System) :
  step ev s = Some s' -> ordered s -> ordered s'.
Proof.
  intros Hstep Hinv c. specialize (Hinv c). unfold documents in *.
  step_cases Hstep; rewrite ?sendCurrent_world;
    rewrite ?stored_setCurrentQuat, ?stored_register, ?stored_disconnect,
      ?published_setCurrentQuat, ?published_register, ?published_disconnect,
      ?broadcast_stored;
    rewrite ?(published_quiet c) by (try destruct err; reflexivity);
    rewrite ?stored_quiet by (try destruct err; reflexivity);
    try (rewrite Epc in Hinv); try exact Hinv.
  - by eexists.
  - destruct Hinv as (st & -> & Hsub). rewrite fmap_app. simpl.
    by apply broadcast_published_sublist.
Qed.

Lemma ordered_initial : ordered initial.
Proof. intros c. simpl. apply sublist_nil_l. Qed.

(** X13. What broadcasts send a connection follows the stores: the
    messages are those of stored records, in the order in which the
    records were stored, none of them twice for one store and none made
    up; records may be missing, never reordered. *)
Theorem broadcasts_follow_stores (s : System) (c : Conn) :
  reachable s -> published c (world s) `sublist_of` documents (world s).
Proof.
  intros [evs Hrun].
  pose proof (run_invariant ordered ordered_step evs initial s Hrun ordered_initial c) as H.
  destruct (ingest s); try exact H.
  destruct H as (st & Hst & Hsub). unfold documents. rewrite Hst, fmap_app.
  by apply sublist_inserts_r.
Qed.

Lemma broadcasts_follow_stores_sample :
  reachable about_to_publish /\
  published 1%positive (world about_to_publish)
  `sublist_of` documents (world about_to_publish).
Proof.
  split; [exact about_to_publish_reachable |].
  exact (broadcasts_follow_stores about_to_publish 1%positive about_to_publish_reachable).
Defined.

(** A count over the journal that the effects of a broadcast leave alone. *)
Lemma broadcast_count (f : Effect -> bool) (net : Conn -> bool) (quat : Quaternion)
    (w : World) :
  (forall e, hub_effect e = true -> f e = false) ->
  length (List.filter f (journal (broadcastQuaternion net quat w)))
  = length (List.filter f (journal w)).
Proof.
  intros Hf. destruct (broadcast_journal net quat w) as (es & -> & Hes).
  rewrite List.filter_app, length_app.
  assert (H : List.filter f es = []); [| by rewrite H, Nat.add_0_r].
  induction es as [|e es IH]; [reflexivity |]. simpl in Hes |- *.
  apply andb_true_iff in Hes as [He Hes]. by rewrite (Hf e He), IH.
Qed.

Lemma greetings_emit (c : Conn) (es : list Effect) (w : World) :
  greetings c (emit es w) = (greetings c w + length (List.filter (greeted c) es))%nat.
Proof. unfold greetings, emit. simpl. by rewrite List.filter_app, length_app. Qed.

Lemma greetings_broadcast (c : Conn) (net : Conn -> bool) (quat : Quaternion) (w : World) :
  greetings c (broadcastQuaternion net quat w) = greetings c w.
Proof. apply broadcast_count. by intros []. Qed.

Lemma greeted_once_step (ev : Event) (s s' : System) :
  step ev s = Some s' -> greeted_once s -> greeted_once s'.
Proof.
  intros Hstep Hinv c. specialize (Hinv c).
  step_cases Hstep; rewrite ?sendCurrent_world, ?greetings_broadcast, ?greetings_emit;
    try (destruct err); simpl; rewrite ?Nat.add_0_r; try exact Hinv.
  - unfold greetings in *. simpl. rewrite List.filter_app, length_app. simpl.
    by rewrite Nat.add_0_r.
  - unfold greetings in *. simpl. rewrite List.filter_app, length_app. simpl.
    rewrite Nat.add_0_r. destruct (decide (conn = c)) as [-> | Hne].
    + rewrite lookup_insert_eq. by rewrite Eh in Hinv.
    + by rewrite lookup_insert_ne.
  - destruct (decide (conn = c)) as [-> | Hne].
    + rewrite lookup_insert_eq. by rewrite Eh in Hinv.
    + by rewrite lookup_insert_ne.
  - destruct (decide (conn = c)) as [-> | Hne].
    + rewrite lookup_insert_eq, bool_decide_eq_true_2 by reflexivity.
      rewrite Eh in Hinv. rewrite Hinv. reflexivity.
    + rewrite lookup_insert_ne, bool_decide_eq_false_2 by assumption.
      simpl. by rewrite Nat.add_0_r.
  - destruct (decide (conn = c)) as [-> | Hne].
    + rewrite lookup_insert_eq. by rewrite Eh in Hinv.
    + by rewrite lookup_insert_ne.
  - unfold greetings in *. simpl. rewrite List.filter_app, length_app. simpl.
    rewrite Nat.add_0_r. destruct (decide (conn = c)) as [-> | Hne].
    + rewrite lookup_insert_eq. by rewrite Eh in Hinv.
    + by rewrite lookup_insert_ne.
Qed.

Lemma greeted_once_initial : greeted_once initial.
Proof. intros c. simpl. by rewrite lookup_empty. Qed.

(** X14. A handler writes the snapshot of the store on its connection
    once, between registering and its read loop, and never again: a
    connection has no snapshot write before its handler serves and
    exactly one from then on. *)
Theorem snapshot_written_once (s : System) (c : Conn) :
  reachable s ->
  greetings c (world s)
  = match handlers s !! c with
    | Some Serving | Some Returned => 1%nat
    | _ => 0%nat
    end.
Proof.
  intros [evs Hrun].
  exact (run_invariant greeted_once greeted_once_step evs initial s Hrun
           greeted_once_initial c).
Qed.

Lemma snapshot_written_once_sample :
  reachable scanning /\ greetings 1%positive (world scanning) = 1%nat.
Proof.
  split; [exact scanning_reachable |].
  exact (snapshot_written_once scanning 1%positive scanning_reachable).
Defined.

Lemma opens_emit (es : list Effect) (w : World) :
  opens (emit es w) = (opens w + length (List.filter port_opened es))%nat.
Proof. unfold opens, emit. simpl. by rewrite List.filter_app, length_app. Qed.

Lemma closes_emit (es : list Effect) (w : World) :
  closes (emit es w) = (closes w + length (List.filter port_closed es))%nat.
Proof. unfold closes, emit. simpl. by rewrite List.filter_app, length_app. Qed.

Lemma port_held_step (ev : Event) (s s' : System) :
  step ev s = Some s' -> port_held s -> port_held s'.
Proof.
  intros Hstep Hinv. unfold port_held in *.
  step_cases Hstep; rewrite ?sendCurrent_world;
    rewrite ?opens_emit, ?closes_emit; try (destruct err); simpl;
    try (rewrite Epc in Hinv); try lia.
  - unfold opens, closes in *. simpl. rewrite !List.filter_app, !length_app. simpl. lia.
  - unfold opens, closes in *.
    rewrite !broadcast_count by (by intros []). lia.
  - unfold opens, closes in *. simpl. rewrite !List.filter_app, !length_app. simpl. lia.
  - unfold opens, closes in *. simpl. rewrite !List.filter_app, !length_app. simpl. lia.
Qed.

Lemma port_held_initial : port_held initial.
Proof. reflexivity. Qed.

(** X15. The reader holds the port exactly while it is past
    [serial.Open]: every opening but the current one has been matched by
    a closing, so the port is released before each new attempt to open
    it and is never held twice. *)
Theorem port_released_before_reopen (s : System) :
  reachable s ->
  opens (world s)
  = (closes (world s) + match ingest s with Connecting => 0 | _ => 1 end)%nat.
Proof.
  intros [evs Hrun].
  exact (run_invariant port_held port_held_step evs initial s Hrun port_held_initial).
Qed.

Lemma port_released_before_reopen_sample :
  reachable scanning /\ opens (world scanning) = 1%nat /\ closes (world scanning) = 0%nat.
Proof.
  split; [exact scanning_reachable |]. split; [| reflexivity].
  exact (port_released_before_reopen scanning scanning_reachable).
Defined.

Lemma broadcast_received_absent (net : Conn -> bool) (quat : Quaternion) (w : World)
    (c : Conn) :
  c ∉ dom (clients w) ->
  received c (broadcastQuaternion net quat w) = received c w.
Proof.
  intros Hc. destruct (json.Marshal quat) as [data [err|]] eqn:E.
  - rewrite (broadcast_unserializable _ _ _ _ _ E), received_emit. simpl. apply app_nil_r.
  - rewrite (broadcast_received _ _ _ _ E), bool_decide_eq_false_2 by assumption.
    apply app_nil_r.
Qed.

Lemma broadcast_attempts_absent (net : Conn -> bool) (quat : Quaternion) (w : World)
    (c : Conn) :
  c ∉ dom (clients w) ->
  attempts c (broadcastQuaternion net quat w) = attempts c w.
Proof.
  intros Hc. unfold broadcastQuaternion.
  destruct (json.Marshal quat) as [data [err|]].
  - rewrite attempts_emit. simpl. lia.
  - rewrite loop_attempts by apply NoDup_range.
    rewrite bool_decide_eq_false_2; [lia |]. by rewrite elem_of_range.
Qed.

Lemma received_quiet (c : Conn) (es : list Effect) (w : World) :
  omap (delivered c) es = [] -> received c (emit es w) = received c w.
Proof. intros H. by rewrite received_emit, H, app_nil_r. Qed.

Lemma attempts_quiet (c : Conn) (es : list Effect) (w : World) :
  List.filter (attempted c) es = [] -> attempts c (emit es w) = attempts c w.
Proof. intros H. rewrite attempts_emit, H. simpl. lia. Qed.

Lemma received_setCurrentQuat (c : Conn) (quat : Quaternion) (w : World) :
  received c (setCurrentQuat quat w) = received c w.
Proof. by journals. Qed.

Lemma received_register (c conn : Conn) (w : World) :
  received c (register conn w) = received c w.
Proof. by journals. Qed.

Lemma received_disconnect (c conn : Conn) (w : World) :
  received c (disconnect conn w) = received c w.
Proof. by journals. Qed.

Lemma attempts_setCurrentQuat (c : Conn) (quat : Quaternion) (w : World) :
  attempts c (setCurrentQuat quat w) = attempts c w.
Proof. unfold attempts. simpl. rewrite List.filter_app, length_app. simpl. lia. Qed.

Lemma attempts_register (c conn : Conn) (w : World) :
  attempts c (register conn w) = attempts c w.
Proof. unfold attempts. simpl. rewrite List.filter_app, length_app. simpl. lia. Qed.

Lemma attempts_disconnect (c conn : Conn) (w : World) :
  attempts c (disconnect conn w) = attempts c w.
Proof. unfold attempts. simpl. rewrite List.filter_app, length_app. simpl. lia. Qed.

Lemma gone_step (c : Conn) (trace : list Bytes) (n : nat) (ev : Event) (s s' : System) :
  step ev s = Some s' -> gone c trace n s -> gone c trace n s'.
Proof.
  intros Hstep (Hh & Hout & Hcl & Hrec & Hatt). unfold gone.
  assert (Hne : forall conn pc, handlers s !! conn = pc -> pc <> Some Returned -> conn <> c).
  { intros conn pc H1 H2 ->. congruence. }
  step_cases Hstep; rewrite ?sendCurrent_world;
    rewrite ?(received_quiet c) by (try destruct err; reflexivity);
    rewrite ?(attempts_quiet c) by (try destruct err; reflexivity);
    rewrite ?received_setCurrentQuat, ?received_register, ?received_disconnect,
      ?attempts_setCurrentQuat, ?attempts_register, ?attempts_disconnect;
    try (split; [exact Hh | split; [exact Hout | split; [exact Hcl | by split]]]).
  - split; [exact Hh |].
    split; [intros H; by apply broadcast_clients_subset in H |].
    split; [apply broadcast_closed; by left |].
    by rewrite broadcast_received_absent, broadcast_attempts_absent.
  - assert (conn <> c) by (by apply (Hne conn None)).
    rewrite lookup_insert_ne by assumption. simpl. rewrite dom_insert.
    split; [exact Hh |]. split; [set_solver |]. done.
  - assert (conn <> c) by (by apply (Hne conn (Some Registered))).
    rewrite lookup_insert_ne by assumption. done.
  - assert (conn <> c) by (by apply (Hne conn (Some (Holding quat)))).
    rewrite lookup_insert_ne by assumption.
    split; [exact Hh |]. split; [exact Hout |]. split; [exact Hcl |].
    rewrite received_greeted, (bool_decide_eq_false_2 (conn = c)) by assumption.
    rewrite andb_false_r, app_nil_r. by split.
  - assert (conn <> c) by (by apply (Hne conn (Some Serving))).
    rewrite lookup_insert_ne by assumption. done.
  - assert (conn <> c) by (by apply (Hne conn (Some Serving))).
    rewrite lookup_insert_ne by assumption. simpl. rewrite dom_delete.
    split; [exact Hh |]. split; [set_solver |]. split; [set_solver |]. done.
Qed.

Lemma step_disconnect (s : System) (c : Conn) :
  handlers s !! c = Some Serving ->
  step (Socket c (ReadMessage false)) s
  = Some {| world := disconnect c (world s); ingest := ingest s;
            handlers := <[c := Returned]> (handlers s) |}.
Proof. intros H. unfold step. by rewrite H. Qed.

(** X16. When the read loop of a handler ends, its connection is closed
    and unregistered for good: whatever the process does afterwards, the
    handler stays returned, the connection stays out of the map, and
    nothing more is sent or even attempted on it. *)
Theorem disconnect_is_final (s s1 s' : System) (c : Conn) (evs : list Event) :
  step (Socket c (ReadMessage false)) s = Some s1 ->
  run evs s1 = Some s' ->
  handlers s' !! c = Some Returned /\
  (c ∉ dom (clients (world s'))) /\
  c ∈ closed (world s') /\
  received c (world s') = received c (world s) /\
  attempts c (world s') = attempts c (world s).
Proof.
  intros Hstep Hrun.
  apply (run_invariant _ (gone_step c (received c (world s)) (attempts c (world s)))
           evs s1 s' Hrun).
  unfold step in Hstep. simpl in Hstep.
  destruct (handlers s !! c) as [[| | |]|]; try discriminate Hstep.
  injection Hstep as <-. unfold gone. simpl.
  rewrite received_disconnect, attempts_disconnect.
  split; [apply lookup_insert_eq |]. split; [set_solver |]. split; [set_solver |]. done.
Qed.

Lemma disconnect_is_final_sample :
  exists s1 s',
    step (Socket 1%positive (ReadMessage false)) scanning = Some s1 /\
    run [Serial (Scanned "0.1,0.2,0.3,0.9"); Serial (Broadcast always)] s1 = Some s' /\
    received 1%positive (world s') = received 1%positive (world scanning) /\
    attempts 1%positive (world s') = 0%nat.
Proof.
  destruct (step (Socket 1%positive (ReadMessage false)) scanning) as [s1|] eqn:H1;
    [| vm_compute in H1; discriminate].
  destruct (run [Serial (Scanned "0.1,0.2,0.3,0.9"); Serial (Broadcast always)] s1)
    as [s'|] eqn:H2;
    [| vm_compute in H1; injection H1 as <-; vm_compute in H2; discriminate].
  exists s1, s'. split; [reflexivity |]. split; [exact H2 |].
  destruct (disconnect_is_final scanning s1 s' 1%positive _ H1 H2) as (_ & _ & _ & Hr & Ha).
  split; [exact Hr | exact Ha].
Defined.

Lemma step_upgraded (s : System) (c : Conn) :
  handlers s !! c = None ->
  step (Socket c Upgraded) s
  = Some {| world := register c (world s); ingest := ingest s;
            handlers := <[c := Registered]> (handlers s) |}.
Proof. intros H. unfold step. by rewrite H. Qed.

(** X17. The snapshot a new subscriber is sent is not ordered with the
    broadcasts. A handler copies the store and writes the copy later;
    when a record is stored and broadcast in between, the subscriber is
    sent the newer record first and the older one after it, and is left
    with the older one although the store holds the newer. *)
Theorem snapshot_can_follow_newer_record (line1 line2 : string) (quat1 quat2 : Quaternion)
    (data1 data2 : Bytes) :
  parseQuaternion line1 = (quat1, None) ->
  parseQuaternion line2 = (quat2, None) ->
  json.Marshal quat1 = (data1, None) ->
  json.Marshal quat2 = (data2, None) ->
  exists s,
    run [Serial Opened; Serial (Scanned line1); Serial (Broadcast always);
         Socket 1%positive Upgraded; Socket 1%positive ReadCurrent;
         Serial (Scanned line2); Serial (Broadcast always);
         Socket 1%positive (SendCurrent always)] initial = Some s /\
    stored (world s) = [quat1; quat2] /\
    currentQuat (world s) = quat2 /\
    received 1%positive (world s)
    = [Encoded (document quat2); Encoded (document quat1)].
Proof.
  intros Hp1 Hp2 HM1 HM2.
  cbn [run]. rewrite (step_opened initial eq_refl). cbn [mbind option_bind world ingest handlers].
  rewrite step_scanned by reflexivity. rewrite Hp1. cbn [mbind option_bind world ingest handlers].
  rewrite (step_broadcast _ always quat1) by reflexivity. cbn [mbind option_bind world ingest handlers].
  rewrite step_upgraded by reflexivity. cbn [mbind option_bind world ingest handlers].
  rewrite step_read_current by (simpl; apply lookup_insert_eq). cbn [mbind option_bind world ingest handlers].
  change (currentQuat (register 1%positive ?w)) with (currentQuat w).
  rewrite (broadcast_store always quat1).
  change (currentQuat (setCurrentQuat quat1 _)) with quat1.
  rewrite step_scanned by reflexivity. rewrite Hp2. cbn [mbind option_bind world ingest handlers].
  rewrite (step_broadcast _ always quat2) by reflexivity. cbn [mbind option_bind world ingest handlers].
  rewrite (step_send_current _ 1%positive quat1 always)
    by (simpl; apply lookup_insert_eq).
  eexists. split; [reflexivity |].
  rewrite <- (Marshal_ok _ _ HM1), <- (Marshal_ok _ _ HM2).
  cbn [world]. rewrite sendCurrent_world, HM1.
  rewrite (broadcast_serialized _ _ _ _ HM2), (broadcast_serialized _ _ _ _ HM1).
  vm_compute. by split.
Qed.

Lemma snapshot_can_follow_newer_record_sample :
  parseQuaternion "0,0,0,1" = (Quaternion_identity, None) /\
  parseQuaternion "0.1,0.2,0.3,0.9" = (quat_sample, None) /\
  exists s,
    run [Serial Opened; Serial (Scanned "0,0,0,1"); Serial (Broadcast always);
         Socket 1%positive Upgraded; Socket 1%positive ReadCurrent;
         Serial (Scanned "0.1,0.2,0.3,0.9"); Serial (Broadcast always);
         Socket 1%positive (SendCurrent always)] initial = Some s /\
    currentQuat (world s) = quat_sample /\
    received 1%positive (world s)
    = [Encoded (document quat_sample); Encoded (document Quaternion_identity)].
Proof.
  assert (H1 : parseQuaternion "0,0,0,1" = (Quaternion_identity, None))
    by (vm_compute; reflexivity).
  assert (H2 : parseQuaternion "0.1,0.2,0.3,0.9" = (quat_sample, None))
    by (vm_compute; reflexivity).
  split; [exact H1 |]. split; [exact H2 |].
  destruct (snapshot_can_follow_newer_record "0,0,0,1" "0.1,0.2,0.3,0.9"
              Quaternion_identity quat_sample _ _ H1 H2 eq_refl eq_refl)
    as (s & Hrun & _ & Hq & Hr).
  exists s. split; [exact Hrun |]. split; [exact Hq | exact Hr].
Defined.

(** ** The zoom of the page *)

Lemma SFcompare_antisym (x y : float64) :
  SFcompare y x = option_map CompOpp (SFcompare x y).
Proof.
  destruct x as [sx|sx| |sx mx ex], y as [sy|sy| |sy my ey]; simpl;
    try reflexivity; try (by destruct sx); try (by destruct sy);
    try (by destruct sx, sy).
  destruct sx, sy; simpl; try reflexivity; f_equal;
    rewrite (Z.compare_antisym ex ey); destruct (ex ?= ey); simpl; try reflexivity.
  - by rewrite (Pos.compare_cont_antisym mx my Eq).
  - by rewrite (Pos.compare_cont_antisym mx my Eq).
Qed.

Lemma SFltb_asym (x y : float64) : SFltb x y = true -> SFltb y x = false.
Proof.
  unfold SFltb. rewrite (SFcompare_antisym x y).
  by destruct (SFcompare x y) as [[]|].
Qed.

Lemma mul_not_nan (x y : float64) :
  IsNaN x = false -> IsInf y = false -> IsNaN y = false -> y <> S754_zero false ->
  y <> S754_zero true -> IsNaN (page.mul x y) = false.
Proof.
  unfold page.mul. destruct x as [sx|sx| |sx mx ex], y as [[]|sy| |sy my ey];
    simpl; try done.
  intros. by apply binary_round_aux_not_nan.
Qed.

Lemma Math_min_within (x hi : float64) :
  IsNaN x = false -> IsNaN hi = false -> SFltb hi hi = false ->
  IsNaN (page.Math_min x hi) = false /\ SFltb hi (page.Math_min x hi) = false.
Proof.
  intros Hx Hhi Hrefl. unfold page.Math_min. rewrite Hx, Hhi. simpl.
  assert (H : IsNaN (if SFltb hi x then hi else x) = false /\
              SFltb hi (if SFltb hi x then hi else x) = false).
  { destruct (SFltb hi x) eqn:E; by split. }
  destruct x as [sx|sx| |sx mx ex], hi as [sy|sy| |sy my ey]; try exact H; try done.
Qed.

Lemma Math_max_within (lo hi x : float64) :
  page.within lo hi lo -> IsNaN x = false -> SFltb hi x = false ->
  page.within lo hi (page.Math_max lo x).
Proof.
  intros (Hlo & Hrefl & Hlh) Hx Hhx. unfold page.within, page.Math_max.
  rewrite Hlo, Hx. simpl.
  assert (H : IsNaN (if SFltb lo x then x else lo) = false /\
              SFltb (if SFltb lo x then x else lo) lo = false /\
              SFltb hi (if SFltb lo x then x else lo) = false).
  { destruct (SFltb lo x) eqn:E; [| done].
    split; [exact Hx |]. split; [by apply SFltb_asym | exact Hhx]. }
  destruct lo as [sx|sx| |sx mx ex], x as [sy|sy| |sy my ey]; try exact H; try done.
Qed.

Lemma handle_within (v : page.View) (g : page.Gesture) :
  page.within (page.number 1 (-1)) (page.number 10 0) (page.zoomFactor v) ->
  page.within (page.number 1 (-1)) (page.number 10 0) (page.zoomFactor (page.handle v g)).
Proof.
  intros (Hnan & Hlo & Hhi).
  assert (H1 : page.within (page.number 1 (-1)) (page.number 10 0) (page.number 1 0))
    by (repeat split; vm_compute; reflexivity).
  destruct g as [deltaY | | |]; try exact H1.
  unfold page.handle, page.onMouseWheel. cbv zeta. cbn [page.zoomFactor].
  set (k := page.add _ _).
  assert (Hk : IsInf k = false /\ IsNaN k = false /\ k <> S754_zero false /\
               k <> S754_zero true).
  { subst k. destruct (SFltb float64_zero deltaY); vm_compute; by repeat split. }
  destruct Hk as (Hk1 & Hk2 & Hk3 & Hk4).
  pose proof (mul_not_nan (page.zoomFactor v) k Hnan Hk1 Hk2 Hk3 Hk4) as Hm.
  destruct (Math_min_within (page.mul (page.zoomFactor v) k) (page.number 10 0) Hm)
    as [Hn Hh]; [vm_compute; reflexivity | vm_compute; reflexivity |].
  apply Math_max_within; [| exact Hn | exact Hh].
  repeat split; vm_compute; reflexivity.
Qed.

Lemma handle_camera (v : page.View) (g : page.Gesture) :
  (page.baseCameraDistance v = page.number 5 0 \/
   page.baseCameraDistance v = page.mul (page.number 4 0) (page.number 13 (-1))) ->
  (page.baseCameraDistance (page.handle v g) = page.number 5 0 \/
   page.baseCameraDistance (page.handle v g)
   = page.mul (page.number 4 0) (page.number 13 (-1))) /\
  page.cameraZ (page.handle v g)
  = page.mul (page.baseCameraDistance (page.handle v g)) (page.zoomFactor (page.handle v g)).
Proof.
  intros Hb. destruct g as [deltaY | | |]; simpl.
  - by split.
  - split; [exact Hb |]. destruct Hb as [-> | ->]; vm_compute; reflexivity.
  - split; [exact Hb |]. destruct Hb as [-> | ->]; vm_compute; reflexivity.
  - split; [by right | vm_compute; reflexivity].
Qed.

(** X18. Whatever the wheel, the reset buttons and the loading of models
    do, in any order, the zoom factor of the page stays a number from
    0.1 to 10, and the camera stands at the base distance times the zoom
    factor. *)
Theorem zoom_within_limits (gs : list page.Gesture) :
  let v := foldl page.handle page.init gs in
  page.within (page.number 1 (-1)) (page.number 10 0) (page.zoomFactor v) /\
  page.cameraZ v = page.mul (page.baseCameraDistance v) (page.zoomFactor v).
Proof.
  simpl.
  assert (H : forall v,
    page.within (page.number 1 (-1)) (page.number 10 0) (page.zoomFactor v) ->
    (page.baseCameraDistance v = page.number 5 0 \/
     page.baseCameraDistance v = page.mul (page.number 4 0) (page.number 13 (-1))) ->
    page.cameraZ v = page.mul (page.baseCameraDistance v) (page.zoomFactor v) ->
    let v' := foldl page.handle v gs in
    page.within (page.number 1 (-1)) (page.number 10 0) (page.zoomFactor v') /\
    page.cameraZ v' = page.mul (page.baseCameraDistance v') (page.zoomFactor v')).
  { induction gs as [|g gs IH]; intros v Hw Hb Hz; simpl; [by split |].
    destruct (handle_camera v g Hb) as [Hb' Hz'].
    apply IH; [by apply handle_within | exact Hb' | exact Hz']. }
  apply H; [repeat split; vm_compute; reflexivity | by left | vm_compute; reflexivity].
Qed.

(** ** A subscriber in good health *)

Lemma wire_snoc (st : list Quaternion) (quat : Quaternion) :
  wire (st ++ [quat])
  = wire st ++ (if serializable quat then [Encoded (document quat)] else []).
Proof.
  unfold wire. rewrite List.filter_app, fmap_app. simpl.
  by destruct (serializable quat).
Qed.

Lemma fed_step (c : Conn) (sent : list Bytes) (before : list Quaternion) (ev : Event)
    (s s' : System) :
  step ev s = Some s' -> healthy c ev -> fed c sent before s -> fed c sent before s'.
Proof.
  intros Hstep Hev (Hin & Hopen & st & Hst & Hpub). unfold fed.
  step_cases Hstep; rewrite ?sendCurrent_world;
    rewrite ?stored_setCurrentQuat, ?stored_register, ?stored_disconnect,
      ?published_setCurrentQuat, ?published_register, ?published_disconnect,
      ?broadcast_stored;
    rewrite ?(published_quiet c) by (try destruct err; reflexivity);
    rewrite ?stored_quiet by (try destruct err; reflexivity);
    try rewrite Epc in Hst; simpl in Hst; rewrite ?app_nil_r in Hst.
  - split; [exact Hin |]. split; [exact Hopen |]. exists st. by rewrite app_nil_r.
  - split; [exact Hin |]. split; [exact Hopen |]. exists st. by rewrite app_nil_r.
  - split; [exact Hin |]. split; [exact Hopen |]. exists st. by rewrite app_nil_r.
  - split; [exact Hin |]. split; [exact Hopen |]. exists st.
    by rewrite Hst, <- app_assoc.
  - split; [exact Hin |]. split; [exact Hopen |]. exists st. by rewrite app_nil_r.
  - (* the broadcast *)
    simpl in Hev.
    assert (Hw : writable net c (world s) = true).
    { unfold writable. rewrite Hev, bool_decide_eq_false_2 by assumption. reflexivity. }
    assert (Hclosed : c ∉ closed (broadcastQuaternion net quat (world s))).
    { intros [H | (_ & H & _)]%broadcast_closed; [done | congruence]. }
    destruct (json.Marshal quat) as [data [err|]] eqn:E.
    + rewrite (broadcast_unserializable _ _ _ _ _ E) in Hclosed |- *.
      rewrite published_quiet by reflexivity. simpl.
      split; [exact Hin |]. split; [exact Hopen |]. exists (st ++ [quat]).
      rewrite app_nil_r, wire_snoc. split; [exact Hst |].
      assert (Hs : serializable quat = false).
      { destruct (serializable quat) eqn:Es; [| reflexivity].
        apply Marshal_finite in Es as [d Hd]. congruence. }
      by rewrite Hs, app_nil_r.
    + split.
      { apply elem_of_dom. rewrite (broadcast_clients _ _ _ _ E), Hw.
        by apply elem_of_dom. }
      split; [exact Hclosed |]. exists (st ++ [quat]).
      rewrite app_nil_r, wire_snoc. split; [exact Hst |].
      rewrite (broadcast_published _ _ _ _ E), Hw, bool_decide_eq_true_2 by assumption.
      assert (Hs : serializable quat = true) by (apply Marshal_finite; eauto).
      rewrite Hs, Hpub, (Marshal_ok _ _ E). simpl. by rewrite <- app_assoc.
  - split; [rewrite dom_insert; set_solver |]. split; [exact Hopen |]. by exists st.
  - split; [exact Hin |]. split; [exact Hopen |]. by exists st.
  - split; [exact Hin |]. split; [exact Hopen |]. by exists st.
  - split; [exact Hin |]. split; [exact Hopen |]. by exists st.
  - simpl in Hev. split; [rewrite dom_delete; set_solver |].
    split; [set_solver |]. by exists st.
  - split; [exact Hin |]. split; [exact Hopen |]. by exists st.
Qed.

Lemma fed_run (c : Conn) (sent : list Bytes) (before : list Quaternion) (evs : list Event) :
  forall s s',
    Forall (healthy c) evs -> run evs s = Some s' ->
    fed c sent before s -> fed c sent before s'.
Proof.
  induction evs as [|ev evs IH]; intros s s' Hh Hrun Hfed; simpl in Hrun.
  - by inversion Hrun; subst.
  - destruct (step ev s) as [s1|] eqn:E; simpl in Hrun; [| discriminate].
    apply Forall_cons in Hh as [Hev Hh].
    eapply IH; [exact Hh | exact Hrun |]. eapply fed_step; eauto.
Qed.

(** X19. A subscriber in good health misses nothing. Take a registered
    client whose connection is open, and let the process run for as
    long as the read loop of that client does not end and every
    broadcast finds its peer taking the write. Then the client stays
    registered, and the broadcasts send it every serializable record
    stored in the meantime, each once and in the order of the stores. *)
Theorem healthy_subscriber_misses_nothing (s0 s : System) (c : Conn) (evs : list Event) :
  c ∈ dom (clients (world s0)) ->
  c ∉ closed (world s0) ->
  (forall quat, ingest s0 <> Publishing quat) ->
  Forall (healthy c) evs ->
  run evs s0 = Some s ->
  (forall quat, ingest s <> Publishing quat) ->
  c ∈ dom (clients (world s)) /\
  exists st,
    stored (world s) = stored (world s0) ++ st /\
    published c (world s) = published c (world s0) ++ wire st.
Proof.
  intros Hin Hopen Hpc0 Hh Hrun Hpc.
  destruct (fed_run c (published c (world s0)) (stored (world s0)) evs s0 s Hh Hrun)
    as (Hin' & _ & st & Hst & Hpub).
  - split; [exact Hin |]. split; [exact Hopen |]. exists [].
    destruct (ingest s0) eqn:E; [| | by destruct (Hpc0 quat)];
      by rewrite !app_nil_r.
  - split; [exact Hin' |]. exists st. split; [| exact Hpub].
    rewrite Hst. destruct (ingest s) eqn:E; [| | by destruct (Hpc quat)];
      by rewrite !app_nil_r.
Qed.

Lemma healthy_subscriber_misses_nothing_sample :
  1%positive ∈ dom (clients (world scanning)) /\
  (1%positive ∉ closed (world scanning)) /\
  Forall (healthy 1%positive)
    [Serial (Scanned "0.1,0.2,0.3,0.9"); Serial (Broadcast always);
     Serial (Scanned "NaN,0,0,1"); Serial (Broadcast always)] /\
  exists s,
    run [Serial (Scanned "0.1,0.2,0.3,0.9"); Serial (Broadcast always);
         Serial (Scanned "NaN,0,0,1"); Serial (Broadcast always)] scanning = Some s /\
    1%positive ∈ dom (clients (world s)) /\
    exists st,
      stored (world s) = stored (world scanning) ++ st /\
      published 1%positive (world s) = published 1%positive (world scanning) ++ wire st.
Proof.
  assert (Hin : 1%positive ∈ dom (clients (world scanning))).
  { apply elem_of_dom. exists true. reflexivity. }
  assert (Hopen : 1%positive ∉ closed (world scanning)) by (simpl; set_solver).
  assert (Hh : Forall (healthy 1%positive)
                 [Serial (Scanned "0.1,0.2,0.3,0.9"); Serial (Broadcast always);
                  Serial (Scanned "NaN,0,0,1"); Serial (Broadcast always)])
    by (repeat constructor).
  split; [exact Hin |]. split; [exact Hopen |]. split; [exact Hh |].
  destruct (run [Serial (Scanned "0.1,0.2,0.3,0.9"); Serial (Broadcast always);
                 Serial (Scanned "NaN,0,0,1"); Serial (Broadcast always)] scanning)
    as [s|] eqn:Hrun; [| vm_compute in Hrun; discriminate].
  exists s. split; [reflexivity |].
  apply (healthy_subscriber_misses_nothing scanning s 1%positive _ Hin Hopen
           ltac:(discriminate) Hh Hrun).
  vm_compute in Hrun. injection Hrun as <-. discriminate.
Defined.
